(** * The application/consensus bridge of go-tangerine, embedded in Rocq

    The development follows the Go sources:
    - [DB]      : the LevelDB backed compaction-chain store (package db),
    - [Types]   : block records, the timestamp codec and the block
                  comparators (package types),
    - [Store]   : blocks and DKG material in the same store (package db),
    - [App]     : [DexconApp] (dex/app.go),
    - [Peers]   : the known hashes of a peer and the registry of peers
                  (dex/peer.go),
    - [PeerSet] : the round-keyed topology manager (dex/peer.go).

    Go's [uint64] and [int64] values are integers of [Z] with the wrap-around
    written out; [[]byte] is [list Byte.byte]; Go maps are [gmap]s and Go
    "set" maps ([map[K]struct{}]) are [gset]s. *)

From Stdlib Require Import ZArith Lia.
From Stdlib.Strings Require Import Byte String.
From stdpp Require Import base gmap sets list sorting strings pretty.

Local Open Scope Z_scope.
Set Warnings "-clear-no-such-hyp".

(** ** Machine integers *)

(** Conversion to [uint64]: the value modulo 2^64. *)
Definition wrap64 (z : Z) : Z := z mod 2 ^ 64.

(** Conversion to [int64]: two's complement reading of the low 64 bits. *)
Definition to_int64 (z : Z) : Z := (z + 2 ^ 63) mod 2 ^ 64 - 2 ^ 63.

Definition is_uint64 (z : Z) : Prop := 0 <= z < 2 ^ 64.
Definition is_int64 (z : Z) : Prop := - 2 ^ 63 <= z < 2 ^ 63.

Definition MaxUint64 : Z := 2 ^ 64 - 1.

(** Go byte slices. *)
Definition bytes : Type := list byte.

#[global] Instance byte_eq_dec : EqDecision byte := Byte.byte_eq_dec.

#[global] Program Instance byte_countable : Countable byte :=
  inj_countable Byte.to_N Byte.of_N _.
Next Obligation. intros b. apply Byte.of_to_N. Qed.

(** ** The compaction-chain store (package db, LevelDBBackedDB) *)

Module DB.

(** [common.Hash], a 32 byte array. *)
Definition Hash : Type := bytes.
Definition zeroHash : Hash := replicate 32 x00.

Record compactionChainTipInfo : Type := mkTip {
  Height : Z;   (* uint64 *)
  Hash_ : Hash;
}.

(** The zero value of [compactionChainTipInfo], what a Go variable of that
    type holds before it is assigned. *)
Definition zeroTip : compactionChainTipInfo := mkTip 0 zeroHash.

Inductive error : Type :=
| ErrInvalidCompactionChainTipHeight
| ErrRLPDecode.

(** A LevelDB instance: a finite map from keys to values.  [Get] of an absent
    key is [leveldb.ErrNotFound], modelled by [None]. *)
Abbreviation leveldb := (gmap bytes bytes).

Definition compactionChainTipInfoKey : bytes := list_byte_of_string "cc-tip".

Section LevelDB.

(** The RLP codec of the tip record ([rlp.EncodeToBytes], [rlp.DecodeBytes]);
    package rlp is outside the modelled sources and is taken as a parameter. *)
Variable rlpEncode : compactionChainTipInfo -> bytes.
Variable rlpDecode : bytes -> option compactionChainTipInfo.

(** [internalGetCompactionChainTipInfo]: a missing record is not an error and
    yields the zero-valued info. *)
Definition internalGetCompactionChainTipInfo (db : leveldb)
  : compactionChainTipInfo * option error :=
  match db !! compactionChainTipInfoKey with
  | None => (zeroTip, None)
  | Some queried =>
      match rlpDecode queried with
      | Some info => (info, None)
      | None => (zeroTip, Some ErrRLPDecode)
      end
  end.

(** [PutCompactionChainTipInfo]: returns the store after the call and the
    error ([None] is Go's [nil]). *)
Definition PutCompactionChainTipInfo (db : leveldb) (blockHash : Hash) (height : Z)
  : leveldb * option error :=
  let marshaled := rlpEncode (mkTip height blockHash) in
  match internalGetCompactionChainTipInfo db with
  | (_, Some err) => (db, Some err)
  | (info, None) =>
      if decide (wrap64 (Height info + 1) = height)
      then (<[compactionChainTipInfoKey := marshaled]> db, None)
      else (db, Some ErrInvalidCompactionChainTipHeight)
  end.

(** [GetCompactionChainTipInfo] panics on a decoding error ([None]). *)
Definition GetCompactionChainTipInfo (db : leveldb) : option (Hash * Z) :=
  match internalGetCompactionChainTipInfo db with
  | (info, None) => Some (Hash_ info, Height info)
  | (_, Some _) => None
  end.

(** The stored tip record, when there is one, decodes to a record whose height
    is a [uint64]. *)
Definition tip_wf (db : leveldb) : Prop :=
  forall queried, db !! compactionChainTipInfoKey = Some queried ->
    exists info, rlpDecode queried = Some info /\ is_uint64 (Height info).

(** The currently stored tip height; a missing record counts as 0. *)
Definition tipHeight (db : leveldb) : Z :=
  Height (fst (internalGetCompactionChainTipInfo db)).

(** A sequence of [PutCompactionChainTipInfo] calls, one after the other:
    the store after them and the number of calls that returned no error. *)
Definition putTips (db : leveldb) (calls : list (Hash * Z)) : leveldb * nat :=
  foldl (fun '(db, done) '(blockHash, height) =>
    match PutCompactionChainTipInfo db blockHash height with
    | (db', None) => (db', S done)
    | (db', Some _) => (db', done)
    end) (db, O) calls.

End LevelDB.

(** A small stand-in codec, used to run the store on concrete inputs: the
    height as one decimal string followed by the hash bytes. *)
Definition demoEncode (i : compactionChainTipInfo) : bytes :=
  list_byte_of_string (pretty (Height i)) ++ x3a :: Hash_ i.

Fixpoint demoSplit (bs : bytes) : option (bytes * bytes) :=
  match bs with
  | [] => None
  | b :: rest =>
      if decide (b = x3a) then Some ([], rest)
      else match demoSplit rest with
           | Some (l, r) => Some (b :: l, r)
           | None => None
           end
  end.

Fixpoint demoDigits (acc : Z) (bs : bytes) : option Z :=
  match bs with
  | [] => Some acc
  | b :: rest =>
      let d := Z.of_N (Byte.to_N b) - 48 in
      if decide (0 <= d <= 9) then demoDigits (10 * acc + d) rest else None
  end.

Definition demoDecode (bs : bytes) : option compactionChainTipInfo :=
  match demoSplit bs with
  | Some (l, r) =>
      match demoDigits 0 l with
      | Some h => Some (mkTip h r)
      | None => None
      end
  | None => None
  end.

End DB.

(** ** Blocks, timestamps and comparators (package types) *)

Module Types.

(** *** Package time of the Go standard library

    A [time.Time] is an instant, given by the seconds elapsed since the Unix
    epoch and a nanosecond offset in [0, 999999999], together with a
    location that only matters for display. *)

Inductive Location : Type :=
| UTCLoc
| LocalLoc.

Record Time : Type := mkTime {
  unixSec : Z;
  nsec : Z;
  loc : Location;
}.

Definition Time_valid (t : Time) : Prop := 0 <= nsec t < 1000000000.

(** The nanoseconds elapsed since the epoch, as an unbounded integer. *)
Definition unixNanos (t : Time) : Z := unixSec t * 1000000000 + nsec t.

(** [t.UTC()]: the same instant, displayed in UTC. *)
Definition Time_UTC (t : Time) : Time := mkTime (unixSec t) (nsec t) UTCLoc.

(** [t.UnixNano()]: an [int64]; the multiplication and the addition are
    [int64] operations and wrap around. *)
Definition Time_UnixNano (t : Time) : Z := to_int64 (unixNanos t).

(** [time.Unix(sec, nsec)]: [nsec] outside [0, 999999999] is normalised into
    the seconds.  Go's [/] on integers truncates toward zero ([Z.quot]). *)
Definition time_Unix (sec nsec : Z) : Time :=
  if (nsec <? 0) || (nsec >=? 1000000000) then
    let n := Z.quot nsec 1000000000 in
    let sec := to_int64 (sec + n) in
    let nsec := to_int64 (nsec - to_int64 (n * 1000000000)) in
    if nsec <? 0
    then mkTime (to_int64 (sec - 1)) (to_int64 (nsec + 1000000000)) LocalLoc
    else mkTime sec nsec LocalLoc
  else mkTime sec nsec LocalLoc.

(** *** rlpTimestamp *)

(** [rlpTimestamp.EncodeRLP]: the [uint64] that is handed to [rlp.Encode]. *)
Definition rlpTimestamp_EncodeRLP (t : Time) : Z :=
  wrap64 (Time_UnixNano (Time_UTC t)).

(** [rlpTimestamp.DecodeRLP], from the [uint64] the stream decoded
    ([nano]); Go's [%] is the remainder of the truncated division
    ([Z.rem]). *)
Definition rlpTimestamp_DecodeRLP (nano : Z) : Time :=
  let sec := Z.quot (to_int64 nano) 1000000000 in
  let nsec := Z.rem (to_int64 nano) 1000000000 in
  Time_UTC (time_Unix sec nsec).

(** *** Blocks *)

Definition Hash : Type := bytes.

Record Position : Type := mkPosition {
  Round : Z;     (* uint64 *)
  ChainID : Z;   (* uint32 *)
  Height : Z;    (* uint64 *)
}.

Record FinalizationResult : Type := mkFinalizationResult {
  fParentHash : Hash;
  fRandomness : bytes;
  fTimestamp : Time;
  fHeight : Z;
}.

Record Witness : Type := mkWitness {
  wHeight : Z;
  wData : bytes;
}.

Record Block : Type := mkBlock {
  ProposerID : Hash;
  ParentHash : Hash;
  Hash_ : Hash;
  Position_ : Position;
  Timestamp : Time;
  Acks : list Hash;
  Payload : bytes;
  PayloadHash : Hash;
  Witness_ : Witness;
  Finalization : FinalizationResult;
  Signature : bytes;
  CRSSignature : bytes;
}.

(** What [rlpFinalizationResult] and [rlpBlock] put on the wire: every field
    as it is, the timestamps through [rlpTimestamp] as a [uint64]. *)
Record rlpFinalizationResult : Type := mkRlpFinalizationResult {
  rfParentHash : Hash;
  rfRandomness : bytes;
  rfTimestamp : Z;
  rfHeight : Z;
}.

Record rlpBlock : Type := mkRlpBlock {
  rProposerID : Hash;
  rParentHash : Hash;
  rHash : Hash;
  rPosition : Position;
  rTimestamp : Z;
  rAcks : list Hash;
  rPayload : bytes;
  rPayloadHash : Hash;
  rWitness : Witness;
  rFinalization : rlpFinalizationResult;
  rSignature : bytes;
  rCRSSignature : bytes;
}.

Definition FinalizationResult_EncodeRLP (f : FinalizationResult)
  : rlpFinalizationResult :=
  {| rfParentHash := fParentHash f;
     rfRandomness := fRandomness f;
     rfTimestamp := rlpTimestamp_EncodeRLP (fTimestamp f);
     rfHeight := fHeight f |}.

Definition FinalizationResult_DecodeRLP (dec : rlpFinalizationResult)
  : FinalizationResult :=
  {| fParentHash := rfParentHash dec;
     fRandomness := rfRandomness dec;
     fTimestamp := rlpTimestamp_DecodeRLP (rfTimestamp dec);
     fHeight := rfHeight dec |}.

Definition Block_EncodeRLP (b : Block) : rlpBlock :=
  {| rProposerID := ProposerID b;
     rParentHash := ParentHash b;
     rHash := Hash_ b;
     rPosition := Position_ b;
     rTimestamp := rlpTimestamp_EncodeRLP (Timestamp b);
     rAcks := Acks b;
     rPayload := Payload b;
     rPayloadHash := PayloadHash b;
     rWitness := Witness_ b;
     rFinalization := FinalizationResult_EncodeRLP (Finalization b);
     rSignature := Signature b;
     rCRSSignature := CRSSignature b |}.

Definition Block_DecodeRLP (dec : rlpBlock) : Block :=
  {| ProposerID := rProposerID dec;
     ParentHash := rParentHash dec;
     Hash_ := rHash dec;
     Position_ := rPosition dec;
     Timestamp := rlpTimestamp_DecodeRLP (rTimestamp dec);
     Acks := rAcks dec;
     Payload := rPayload dec;
     PayloadHash := rPayloadHash dec;
     Witness_ := rWitness dec;
     Finalization := FinalizationResult_DecodeRLP (rFinalization dec);
     Signature := rSignature dec;
     CRSSignature := rCRSSignature dec |}.

(** Two times denote the same instant ([Time.Equal]). *)
Definition same_instant (t1 t2 : Time) : Prop :=
  unixSec t1 = unixSec t2 /\ nsec t1 = nsec t2.

(** [IsGenesis], [IsFinalized], [IsEmpty]. *)
Definition zeroHash : Hash := replicate 32 x00.
Definition IsGenesis (b : Block) : bool :=
  (Height (Position_ b) =? 0) && bool_decide (ParentHash b = zeroHash).
Definition IsFinalized (b : Block) : bool := negb (fHeight (Finalization b) =? 0).
Definition IsEmpty (b : Block) : bool := bool_decide (ProposerID b = zeroHash).


(** *** Comparators *)

(** Modelled from the spec: [Position.Newer] belongs to package types but its
    file is not among the sources.  A position is [{round, chain_id, height}];
    a position is newer than another position of the same chain when its
    round is greater, or the rounds are equal and its height is greater.
    Positions of different chains are not compared: the comparison is taken
    to panic ([None]), and the properties below are about blocks of one
    chain. *)
Definition Position_Newer (pos other : Position) : option bool :=
  if decide (ChainID pos = ChainID other) then
    Some ((Round pos >? Round other)
          || ((Round pos =? Round other) && (Height pos >? Height other)))
  else None.

(** [BlocksByPosition.Less]; an index out of range panics. *)
Definition BlocksByPosition_Less (bs : list Block) (i j : nat) : option bool :=
  match bs !! i, bs !! j with
  | Some bi, Some bj => Position_Newer (Position_ bj) (Position_ bi)
  | _, _ => None
  end.

(** [sort.Sort(BlocksByPosition(bs))], by the insertion sort of package sort:
    each element in turn moves left while it is [Less] than its left
    neighbour.  The sorted prefix is kept with its last element first. *)
Definition less (x y : Block) : option bool :=
  Position_Newer (Position_ y) (Position_ x).

Fixpoint insertLeft (x : Block) (prefix : list Block) : option (list Block) :=
  match prefix with
  | [] => Some [x]
  | y :: rest =>
      match less x y with
      | None => None
      | Some true =>
          match insertLeft x rest with
          | Some rest' => Some (y :: rest')
          | None => None
          end
      | Some false => Some (x :: y :: rest)
      end
  end.

Fixpoint insertionSort (prefix : list Block) (bs : list Block)
  : option (list Block) :=
  match bs with
  | [] => Some (reverse prefix)
  | x :: rest =>
      match insertLeft x prefix with
      | Some prefix' => insertionSort prefix' rest
      | None => None
      end
  end.

Definition sort_BlocksByPosition (bs : list Block) : option (list Block) :=
  insertionSort [] bs.

(** *** Acks *)

(** [bytes.Compare]: the lexicographic comparison of two byte slices, with
    results -1, 0 and 1. *)
Fixpoint bytes_Compare (a b : bytes) : Z :=
  match a, b with
  | [], [] => 0
  | [], _ :: _ => -1
  | _ :: _, [] => 1
  | x :: a', y :: b' =>
      if (Byte.to_N x <? Byte.to_N y)%N then -1
      else if (Byte.to_N y <? Byte.to_N x)%N then 1
      else bytes_Compare a' b'
  end.

(** The loop of [sort.Search]: bisection of [[i, j)], which halves at every
    turn; [fuel] bounds the number of turns and [j - i] turns are enough. *)
Fixpoint sort_Search_loop (fuel : nat) (f : nat -> bool) (i j : nat) : nat :=
  match fuel with
  | O => i
  | S fuel =>
      if (i <? j)%nat then
        let h := ((i + j) / 2)%nat in
        if negb (f h) then sort_Search_loop fuel f (h + 1)%nat j
        else sort_Search_loop fuel f i h
      else i
  end.

(** [sort.Search(n, f)]. *)
Definition sort_Search (n : nat) (f : nat -> bool) : nat :=
  sort_Search_loop n f 0%nat n.

(** [IsAcking]: binary search of the hash in the acks.  The closure is only
    called below [len(b.Acks)]. *)
Definition IsAcking (b : Block) (hash : Hash) : bool :=
  let idx := sort_Search (length (Acks b)) (fun i =>
    match Acks b !! i with
    | Some ack => bytes_Compare ack hash >=? 0
    | None => true
    end) in
  negb ((idx =? length (Acks b))%nat
        || negb (bool_decide (Acks b !! idx = Some hash))).

(** The acks are in ascending order of [bytes.Compare]. *)
Definition acks_sorted (acks : list Hash) : Prop :=
  StronglySorted (fun a b => bytes_Compare a b <= 0) acks.

(** On the way, the sorted prefix is kept last element first: no element is
    newer than one that stands before it there. *)
Definition before (x y : Block) : Prop :=
  Position_Newer (Position_ y) (Position_ x) = Some false.

Definition on_chain (c : Z) (b : Block) : Prop := ChainID (Position_ b) = c.

(** A block of chain 0, for running the definitions on concrete inputs. *)
Definition demoBlock (round height : Z) (payload : bytes) : Block :=
  {| ProposerID := replicate 32 x01;
     ParentHash := zeroHash;
     Hash_ := replicate 32 x02;
     Position_ := mkPosition round 0 height;
     Timestamp := mkTime 1546300800 500 LocalLoc;
     Acks := [];
     Payload := payload;
     PayloadHash := zeroHash;
     Witness_ := mkWitness 0 [x2a];
     Finalization := mkFinalizationResult zeroHash [] (mkTime 1546300801 0 UTCLoc) 1;
     Signature := [];
     CRSSignature := [] |}.

End Types.

(** ** Blocks and DKG material in the store (package db, LevelDBBackedDB) *)

Module Store.

Import Types.

Inductive error : Type :=
| ErrBlockExists
| ErrBlockDoesNotExist
| ErrDKGPrivateKeyExists
| ErrDKGPrivateKeyDoesNotExist
| ErrDKGMasterPrivateSharesDoesNotExist
| ErrNotImplemented
| ErrRLP.

(** The value a getter returns, or its error. *)
Inductive result (A : Type) : Type :=
| Ok (a : A)
| Err (e : error).
Arguments Ok {A} a.
Arguments Err {A} e.

Definition blockKeyPrefix : bytes := list_byte_of_string "b-".
Definition dkgPrivateKeyKeyPrefix : bytes := list_byte_of_string "dkg-prvs".
Definition dkgMasterPrivateSharesPrefix : bytes :=
  list_byte_of_string "dkg-master-private-shares".

(** The conversion [byte(x)] of an unsigned integer: its low eight bits. *)
Definition byte_of_Z (z : Z) : byte :=
  default x00 (Byte.of_N (Z.to_N (z mod 256))).

(** [binary.LittleEndian.PutUint64] into a slice of 8 bytes. *)
Definition PutUint64 (v : Z) : bytes :=
  [ byte_of_Z v; byte_of_Z (Z.shiftr v 8); byte_of_Z (Z.shiftr v 16);
    byte_of_Z (Z.shiftr v 24); byte_of_Z (Z.shiftr v 32);
    byte_of_Z (Z.shiftr v 40); byte_of_Z (Z.shiftr v 48);
    byte_of_Z (Z.shiftr v 56) ].

(** [binary.LittleEndian.Uint64], the reading that goes with it. *)
Definition Uint64 (b : bytes) : Z :=
  foldr (fun x acc => Z.of_N (Byte.to_N x) + 256 * acc) 0 (take 8 b).

(** [getBlockKey], [getDKGPrivateKeyKey], [getDKGMasterPrivateSharesKey]:
    the prefix of the kind followed by the hash, or by the round in little
    endian. *)
Definition getBlockKey (hash : Hash) : bytes := blockKeyPrefix ++ hash.

Definition getDKGPrivateKeyKey (round : Z) : bytes :=
  dkgPrivateKeyKeyPrefix ++ PutUint64 round.

Definition getDKGMasterPrivateSharesKey (round : Z) : bytes :=
  dkgMasterPrivateSharesPrefix ++ PutUint64 round.

Section Store.

(** The RLP codecs of blocks, DKG private keys and DKG private key shares;
    [dkg.PrivateKey] and [dkg.PrivateKeyShares] are types of another
    package. *)
Variable encodeBlock : Block -> option bytes.
Variable decodeBlock : bytes -> option Block.
Variables PrivateKey PrivateKeyShares : Type.
Variable encodePrivateKey : PrivateKey -> option bytes.
Variable decodePrivateKey : bytes -> option PrivateKey.
Variable encodeShares : PrivateKeyShares -> option bytes.
Variable decodeShares : bytes -> option PrivateKeyShares.

(** [internalHasBlock], [HasBlock]. *)
Definition internalHasBlock (db : DB.leveldb) (key : bytes) : bool :=
  bool_decide (is_Some (db !! key)).

Definition HasBlock (db : DB.leveldb) (hash : Hash) : bool :=
  internalHasBlock db (getBlockKey hash).

(** [GetBlock]. *)
Definition GetBlock (db : DB.leveldb) (hash : Hash) : result Block :=
  match db !! getBlockKey hash with
  | None => Err ErrBlockDoesNotExist
  | Some queried =>
      match decodeBlock queried with
      | Some block => Ok block
      | None => Err ErrRLP
      end
  end.

(** [UpdateBlock]: the store after the call and the error. *)
Definition UpdateBlock (db : DB.leveldb) (block : Block)
  : DB.leveldb * option error :=
  match encodeBlock block with
  | None => (db, Some ErrRLP)
  | Some marshaled =>
      let blockKey := getBlockKey (Hash_ block) in
      if negb (internalHasBlock db blockKey)
      then (db, Some ErrBlockDoesNotExist)
      else (<[blockKey := marshaled]> db, None)
  end.

(** [PutBlock]. *)
Definition PutBlock (db : DB.leveldb) (block : Block)
  : DB.leveldb * option error :=
  match encodeBlock block with
  | None => (db, Some ErrRLP)
  | Some marshaled =>
      let blockKey := getBlockKey (Hash_ block) in
      if internalHasBlock db blockKey
      then (db, Some ErrBlockExists)
      else (<[blockKey := marshaled]> db, None)
  end.

(** [HasDKGPrivateKey], [HasDKGMasterPrivateSharesKey]. *)
Definition HasDKGPrivateKey (db : DB.leveldb) (round : Z) : bool :=
  bool_decide (is_Some (db !! getDKGPrivateKeyKey round)).

Definition HasDKGMasterPrivateSharesKey (db : DB.leveldb) (round : Z) : bool :=
  bool_decide (is_Some (db !! getDKGMasterPrivateSharesKey round)).

(** [GetDKGPrivateKey]. *)
Definition GetDKGPrivateKey (db : DB.leveldb) (round : Z) : result PrivateKey :=
  match db !! getDKGPrivateKeyKey round with
  | None => Err ErrDKGPrivateKeyDoesNotExist
  | Some queried =>
      match decodePrivateKey queried with
      | Some prv => Ok prv
      | None => Err ErrRLP
      end
  end.

(** [PutDKGPrivateKey]: the existence check comes before the encoding. *)
Definition PutDKGPrivateKey (db : DB.leveldb) (round : Z) (prv : PrivateKey)
  : DB.leveldb * option error :=
  if HasDKGPrivateKey db round then (db, Some ErrDKGPrivateKeyExists)
  else
    match encodePrivateKey prv with
    | None => (db, Some ErrRLP)
    | Some marshaled => (<[getDKGPrivateKeyKey round := marshaled]> db, None)
    end.

(** [GetDKGMasterPrivateShares]. *)
Definition GetDKGMasterPrivateShares (db : DB.leveldb) (round : Z)
  : result PrivateKeyShares :=
  match db !! getDKGMasterPrivateSharesKey round with
  | None => Err ErrDKGMasterPrivateSharesDoesNotExist
  | Some queried =>
      match decodeShares queried with
      | Some shares => Ok shares
      | None => Err ErrRLP
      end
  end.

(** [PutOrUpdateDKGMasterPrivateShares]. *)
Definition PutOrUpdateDKGMasterPrivateShares (db : DB.leveldb) (round : Z)
    (shares : PrivateKeyShares) : DB.leveldb * option error :=
  match encodeShares shares with
  | None => (db, Some ErrRLP)
  | Some marshaled =>
      (<[getDKGMasterPrivateSharesKey round := marshaled]> db, None)
  end.

End Store.

Arguments GetDKGPrivateKey {PrivateKey} decodePrivateKey db round.
Arguments PutDKGPrivateKey {PrivateKey} encodePrivateKey db round prv.
Arguments GetDKGMasterPrivateShares {PrivateKeyShares} decodeShares db round.
Arguments PutOrUpdateDKGMasterPrivateShares {PrivateKeyShares} encodeShares
  db round shares.

(** [rlp.EncodeToBytes(&block)] and [rlp.DecodeBytes(queried, &block)] on a
    block go through [Block.EncodeRLP] and [Block.DecodeRLP]: what package
    rlp writes and reads is an [rlpBlock].  Package rlp is go-ethereum's;
    [rlpEncode] and [rlpDecode] stand for what it does with an [rlpBlock]. *)
Definition rlpEncodeBlock (rlpEncode : rlpBlock -> option bytes) (block : Block)
  : option bytes :=
  rlpEncode (Block_EncodeRLP block).

Definition rlpDecodeBlock (rlpDecode : bytes -> option rlpBlock) (queried : bytes)
  : option Block :=
  Block_DecodeRLP <$> rlpDecode queried.

(** A stand-in for package rlp, for running the store on concrete inputs:
    the fields of an [rlpBlock] in order, every integer as 8 bytes in little
    endian, every byte string behind its length, the acks behind their
    number.  A DKG key or share is a number below 256, written as one
    byte. *)
Definition putBytes (bs : bytes) : bytes :=
  PutUint64 (Z.of_nat (length bs)) ++ bs.

Definition putList (l : list bytes) : bytes :=
  PutUint64 (Z.of_nat (length l)) ++ concat (putBytes <$> l).

Definition getUint64 (bs : bytes) : option (Z * bytes) :=
  if decide (8 <= length bs)%nat then Some (Uint64 bs, drop 8 bs) else None.

Definition getBytes (bs : bytes) : option (bytes * bytes) :=
  '(n, rest) ← getUint64 bs;
  if decide (Z.to_nat n <= length rest)%nat
  then Some (take (Z.to_nat n) rest, drop (Z.to_nat n) rest)
  else None.

Fixpoint getMany (n : nat) (bs : bytes) : option (list bytes * bytes) :=
  match n with
  | O => Some ([], bs)
  | S n =>
      '(x, rest) ← getBytes bs;
      '(xs, rest) ← getMany n rest;
      Some (x :: xs, rest)
  end.

Definition getList (bs : bytes) : option (list bytes * bytes) :=
  '(n, rest) ← getUint64 bs;
  getMany (Z.to_nat n) rest.

Definition demoRlpEncode (r : rlpBlock) : option bytes :=
  Some (putBytes (rProposerID r) ++ putBytes (rParentHash r)
        ++ putBytes (rHash r)
        ++ PutUint64 (Round (rPosition r)) ++ PutUint64 (ChainID (rPosition r))
        ++ PutUint64 (Height (rPosition r))
        ++ PutUint64 (rTimestamp r)
        ++ putList (rAcks r) ++ putBytes (rPayload r)
        ++ putBytes (rPayloadHash r)
        ++ PutUint64 (wHeight (rWitness r)) ++ putBytes (wData (rWitness r))
        ++ putBytes (rfParentHash (rFinalization r))
        ++ putBytes (rfRandomness (rFinalization r))
        ++ PutUint64 (rfTimestamp (rFinalization r))
        ++ PutUint64 (rfHeight (rFinalization r))
        ++ putBytes (rSignature r) ++ putBytes (rCRSSignature r)).

Definition demoRlpDecode (bs : bytes) : option rlpBlock :=
  '(proposerID, bs) ← getBytes bs;
  '(parentHash, bs) ← getBytes bs;
  '(hash, bs) ← getBytes bs;
  '(round, bs) ← getUint64 bs;
  '(chainID, bs) ← getUint64 bs;
  '(height, bs) ← getUint64 bs;
  '(timestamp, bs) ← getUint64 bs;
  '(acks, bs) ← getList bs;
  '(payload, bs) ← getBytes bs;
  '(payloadHash, bs) ← getBytes bs;
  '(wHeight, bs) ← getUint64 bs;
  '(wData, bs) ← getBytes bs;
  '(fParentHash, bs) ← getBytes bs;
  '(fRandomness, bs) ← getBytes bs;
  '(fTimestamp, bs) ← getUint64 bs;
  '(fHeight, bs) ← getUint64 bs;
  '(signature, bs) ← getBytes bs;
  '(crsSignature, bs) ← getBytes bs;
  match bs with
  | [] =>
      Some (mkRlpBlock proposerID parentHash hash
              (mkPosition round chainID height) timestamp acks payload
              payloadHash (mkWitness wHeight wData)
              (mkRlpFinalizationResult fParentHash fRandomness fTimestamp
                 fHeight)
              signature crsSignature)
  | _ :: _ => None
  end.

(** The block codec of the store over the stand-in. *)
Definition demoEncodeBlock : Block -> option bytes :=
  rlpEncodeBlock demoRlpEncode.

Definition demoDecodeBlock : bytes -> option Block :=
  rlpDecodeBlock demoRlpDecode.

Definition demoEncodeZ (k : Z) : option bytes :=
  if decide (0 <= k < 256) then Some [byte_of_Z k] else None.

Definition demoDecodeZ (bs : bytes) : option Z :=
  match bs with
  | [b] => Some (Z.of_N (Byte.to_N b))
  | _ => None
  end.

End Store.

(** ** DexconApp (dex/app.go) *)

Module App.

Import Types.

(** A call returns, or panics. *)
Inductive outcome (A : Type) : Type :=
| Ret (a : A)
| Panic.
Arguments Ret {A} a.
Arguments Panic {A}.

(** [common.Address] (20 bytes), identified with [address.Big()], the integer
    its bytes spell in big-endian order. *)
Definition Address : Type := Z.

(** What the application reads of a signed transaction.  [txFrom] is the
    sender recovered from the signature ([tx.AsMessage], the signature
    cache); [None] when the recovery fails. *)
Record Transaction : Type := mkTx {
  txFrom : option Address;
  txNonce : Z;        (* uint64 *)
  txGas : Z;          (* uint64 *)
  txGasPrice : Z;     (* big.Int *)
  txValue : Z;        (* big.Int *)
  txData : bytes;
  txTo : option Address;
}.

#[global] Instance Transaction_eq_dec : EqDecision Transaction.
Proof. solve_decision. Defined.

(** [tx.Cost()]: gas * gasPrice + value. *)
Definition Cost (tx : Transaction) : Z := txGasPrice tx * txGas tx + txValue tx.

(** The state database at some root. *)
Record StateDB : Type := mkStateDB {
  GetBalance : Address -> Z;
  GetNonce : Address -> Z;
}.

(** A block of the canonical chain ([types.Block] of package core/types). *)
Record EthBlock : Type := mkEthBlock {
  NumberU64 : Z;
  EthHash : Hash;
  Root : Hash;
  GasLimit : Z;
}.

(** The collaborators a [DexconApp] holds: governance, the block chain, the
    chain database, the transaction pool, the per-chain roots and the
    codecs. *)
Record DexconApp : Type := mkApp {
  (* d.gov.Configuration(round).NumChains, also d.gov.GetNumChains(round) *)
  NumChains : Z -> Z;
  (* d.gov.DexconConfiguration(round).BlockGasLimit *)
  BlockGasLimit : Z -> Z;
  (* rawdb.ReadLastRoundNumber(d.chainDB); None is an error *)
  ReadLastRoundNumber : option Z;
  (* d.blockchain.GetChainLastConfirmedHeight(chainID); None is !ok *)
  GetChainLastConfirmedHeight : Z -> option Z;
  (* d.chainRoot *)
  chainRoot : gmap Z Hash;
  (* d.blockchain.StateAt(root); None is an error *)
  StateAt : Hash -> option StateDB;
  (* d.txPool.Pending(), in the order the map is ranged over; None is an error *)
  Pending : option (list (Address * list Transaction));
  CurrentBlock : EthBlock;
  GetBlockByNumber : Z -> option EthBlock;
  GetCostInConfirmedBlocks : Z -> Address -> option Z;
  GetLastNonceInConfirmedBlocks : Z -> Address -> option Z;
  (* core.IntrinsicGas(data, contractCreation, true); None is an error *)
  IntrinsicGas : bytes -> bool -> option Z;
  (* rlp.EncodeToBytes(&allTxs), rlp.DecodeBytes(payload, &transactions) *)
  encodeTransactions : list Transaction -> option bytes;
  decodeTransactions : bytes -> option (list Transaction);
  (* rlp.DecodeBytes(witness.Data, &hash) *)
  decodeHash : bytes -> option Hash;
}.

Inductive error : Type :=
| ErrPreviousBlockNotExists
| ErrStateAt
| ErrPending
| ErrIntrinsicGas
| ErrEncode.

Inductive BlockVerifyStatus : Type :=
| VerifyOK
| VerifyRetryLater
| VerifyInvalidBlock.

(** [iota] numbering of the statuses. *)
Definition BlockVerifyStatus_value (s : BlockVerifyStatus) : Z :=
  match s with
  | VerifyOK => 0
  | VerifyRetryLater => 1
  | VerifyInvalidBlock => 2
  end.

(** [addrBelongsToChain]; [big.Int.Mod] panics on a zero modulus and is the
    Euclidean modulus otherwise. *)
Definition addrBelongsToChain (address : Address) (chainSize chainID : Z)
  : outcome bool :=
  if chainSize =? 0 then Panic
  else Ret (address mod Z.abs chainSize =? chainID).

(** [validateNonce]: the loop over the transactions, threading the two
    maps. *)
Fixpoint validateNonce_loop (txs : list Transaction)
    (addressFirstNonce addressNonce : gmap Address Z)
  : option (gmap Address Z) :=
  match txs with
  | [] => Some addressFirstNonce
  | tx :: rest =>
      match txFrom tx with
      | None => None
      | Some from =>
          match addressFirstNonce !! from with
          | Some _ =>
              if decide (wrap64 (default 0 (addressNonce !! from) + 1) = txNonce tx)
              then validateNonce_loop rest addressFirstNonce
                     (<[from := txNonce tx]> addressNonce)
              else None
          | None =>
              validateNonce_loop rest
                (<[from := txNonce tx]> addressFirstNonce)
                (<[from := txNonce tx]> addressNonce)
          end
      end
  end.

Definition validateNonce (txs : list Transaction) : option (gmap Address Z) :=
  validateNonce_loop txs ∅ ∅.

(** *** preparePayload *)

(** How the loop over one sender's transactions ends. *)
Inductive txLoopEnd : Type :=
| LoopError (err : error)                            (* return nil, err *)
| LoopNext (blockGasUsed : Z) (allTxs : list Transaction)   (* next address *)
| LoopBreakAddressMap (allTxs : list Transaction).   (* break addressMap *)

(** The loop [for i := startIndex; ...] of [preparePayload], over the
    transactions from [startIndex] on. *)
Fixpoint preparePayload_txLoop (d : DexconApp) (txs : list Transaction)
    (balance blockGasUsed blockGasLimit : Z) (allTxs : list Transaction)
  : txLoopEnd :=
  match txs with
  | [] => LoopNext blockGasUsed allTxs
  | tx :: rest =>
      match IntrinsicGas d (txData tx) (bool_decide (txTo tx = None)) with
      | None => LoopError ErrIntrinsicGas
      | Some intrGas =>
          if txGas tx <? intrGas then LoopNext blockGasUsed allTxs
          else
            let balance := balance - Cost tx in
            if balance <? 0 then LoopNext blockGasUsed allTxs
            else
              let blockGasUsed := blockGasUsed + to_int64 (txGas tx) in
              if blockGasUsed >? blockGasLimit then LoopBreakAddressMap allTxs
              else preparePayload_txLoop d rest balance blockGasUsed
                     blockGasLimit (allTxs ++ [tx])
      end
  end.

(** The loop [addressMap] over the pending transactions.  [live] counts the
    polls of [ctx.Done()] that still find the context live: the poll at the
    head of an iteration breaks the loop when none is left. *)
Fixpoint preparePayload_addressMap (d : DexconApp) (position : Position)
    (currentState : StateDB) (live : nat)
    (txsMap : list (Address * list Transaction))
    (blockGasUsed : Z) (allTxs : list Transaction)
  : outcome (option bytes * option error) :=
  let finish allTxs :=
    match encodeTransactions d allTxs with
    | Some payload => Ret (Some payload, None)
    | None => Ret (None, Some ErrEncode)
    end in
  match txsMap with
  | [] => finish allTxs
  | (address, txs) :: pending =>
      match live with
      | O => finish allTxs
      | S live =>
          let chainID := ChainID position in
          let chainNums := NumChains d (Round position) in
          let blockGasLimit := GasLimit (CurrentBlock d) in
          match addrBelongsToChain address chainNums chainID with
          | Panic => Panic
          | Ret false =>
              preparePayload_addressMap d position currentState live pending
                blockGasUsed allTxs
          | Ret true =>
              let balance :=
                match GetCostInConfirmedBlocks d (ChainID position) address with
                | Some cost => GetBalance currentState address - cost
                | None => GetBalance currentState address
                end in
              let expectNonce :=
                match GetLastNonceInConfirmedBlocks d (ChainID position) address with
                | None => GetNonce currentState address
                | Some lastConfirmedNonce => wrap64 (lastConfirmedNonce + 1)
                end in
              match txs with
              | [] =>
                  preparePayload_addressMap d position currentState live pending
                    blockGasUsed allTxs
              | tx0 :: _ =>
                  let firstNonce := txNonce tx0 in
                  let startIndex := to_int64 (wrap64 (expectNonce - firstNonce)) in
                  if startIndex <? 0 then
                    preparePayload_addressMap d position currentState live pending
                      blockGasUsed allTxs
                  else
                    match preparePayload_txLoop d (drop (Z.to_nat startIndex) txs)
                            balance blockGasUsed blockGasLimit allTxs with
                    | LoopError err => Ret (None, Some err)
                    | LoopBreakAddressMap allTxs => finish allTxs
                    | LoopNext blockGasUsed allTxs =>
                        preparePayload_addressMap d position currentState live
                          pending blockGasUsed allTxs
                    end
              end
          end
      end
  end.

(** [preparePayload].  The result is the pair [(payload, err)]; a [nil]
    payload is [None].  [live] counts the polls of the soft deadline that
    find it not yet expired. *)
Definition preparePayload (d : DexconApp) (live : nat) (position : Position)
  : outcome (option bytes * option error) :=
  match live with
  | O => Ret (None, None)
  | S live =>
  let gate : outcome bool :=
    if Round position >? 0 then
      let previousNumChains := NumChains d (Round position - 1) in
      let currentNumChains := NumChains d (Round position) in
      if negb (previousNumChains =? currentNumChains) then
        match ReadLastRoundNumber d with
        | None => Panic
        | Some deliveredRound => Ret (deliveredRound <? Round position)
        end
      else Ret false
    else Ret false in
  match gate with
  | Panic => Panic
  | Ret true => Ret (None, None)
  | Ret false =>
  if negb (Height position =? 0)
     && match GetChainLastConfirmedHeight d (ChainID position) with
        | None => true
        | Some chainLastHeight => negb (chainLastHeight =? Height position - 1)
        end
  then Ret (None, Some ErrPreviousBlockNotExists)
  else
  match chainRoot d !! ChainID position with
  | None => Ret (None, None)
  | Some root =>
  match StateAt d root with
  | None => Ret (None, Some ErrStateAt)
  | Some currentState =>
  match Pending d with
  | None => Ret (None, Some ErrPending)
  | Some txsMap =>
      preparePayload_addressMap d position currentState live txsMap 0 []
  end end end end
  end.

(** *** PreparePayload *)

(** How far the worker goroutine has come when the caller polls a channel:
    still inside [preparePayload]; returned from it, with the error (if any)
    sent on [errCh]; payload sent on [payloadCh]; [doneCh] signalled. *)
Inductive stage : Type :=
| Running
| ErrorSent
| PayloadSent
| DoneSent.


(** One interleaving of [PreparePayload] with its worker: the worker's stage
    when the caller polls [errCh] and later [payloadCh], and the number of
    polls of the soft deadline that the worker passes. *)
Record schedule : Type := mkSchedule {
  atErrPoll : stage;
  atPayloadPoll : stage;
  softLive : nat;
}.


(** [PreparePayload].  The first [select] waits for the hard deadline or for
    [doneCh]; the two polls that follow are not blocking.  A panic of the
    worker takes the process down once the worker has come to it. *)
Definition PreparePayload (d : DexconApp) (s : schedule) (position : Position)
  : outcome (option bytes * option error) :=
  match atErrPoll s, preparePayload d (softLive s) position with
  | Running, _ =>
      (* errCh is empty *)
      match atPayloadPoll s, preparePayload d (softLive s) position with
      | (PayloadSent | DoneSent), Ret (payload, _) => Ret (payload, None)
      | (PayloadSent | DoneSent), Panic => Panic
      | ErrorSent, Panic => Panic
      | _, _ => Ret (None, None)
      end
  | _, Panic => Panic
  | _, Ret (_, Some err) => Ret (None, Some err)
  | _, Ret (payload, None) =>
      match atPayloadPoll s with
      | PayloadSent | DoneSent => Ret (payload, None)
      | _ => Ret (None, None)
      end
  end.

(** *** VerifyBlock *)

(** The loop [for address, firstNonce := range addressNonce]: the sender must
    belong to the chain and its first nonce must be the expected one. *)
Fixpoint VerifyBlock_checkSenders (d : DexconApp) (position : Position)
    (currentState : StateDB) (chainNums chainID : Z)
    (addressNonce : list (Address * Z)) : outcome bool :=
  match addressNonce with
  | [] => Ret true
  | (address, firstNonce) :: rest =>
      match addrBelongsToChain address chainNums chainID with
      | Panic => Panic
      | Ret false => Ret false
      | Ret true =>
          let expectNonce :=
            match GetLastNonceInConfirmedBlocks d (ChainID position) address with
            | Some lastConfirmedNonce => wrap64 (lastConfirmedNonce + 1)
            | None => GetNonce currentState address
            end in
          if negb (expectNonce =? firstNonce) then Ret false
          else VerifyBlock_checkSenders d position currentState chainNums
                 chainID rest
      end
  end.

(** [addressesBalance]: the balance of every sender in the last state, less
    what the confirmed blocks already spend. *)
Definition VerifyBlock_balances (d : DexconApp) (position : Position)
    (currentState : StateDB) (addressNonce : gmap Address Z)
  : gmap Address Z :=
  map_imap (fun address _ =>
    match GetCostInConfirmedBlocks d (ChainID position) address with
    | Some cost => Some (GetBalance currentState address - cost)
    | None => Some (GetBalance currentState address)
    end) addressNonce.

(** The loop [for _, tx := range transactions] that checks the intrinsic gas,
    the balance and the block gas limit.  Reading the balance of a sender
    that is not in the map dereferences a nil pointer. *)
Fixpoint VerifyBlock_txLoop (d : DexconApp) (transactions : list Transaction)
    (addressesBalance : gmap Address Z) (blockGasUsed blockGasLimit : Z)
  : outcome BlockVerifyStatus :=
  match transactions with
  | [] => Ret VerifyOK
  | tx :: rest =>
      match txFrom tx with
      | None => Ret VerifyInvalidBlock
      | Some from =>
          match IntrinsicGas d (txData tx) (bool_decide (txTo tx = None)) with
          | None => Ret VerifyInvalidBlock
          | Some intrGas =>
              if txGas tx <? intrGas then Ret VerifyInvalidBlock
              else
                match addressesBalance !! from with
                | None => Panic
                | Some balance =>
                    let balance := balance - Cost tx in
                    if balance <? 0 then Ret VerifyInvalidBlock
                    else
                      let blockGasUsed := blockGasUsed + txGas tx in
                      if blockGasUsed >? blockGasLimit then Ret VerifyInvalidBlock
                      else VerifyBlock_txLoop d rest
                             (<[from := balance]> addressesBalance)
                             blockGasUsed blockGasLimit
                end
          end
      end
  end.

(** [VerifyBlock]. *)
Definition VerifyBlock (d : DexconApp) (block : Block)
  : outcome BlockVerifyStatus :=
  let position := Position_ block in
  match decodeHash d (wData (Witness_ block)) with
  | None => Ret VerifyInvalidBlock
  | Some witnessBlockHash =>
  if NumberU64 (CurrentBlock d) <? wHeight (Witness_ block)
  then Ret VerifyRetryLater else
  match GetBlockByNumber d (wHeight (Witness_ block)) with
  | None => Ret VerifyInvalidBlock
  | Some b =>
  if negb (bool_decide (EthHash b = witnessBlockHash))
  then Ret VerifyInvalidBlock else
  match StateAt d (Root b) with
  | None => Ret VerifyInvalidBlock
  | Some _ =>
  if negb (Height position =? 0)
     && match GetChainLastConfirmedHeight d (ChainID position) with
        | None => true
        | Some chainLastHeight => negb (chainLastHeight =? Height position - 1)
        end
  then Ret VerifyRetryLater else
  let gate : outcome bool :=
    if Round position >? 0 then
      let previousNumChains := NumChains d (Round position - 1) in
      let currentNumChains := NumChains d (Round position) in
      if negb (previousNumChains =? currentNumChains) then
        match ReadLastRoundNumber d with
        | None => Panic
        | Some deliveredRound => Ret (deliveredRound <? Round position)
        end
      else Ret false
    else Ret false in
  match gate with
  | Panic => Panic
  | Ret true =>
      if (0 <? Z.of_nat (length (Payload block)))
      then Ret VerifyInvalidBlock else Ret VerifyOK
  | Ret false =>
  match chainRoot d !! ChainID position with
  | None => Ret VerifyRetryLater
  | Some root =>
  match StateAt d root with
  | None => Ret VerifyInvalidBlock
  | Some currentState =>
  if (length (Payload block) =? 0)%nat then Ret VerifyOK else
  match decodeTransactions d (Payload block) with
  | None => Ret VerifyInvalidBlock
  | Some transactions =>
  (* types.GlobalSigCache.Add: the sender of every transaction is recovered *)
  if negb (forallb (fun tx => bool_decide (is_Some (txFrom tx))) transactions)
  then Ret VerifyInvalidBlock else
  match validateNonce transactions with
  | None => Ret VerifyInvalidBlock
  | Some addressNonce =>
  let chainID := ChainID position in
  let chainNums := NumChains d (Round position) in
  match VerifyBlock_checkSenders d position currentState chainNums chainID
          (map_to_list addressNonce) with
  | Panic => Panic
  | Ret false => Ret VerifyInvalidBlock
  | Ret true =>
  let addressesBalance :=
    VerifyBlock_balances d position currentState addressNonce in
  let blockGasLimit := GasLimit (CurrentBlock d) in
  VerifyBlock_txLoop d transactions addressesBalance 0 blockGasLimit
  end end end end end end end end
  end.

(** The checks of [VerifyBlock] that come before the round-reshape gate: the
    witness decodes to the hash of the block at the witness height, which is
    not above the current height and whose state exists, and the block
    extends the chain's last confirmed height. *)
Definition passesWitnessAndHeightChecks (d : DexconApp) (block : Block) : Prop :=
  exists b st,
    decodeHash d (wData (Witness_ block)) = Some (EthHash b)
    /\ wHeight (Witness_ block) <= NumberU64 (CurrentBlock d)
    /\ GetBlockByNumber d (wHeight (Witness_ block)) = Some b
    /\ StateAt d (Root b) = Some st
    /\ (Height (Position_ block) = 0
        \/ GetChainLastConfirmedHeight d (ChainID (Position_ block))
           = Some (Height (Position_ block) - 1)).

(** The round-reshape gate is active at [position]. *)
Definition reshaping (d : DexconApp) (position : Position) : Prop :=
  0 < Round position
  /\ NumChains d (Round position) <> NumChains d (Round position - 1)
  /\ exists deliveredRound,
       ReadLastRoundNumber d = Some deliveredRound
       /\ deliveredRound < Round position.

(** The expected next nonce of a sender on a chain. *)
Definition expectedNonce (d : DexconApp) (currentState : StateDB)
    (chain : Z) (address : Address) : Z :=
  match GetLastNonceInConfirmedBlocks d chain address with
  | Some lastConfirmedNonce => wrap64 (lastConfirmedNonce + 1)
  | None => GetNonce currentState address
  end.

(** The transactions of one sender, in payload order. *)
Definition txsOf (s : Address) (txs : list Transaction) : list Transaction :=
  filter (fun tx => txFrom tx = Some s) txs.

(** The application with another gas limit in its current block. *)
Definition withGasLimit (d : DexconApp) (limit : Z) : DexconApp :=
  mkApp (NumChains d) (BlockGasLimit d) (ReadLastRoundNumber d)
    (GetChainLastConfirmedHeight d) (chainRoot d) (StateAt d) (Pending d)
    (mkEthBlock (NumberU64 (CurrentBlock d)) (EthHash (CurrentBlock d))
       (Root (CurrentBlock d)) limit)
    (GetBlockByNumber d) (GetCostInConfirmedBlocks d)
    (GetLastNonceInConfirmedBlocks d) (IntrinsicGas d)
    (encodeTransactions d) (decodeTransactions d) (decodeHash d).

(** Each nonce of the list is the [uint64] successor of the one before it;
    [prev], when given, stands before the first. *)
Fixpoint chained (prev : option Z) (txs : list Transaction) : Prop :=
  match txs with
  | [] => True
  | tx :: rest =>
      match prev with
      | Some p => txNonce tx = wrap64 (p + 1)
      | None => True
      end /\ chained (Some (txNonce tx)) rest
  end.

(** The nonce that the loop of [validateNonce] holds for a sender it has
    already met. *)
Definition lastSeen (first last : gmap Address Z) (a : Address) : option Z :=
  match first !! a with
  | Some _ => Some (default 0 (last !! a))
  | None => None
  end.

Definition totalGas (txs : list Transaction) : Z :=
  foldr (fun tx acc => txGas tx + acc) 0 txs.

(** *** PrepareWitness *)

Inductive witnessError : Type :=
| ErrCurrentHeightTooLow   (* "current height < consensus height" *)
| ErrEncodeHash.           (* the error of rlp.EncodeToBytes *)

(** The zero value of [coreTypes.Witness], which the named result holds when
    the call returns an error. *)
Definition zeroWitness : Witness := mkWitness 0 [].

(** [PrepareWitness]; [encodeHash] is [rlp.EncodeToBytes] on a hash. *)
Definition PrepareWitness (d : DexconApp) (encodeHash : Hash -> option bytes)
    (consensusHeight : Z) : Witness * option witnessError :=
  if NumberU64 (CurrentBlock d) >=? consensusHeight then
    let witnessBlock := CurrentBlock d in
    match encodeHash (EthHash witnessBlock) with
    | None => (zeroWitness, Some ErrEncodeHash)
    | Some witnessData =>
        (mkWitness (NumberU64 witnessBlock) witnessData, None)
    end
  else (zeroWitness, Some ErrCurrentHeightTooLow).

(** What a list of transactions costs its senders, and the gas it uses as
    [preparePayload] counts it (through [int64]). *)
Definition totalCost (txs : list Transaction) : Z :=
  foldr (fun tx acc => Cost tx + acc) 0 txs.

Definition totalGasInt64 (txs : list Transaction) : Z :=
  foldr (fun tx acc => to_int64 (txGas tx) + acc) 0 txs.

(** The transaction carries at least its intrinsic gas. *)
Definition gasOK (d : DexconApp) (tx : Transaction) : Prop :=
  exists intrGas,
    IntrinsicGas d (txData tx) (bool_decide (txTo tx = None)) = Some intrGas
    /\ intrGas <= txGas tx.

(** A run of transactions that [preparePayload] may take from the pending
    list of one address: the address belongs to the chain of the position,
    the run is an initial part of the pending list from the index
    [expectNonce - firstNonce] on, every transaction of it carries at least
    its intrinsic gas, and the balance of the address, less what its
    confirmed blocks spend, covers the run. *)
Definition selectedRun (d : DexconApp) (position : Position)
    (currentState : StateDB) (txsMap : list (Address * list Transaction))
    (seg : Address * list Transaction) : Prop :=
  exists txs tx0,
    (seg.1, txs) ∈ txsMap
    /\ head txs = Some tx0
    /\ addrBelongsToChain seg.1 (NumChains d (Round position)) (ChainID position)
       = Ret true
    /\ 0 <= to_int64 (wrap64 (expectedNonce d currentState (ChainID position) seg.1
                               - txNonce tx0))
    /\ seg.2 `prefix_of`
         drop (Z.to_nat (to_int64 (wrap64
                 (expectedNonce d currentState (ChainID position) seg.1
                  - txNonce tx0)))) txs
    /\ Forall (gasOK d) seg.2
    /\ (seg.2 <> [] ->
        totalCost seg.2
        <= GetBalance currentState seg.1
           - default 0 (GetCostInConfirmedBlocks d (ChainID position) seg.1)).

(** What the transaction pool hands out as pending: a map, so every address
    once; under an address, transactions of that address with consecutive
    nonces, each with a [uint64] nonce, its gas below 2^63 and a cost that
    is not negative. *)
Definition pending_wf (txsMap : list (Address * list Transaction)) : Prop :=
  NoDup txsMap.*1
  /\ forall address txs, (address, txs) ∈ txsMap ->
       chained None txs
       /\ Forall (fun tx => txFrom tx = Some address
                            /\ is_uint64 (txNonce tx)
                            /\ 0 <= txGas tx < 2 ^ 63
                            /\ 0 <= Cost tx) txs.

(** *** A small application, for running the definitions

    One chain root, every account with balance 10^7 and nonce [nonce0], no
    confirmed blocks, intrinsic gas 21000, and a payload codec that knows
    the one byte payload [[x01]] for the list [txs]. *)
Definition demoState (nonce0 : Z) : StateDB :=
  mkStateDB (fun _ => 10000000) (fun _ => nonce0).

Definition demoHead (gasLimit : Z) : EthBlock :=
  mkEthBlock 0 [x2a] [x2b] gasLimit.

Definition demoApp (numChains : Z -> Z) (govGasLimit headGasLimit nonce0 : Z)
    (txs : list Transaction) : DexconApp :=
  {| NumChains := numChains;
     BlockGasLimit := fun _ => govGasLimit;
     ReadLastRoundNumber := Some 0;
     GetChainLastConfirmedHeight := fun _ => None;
     chainRoot := {[0 := [x2b]]};
     StateAt := fun _ => Some (demoState nonce0);
     Pending := Some [(0, txs)];
     CurrentBlock := demoHead headGasLimit;
     GetBlockByNumber := fun n =>
       if n =? 0 then Some (demoHead headGasLimit) else None;
     GetCostInConfirmedBlocks := fun _ _ => None;
     GetLastNonceInConfirmedBlocks := fun _ _ => None;
     IntrinsicGas := fun _ _ => Some 21000;
     encodeTransactions := fun l =>
       if decide (l = txs) then Some [x01] else Some [xc0];
     decodeTransactions := fun payload =>
       if decide (payload = [x01]) then Some txs else None;
     decodeHash := fun data => Some data |}.

Definition demoTx (nonce gas : Z) : Transaction :=
  mkTx (Some 0) nonce gas 10 1 [] (Some 1).

End App.

(** ** The peer set and its topology (dex/peer.go) *)

Module PeerSet.

Inductive setType : Type :=
| dkgset
| notaryset.

Record peerLabel : Type := mkLabel {
  set : setType;
  chainID : Z;   (* uint32 *)
  round : Z;     (* uint64 *)
}.

#[global] Instance setType_eq_dec : EqDecision setType.
Proof. solve_decision. Defined.

#[global] Instance peerLabel_eq_dec : EqDecision peerLabel.
Proof. solve_decision. Defined.

#[global] Program Instance setType_countable : Countable setType :=
  inj_countable' (fun s => match s with dkgset => false | notaryset => true end)
                 (fun b => if b then notaryset else dkgset) _.
Next Obligation. by intros []. Qed.

#[global] Program Instance peerLabel_countable : Countable peerLabel :=
  inj_countable' (fun l => (set l, chainID l, round l))
                 (fun t => match t with (s, c, r) => mkLabel s c r end) _.
Next Obligation. by intros []. Qed.

Definition groupNodeNum : Z := 3.

(** The governance as the peer set reads it: [DKGSet] and [NotarySet] give the
    hex encoded public keys of a set, or fail ([None]). *)
Record governance : Type := mkGov {
  DKGSet : Z -> option (gset string);
  NotarySet : Z -> Z -> option (gset string);
  GetNumChains : Z -> Z;
}.

(** The p2p server behind the [p2pServer] interface: the nodes added as
    direct peers and not removed since, and the groups by name. *)
Record p2pServer : Type := mkServer {
  directPeers : gset string;
  groups : gmap string (list string * Z);
}.

Definition AddDirectPeer (srvr : p2pServer) (node : string) : p2pServer :=
  mkServer ({[node]} ∪ directPeers srvr) (groups srvr).

Definition RemoveDirectPeer (srvr : p2pServer) (node : string) : p2pServer :=
  mkServer (directPeers srvr ∖ {[node]}) (groups srvr).

Definition AddGroup (srvr : p2pServer) (name : string) (nodes : list string)
    (num : Z) : p2pServer :=
  mkServer (directPeers srvr) (<[name := (nodes, num)]> (groups srvr)).

Definition RemoveGroup (srvr : p2pServer) (name : string) : p2pServer :=
  mkServer (directPeers srvr) (delete name (groups srvr)).

(** The fields of [peerSet] the topology operations work on.  A node is
    identified with [node.ID().String()]. *)
Record peerSet : Type := mkPeerSet {
  srvr : p2pServer;
  peer2Labels : gmap string (gset peerLabel);
  label2Peers : gmap peerLabel (gset string);
  history : gset Z;
  notaryHistory : gset Z;
  dkgHistory : gset Z;
}.

Definition newPeerSet : peerSet :=
  mkPeerSet (mkServer ∅ ∅) ∅ ∅ ∅ ∅ ∅.

Definition set_srvr (ps : peerSet) (s : p2pServer) : peerSet :=
  mkPeerSet s (peer2Labels ps) (label2Peers ps) (history ps)
    (notaryHistory ps) (dkgHistory ps).

Definition set_labels (ps : peerSet) (p2l : gmap string (gset peerLabel))
    (l2p : gmap peerLabel (gset string)) : peerSet :=
  mkPeerSet (srvr ps) p2l l2p (history ps) (notaryHistory ps) (dkgHistory ps).

Definition set_history (ps : peerSet) (h : gset Z) : peerSet :=
  mkPeerSet (srvr ps) (peer2Labels ps) (label2Peers ps) h
    (notaryHistory ps) (dkgHistory ps).

Definition set_notaryHistory (ps : peerSet) (h : gset Z) : peerSet :=
  mkPeerSet (srvr ps) (peer2Labels ps) (label2Peers ps) (history ps) h
    (dkgHistory ps).

Definition set_dkgHistory (ps : peerSet) (h : gset Z) : peerSet :=
  mkPeerSet (srvr ps) (peer2Labels ps) (label2Peers ps) (history ps)
    (notaryHistory ps) h.

Section Topology.

(** What does not change while the operations run: the node's own public
    key, the governance, and the node id of a public key ([newNode] followed
    by [node.ID().String()]). *)
Variable selfPK : string.
Variable gov : governance.
Variable nodeID : string -> string.

(** [addLabel]. *)
Definition addLabel (ps : peerSet) (id : string) (label : peerLabel) : peerSet :=
  set_labels ps
    (<[id := {[label]} ∪ default ∅ (peer2Labels ps !! id)]> (peer2Labels ps))
    (<[label := {[id]} ∪ default ∅ (label2Peers ps !! label)]> (label2Peers ps)).

(** [removeLabel]; [delete] on the nil map of an absent key does nothing. *)
Definition removeLabel (ps : peerSet) (id : string) (label : peerLabel) : peerSet :=
  let p2l :=
    match peer2Labels ps !! id with
    | Some labels => <[id := labels ∖ {[label]}]> (peer2Labels ps)
    | None => peer2Labels ps
    end in
  let l2p :=
    match label2Peers ps !! label with
    | Some peers => <[label := peers ∖ {[id]}]> (label2Peers ps)
    | None => label2Peers ps
    end in
  let p2l :=
    if decide (size (default ∅ (p2l !! id)) = 0%nat) then delete id p2l else p2l in
  let l2p :=
    if decide (size (default ∅ (l2p !! label)) = 0%nat) then delete label l2p
    else l2p in
  set_labels ps p2l l2p.

(** [addDirectPeer]. *)
Definition addDirectPeer (ps : peerSet) (pk : string) (label : peerLabel) : peerSet :=
  let node := nodeID pk in
  let ps := addLabel ps node label in
  set_srvr ps (AddDirectPeer (srvr ps) node).

(** [removeDirectPeer]. *)
Definition removeDirectPeer (ps : peerSet) (pk : string) (label : peerLabel)
  : peerSet :=
  let node := nodeID pk in
  let ps := removeLabel ps node label in
  if decide (size (default ∅ (peer2Labels ps !! node)) = 0%nat)
  then set_srvr ps (RemoveDirectPeer (srvr ps) node)
  else ps.

(** [for pk := range pks { f(pk) }] over a set of public keys. *)
Definition rangePKs (f : peerSet -> string -> peerSet) (pks : gset string)
    (ps : peerSet) : peerSet :=
  foldl f ps (elements pks).

(** [for cid := uint32(0); cid < ps.gov.GetNumChains(round); cid++]. *)
Definition rangeChains (f : peerSet -> Z -> peerSet) (r : Z) (ps : peerSet)
  : peerSet :=
  foldl f ps (seqZ 0 (GetNumChains gov r)).

Definition notarySetName (chainID round : Z) : string :=
  pretty chainID +:+ "-" +:+ pretty round +:+ "-notaryset".

Definition dkgSetName (round : Z) : string :=
  pretty round +:+ "-dkgset".

(** [BuildConnection].  A failing [DKGSet] is logged and leaves the nil
    (empty) map. *)
Definition BuildConnection (ps : peerSet) (round : Z) : peerSet :=
  let ps := set_history ps ({[round]} ∪ history ps) in
  let dkgPKs := default ∅ (DKGSet gov round) in
  let inDKGSet := bool_decide (selfPK ∈ dkgPKs) in
  let dkgPKs := if inDKGSet then dkgPKs ∖ {[selfPK]} else dkgPKs in
  let ps :=
    if inDKGSet then
      let dkgLabel := mkLabel dkgset 0 round in
      rangePKs (fun ps pk => addDirectPeer ps pk dkgLabel) dkgPKs ps
    else ps in
  let '(ps, inOneNotarySet) :=
    foldl (fun '(ps, inOneNotarySet) cid =>
      match NotarySet gov round cid with
      | None => (ps, inOneNotarySet)
      | Some notaryPKs =>
          let label := mkLabel notaryset cid round in
          if bool_decide (selfPK ∈ notaryPKs) then
            let notaryPKs := notaryPKs ∖ {[selfPK]} in
            (rangePKs (fun ps pk => addDirectPeer ps pk label) notaryPKs ps, true)
          else
            let nodes := nodeID <$> elements notaryPKs in
            let ps := rangePKs (fun ps pk => addLabel ps (nodeID pk) label)
                        notaryPKs ps in
            (set_srvr ps (AddGroup (srvr ps) (notarySetName cid round) nodes
                            groupNodeNum),
             inOneNotarySet)
      end) (ps, false) (seqZ 0 (GetNumChains gov round)) in
  if negb inDKGSet && inOneNotarySet then
    let nodes := nodeID <$> elements dkgPKs in
    let label := mkLabel dkgset 0 round in
    let ps := rangePKs (fun ps pk => addLabel ps (nodeID pk) label) dkgPKs ps in
    set_srvr ps (AddGroup (srvr ps) (dkgSetName round) nodes groupNodeNum)
  else ps.

(** [forgetConnection]. *)
Definition forgetConnection (ps : peerSet) (round : Z) : peerSet :=
  let dkgPKs := default ∅ (DKGSet gov round) in
  let inDKGSet := bool_decide (selfPK ∈ dkgPKs) in
  let dkgPKs := if inDKGSet then dkgPKs ∖ {[selfPK]} else dkgPKs in
  let ps :=
    if inDKGSet then
      let label := mkLabel dkgset 0 round in
      rangePKs (fun ps id => removeDirectPeer ps id label) dkgPKs ps
    else ps in
  let '(ps, inOneNotarySet) :=
    foldl (fun '(ps, inOneNotarySet) cid =>
      match NotarySet gov round cid with
      | None => (ps, inOneNotarySet)
      | Some notaryPKs =>
          let label := mkLabel notaryset cid round in
          if bool_decide (selfPK ∈ notaryPKs) then
            let notaryPKs := notaryPKs ∖ {[selfPK]} in
            (rangePKs (fun ps pk => removeDirectPeer ps pk label) notaryPKs ps,
             true)
          else
            let ps := rangePKs (fun ps id => removeLabel ps (nodeID id) label)
                        notaryPKs ps in
            (set_srvr ps (RemoveGroup (srvr ps) (notarySetName cid round)),
             inOneNotarySet)
      end) (ps, false) (seqZ 0 (GetNumChains gov round)) in
  if negb inDKGSet && inOneNotarySet then
    let label := mkLabel dkgset 0 round in
    let ps := rangePKs (fun ps id => removeLabel ps (nodeID id) label) dkgPKs ps in
    set_srvr ps (RemoveGroup (srvr ps) (dkgSetName round))
  else ps.

(** [ForgetConnection]: the loop over the recorded rounds hands [round], the
    argument, to [forgetConnection]. *)
Definition ForgetConnection (ps : peerSet) (round : Z) : peerSet :=
  foldl (fun ps r =>
    if r <=? round then
      let ps := forgetConnection ps round in
      set_history ps (history ps ∖ {[r]})
    else ps) ps (elements (history ps)).

(** [BuildNotaryConn]. *)
Definition BuildNotaryConn (ps : peerSet) (round : Z) : peerSet :=
  if bool_decide (round ∈ notaryHistory ps) then ps
  else
    let ps := set_notaryHistory ps ({[round]} ∪ notaryHistory ps) in
    rangeChains (fun ps chainID =>
      match NotarySet gov round chainID with
      | None => ps
      | Some s =>
          if bool_decide (selfPK ∈ s) then
            let label := mkLabel notaryset chainID round in
            let s := s ∖ {[selfPK]} in
            rangePKs (fun ps pk => addDirectPeer ps pk label) s ps
          else
            let nodes := nodeID <$> elements s in
            set_srvr ps (AddGroup (srvr ps) (notarySetName chainID round) nodes
                           groupNodeNum)
      end) round ps.

(** [forgetNotaryConn]. *)
Definition forgetNotaryConn (ps : peerSet) (round : Z) : peerSet :=
  rangeChains (fun ps chainID =>
    match NotarySet gov round chainID with
    | None => ps
    | Some s =>
        if bool_decide (selfPK ∈ s) then
          let label := mkLabel notaryset chainID round in
          let s := s ∖ {[selfPK]} in
          rangePKs (fun ps pk => removeDirectPeer ps pk label) s ps
        else set_srvr ps (RemoveGroup (srvr ps) (notarySetName chainID round))
    end) round ps.

(** [ForgetNotaryConn]. *)
Definition ForgetNotaryConn (ps : peerSet) (round : Z) : peerSet :=
  foldl (fun ps r =>
    if r <=? round then
      let ps := forgetNotaryConn ps r in
      set_notaryHistory ps (notaryHistory ps ∖ {[r]})
    else ps) ps (elements (notaryHistory ps)).

(** [BuildDKGConn]. *)
Definition BuildDKGConn (ps : peerSet) (round : Z) : peerSet :=
  match DKGSet gov round with
  | None => ps
  | Some s =>
      if bool_decide (selfPK ∈ s) then
        let ps := set_dkgHistory ps ({[round]} ∪ dkgHistory ps) in
        let s := s ∖ {[selfPK]} in
        rangePKs (fun ps pk => addDirectPeer ps pk (mkLabel dkgset 0 round)) s ps
      else ps
  end.

(** [forgetDKGConn]. *)
Definition forgetDKGConn (ps : peerSet) (round : Z) : peerSet :=
  match DKGSet gov round with
  | None => ps
  | Some s =>
      if bool_decide (selfPK ∈ s) then
        let s := s ∖ {[selfPK]} in
        let label := mkLabel dkgset 0 round in
        rangePKs (fun ps pk => removeDirectPeer ps pk label) s ps
      else ps
  end.

(** [ForgetDKGConn]. *)
Definition ForgetDKGConn (ps : peerSet) (round : Z) : peerSet :=
  foldl (fun ps r =>
    if r <=? round then
      let ps := forgetDKGConn ps r in
      set_dkgHistory ps (dkgHistory ps ∖ {[r]})
    else ps) ps (elements (dkgHistory ps)).

End Topology.

(** Removing an element from the set under a key and dropping the key when
    the set has become empty, as [removeLabel] does on both maps. *)
Definition removeFrom `{Countable K, Countable A}
    (m : gmap K (gset A)) (k : K) (x : A) : gmap K (gset A) :=
  let m1 := match m !! k with
            | Some s => <[k := s ∖ {[x]}]> m
            | None => m
            end in
  if decide (size (default ∅ (m1 !! k)) = 0%nat) then delete k m1 else m1.

(** The labels of a peer and the peers of a label; an absent key reads as
    the empty set. *)
Definition labels_of (ps : peerSet) (id : string) : gset peerLabel :=
  default ∅ (peer2Labels ps !! id).

Definition peers_of (ps : peerSet) (label : peerLabel) : gset string :=
  default ∅ (label2Peers ps !! label).

(** [peer2Labels] and [label2Peers] are inverse to each other and keep no
    key bound to an empty set. *)
Definition labels_consistent (ps : peerSet) : Prop :=
  (forall id label, label ∈ labels_of ps id <-> id ∈ peers_of ps label)
  /\ (forall id labels, peer2Labels ps !! id = Some labels -> labels <> ∅)
  /\ (forall label peers, label2Peers ps !! label = Some peers -> peers <> ∅).

(** The direct peers are the peers that carry a label. *)
Definition direct_iff_labelled (ps : peerSet) : Prop :=
  forall id, id ∈ directPeers (srvr ps) <-> labels_of ps id <> ∅.

(** One kind of labels and its history ([dkgset] with [dkgHistory],
    [notaryset] with [notaryHistory]) are left alone between two peer sets:
    the second has the history of the first and no label of the kind that
    the first has not. *)
Definition frame (kind : setType) (hist : peerSet -> gset Z)
    (ps ps' : peerSet) : Prop :=
  hist ps' = hist ps
  /\ forall id label, label ∈ labels_of ps' id -> set label = kind ->
       label ∈ labels_of ps id.

(** Every label of the kind in use has its round in the history. *)
Definition labels_recorded (kind : setType) (hist : peerSet -> gset Z)
    (ps : peerSet) : Prop :=
  forall id label, label ∈ labels_of ps id -> set label = kind ->
    round label ∈ hist ps.

(** Every DKG label in use is a label of chain 0 on a member, other than the
    node, of the DKG set of the label's round, and that set holds the
    node. *)
Definition dkgLabels_wf (selfPK : string) (gov : governance)
    (nodeID : string -> string) (ps : peerSet) : Prop :=
  forall id label, label ∈ labels_of ps id -> set label = dkgset ->
    chainID label = 0
    /\ exists s pk, DKGSet gov (round label) = Some s /\ selfPK ∈ s
         /\ pk ∈ s /\ pk <> selfPK /\ id = nodeID pk.

(** Every notary label in use is a label of a chain of its round on a
    member, other than the node, of the notary set of that round and chain,
    and that set holds the node. *)
Definition notaryLabels_wf (selfPK : string) (gov : governance)
    (nodeID : string -> string) (ps : peerSet) : Prop :=
  forall id label, label ∈ labels_of ps id -> set label = notaryset ->
    0 <= chainID label < GetNumChains gov (round label)
    /\ exists s pk, NotarySet gov (round label) (chainID label) = Some s
         /\ selfPK ∈ s /\ pk ∈ s /\ pk <> selfPK /\ id = nodeID pk.

(** Both kinds of labels are as the notary and DKG operations make them. *)
Definition labels_wf (selfPK : string) (gov : governance)
    (nodeID : string -> string) (ps : peerSet) : Prop :=
  (dkgLabels_wf selfPK gov nodeID ps /\ labels_recorded dkgset dkgHistory ps)
  /\ (notaryLabels_wf selfPK gov nodeID ps
      /\ labels_recorded notaryset notaryHistory ps).

(** The node is not among its own direct peers. *)
Definition self_not_direct (selfPK : string) (nodeID : string -> string)
    (ps : peerSet) : Prop :=
  nodeID selfPK ∉ directPeers (srvr ps).

(** The operations on the topology, and the two label primitives. *)
Inductive op : Type :=
| OpBuildConnection (round : Z)
| OpForgetConnection (round : Z)
| OpBuildNotaryConn (round : Z)
| OpForgetNotaryConn (round : Z)
| OpBuildDKGConn (round : Z)
| OpForgetDKGConn (round : Z)
| OpAddLabel (id : string) (label : peerLabel)
| OpRemoveLabel (id : string) (label : peerLabel).

(** The notary and DKG operations: they label a peer only together with
    adding it as a direct peer. *)
Definition is_connOp (o : op) : bool :=
  match o with
  | OpBuildNotaryConn _ | OpForgetNotaryConn _
  | OpBuildDKGConn _ | OpForgetDKGConn _ => true
  | _ => false
  end.

(** Whether the node itself is in the set a label names: its DKG set for a
    [dkgset] label, the notary set of its round and chain for a [notaryset]
    label.  These are the labels given together with [addDirectPeer]; the
    labels of the other sets are the ones of the group fallback of
    [BuildConnection]. *)
Definition memberLabel (selfPK : string) (gov : governance) (label : peerLabel)
  : bool :=
  match set label with
  | dkgset => bool_decide (selfPK ∈ default ∅ (DKGSet gov (round label)))
  | notaryset =>
      bool_decide (selfPK ∈ default ∅ (NotarySet gov (round label) (chainID label)))
  end.

(** The node is in every set of the round: in its DKG set and in the notary
    set of each of its chains.  [forgetConnection] of such a round takes no
    group branch. *)
Definition memberOfRound (selfPK : string) (gov : governance) (r : Z) : bool :=
  bool_decide (selfPK ∈ default ∅ (DKGSet gov r))
  && forallb (fun cid =>
                match NotarySet gov r cid with
                | Some s => bool_decide (selfPK ∈ s)
                | None => true
                end) (seqZ 0 (GetNumChains gov r)).

(** The six operations on the topology, without the label primitives. *)
Definition is_topologyOp (o : op) : bool :=
  match o with
  | OpAddLabel _ _ | OpRemoveLabel _ _ => false
  | _ => true
  end.

(** An operation other than a [ForgetConnection] of a round with a set the
    node is not in. *)
Definition forgets_as_member (selfPK : string) (gov : governance) (o : op) : bool :=
  match o with
  | OpForgetConnection r => memberOfRound selfPK gov r
  | _ => true
  end.

(** A peer that carries a label of a set the node is in is a direct peer. *)
Definition member_labelled_direct (selfPK : string) (gov : governance)
    (ps : peerSet) : Prop :=
  forall id label, label ∈ labels_of ps id -> memberLabel selfPK gov label = true ->
    id ∈ directPeers (srvr ps).

(** Every direct peer carries a label. *)
Definition direct_labelled (ps : peerSet) : Prop :=
  forall id, id ∈ directPeers (srvr ps) -> labels_of ps id <> ∅.

Section Run.

Variable selfPK : string.
Variable gov : governance.
Variable nodeID : string -> string.

Definition step (ps : peerSet) (o : op) : peerSet :=
  match o with
  | OpBuildConnection r => BuildConnection selfPK gov nodeID ps r
  | OpForgetConnection r => ForgetConnection selfPK gov nodeID ps r
  | OpBuildNotaryConn r => BuildNotaryConn selfPK gov nodeID ps r
  | OpForgetNotaryConn r => ForgetNotaryConn selfPK gov nodeID ps r
  | OpBuildDKGConn r => BuildDKGConn selfPK gov nodeID ps r
  | OpForgetDKGConn r => ForgetDKGConn selfPK gov nodeID ps r
  | OpAddLabel id label => addLabel ps id label
  | OpRemoveLabel id label => removeLabel ps id label
  end.

(** The peer set after a sequence of operations on a new peer set. *)
Definition run (ops : list op) : peerSet := foldl step newPeerSet ops.

End Run.

(** *** Governances for running the operations

    [demoGov]: no chains; the DKG set of round 1 is the node and [a], the
    one of every other round the node and [b]. *)
Definition demoGov : governance :=
  {| DKGSet := fun r =>
       if r =? 1 then Some ({["self"; "a"]} : gset string)
       else Some ({["self"; "b"]} : gset string);
     NotarySet := fun _ _ => None;
     GetNumChains := fun _ => 0 |}.

(** [demoGov2]: two chains; the node is in the DKG set and in the notary set
    of chain 0, both with [a], and not in the notary set of chain 1, which
    is [a] and [b]. *)
Definition demoGov2 : governance :=
  {| DKGSet := fun _ => Some ({["self"; "a"]} : gset string);
     NotarySet := fun _ c =>
       if c =? 0 then Some ({["self"; "a"]} : gset string)
       else Some ({["a"; "b"]} : gset string);
     GetNumChains := fun _ => 2 |}.

End PeerSet.

(** ** Peers: what a peer is known to know, and the registry (dex/peer.go) *)

Module Peers.

Definition maxKnownTxs : Z := 32768.
Definition maxKnownRecords : Z := 32768.
Definition maxKnownBlocks : Z := 1024.

Section Known.

(** [mapset.Set.Pop], which removes an arbitrary item of the set; which one
    is not under the caller's control. *)
Variable Pop : gset bytes -> gset bytes.

(** The loop [for known.Cardinality() >= max { known.Pop() }]: every turn
    takes one item away, so no more turns than the set has items are
    needed. *)
Fixpoint drop_loop (fuel : nat) (max : Z) (known : gset bytes) : gset bytes :=
  match fuel with
  | O => known
  | S fuel =>
      if Z.of_nat (size known) >=? max then drop_loop fuel max (Pop known)
      else known
  end.

Definition mark (max : Z) (known : gset bytes) (hash : bytes) : gset bytes :=
  {[hash]} ∪ drop_loop (size known) max known.

(** [MarkBlock], [MarkTransaction], [MarkNodeRecord], on the set of known
    hashes of the kind. *)
Definition MarkBlock := mark maxKnownBlocks.
Definition MarkTransaction := mark maxKnownTxs.
Definition MarkNodeRecord := mark maxKnownRecords.

End Known.

(** A [Pop] for running the definitions: the first item in the order of
    [elements]. *)
Definition demoPop (known : gset bytes) : gset bytes :=
  match elements known with
  | [] => known
  | x :: _ => known ∖ {[x]}
  end.

(** What the registry reads of a [peer]: its id and the number of its head
    ([p.Head()]). *)
Record peer : Type := mkPeer {
  id : string;
  number : Z;   (* uint64 *)
}.

(** The fields [peers] and [closed] of [peerSet]. *)
Record registry : Type := mkRegistry {
  peers : gmap string peer;
  closed : bool;
}.

Inductive error : Type :=
| errClosed
| errAlreadyRegistered
| errNotRegistered.

(** [Register]; the broadcast loop it starts for the peer is not modelled. *)
Definition Register (ps : registry) (p : peer) : registry * option error :=
  if closed ps then (ps, Some errClosed)
  else
    match peers ps !! id p with
    | Some _ => (ps, Some errAlreadyRegistered)
    | None => (mkRegistry (<[id p := p]> (peers ps)) (closed ps), None)
    end.

(** [Unregister]. *)
Definition Unregister (ps : registry) (id : string) : registry * option error :=
  match peers ps !! id with
  | None => (ps, Some errNotRegistered)
  | Some _ => (mkRegistry (delete id (peers ps)) (closed ps), None)
  end.

(** [Peer], [Len], [Close]. *)
Definition Peer (ps : registry) (id : string) : option peer := peers ps !! id.
Definition Len (ps : registry) : nat := size (peers ps).
Definition Close (ps : registry) : registry := mkRegistry (peers ps) true.

(** [BestPeer]: the loop over the peers, in the order [order] in which the
    map happens to be ranged over. *)
Definition BestPeer_step (st : option peer * Z) (p : peer) : option peer * Z :=
  let '(bestPeer, bestNumber) := st in
  if match bestPeer with None => true | Some _ => false end
     || (number p >? bestNumber)
  then (Some p, number p)
  else (bestPeer, bestNumber).

Definition BestPeer (order : list peer) : option peer :=
  (foldl BestPeer_step (None, 0) order).1.

(** The orders in which the peers of a registry can be ranged over. *)
Definition range_order (ps : registry) (order : list peer) : Prop :=
  order ≡ₚ (map_to_list (peers ps)).*2.

End Peers.

(** * Properties *)

(** ** Machine integers *)

Lemma wrap64_range z : is_uint64 (wrap64 z).
Proof. unfold is_uint64, wrap64. apply Z.mod_pos_bound. lia. Qed.

Lemma wrap64_small z : is_uint64 z -> wrap64 z = z.
Proof. unfold is_uint64, wrap64. intros H. apply Z.mod_small. lia. Qed.

Lemma to_int64_small z : is_int64 z -> to_int64 z = z.
Proof.
  unfold is_int64, to_int64. intros H.
  rewrite Z.mod_small by lia. lia.
Qed.

Lemma to_int64_wrap64 z : to_int64 (wrap64 z) = to_int64 z.
Proof.
  unfold to_int64, wrap64.
  rewrite Zplus_mod_idemp_l. reflexivity.
Qed.


(** ** The store *)

Section StoreFacts.

Import DB.

Variable rlpEncode : compactionChainTipInfo -> bytes.
Variable rlpDecode : bytes -> option compactionChainTipInfo.

Lemma internalGet_missing (db : leveldb) :
  db !! compactionChainTipInfoKey = None ->
  internalGetCompactionChainTipInfo rlpDecode db = (zeroTip, None).
Proof. intros H. unfold internalGetCompactionChainTipInfo. by rewrite H. Qed.

Lemma internalGet_wf (db : leveldb) :
  tip_wf rlpDecode db ->
  exists info,
    internalGetCompactionChainTipInfo rlpDecode db = (info, None)
    /\ is_uint64 (Height info).
Proof.
  intros Hwf. unfold internalGetCompactionChainTipInfo.
  destruct (db !! compactionChainTipInfoKey) as [queried|] eqn:Hq.
  - destruct (Hwf queried Hq) as (info & Hdec & Hrange).
    exists info. by rewrite Hdec.
  - exists zeroTip. split; [done|]. unfold is_uint64. simpl. lia.
Qed.

Lemma tipHeight_uint64 (db : leveldb) :
  tip_wf rlpDecode db -> is_uint64 (tipHeight rlpDecode db).
Proof.
  intros Hwf. destruct (internalGet_wf db Hwf) as (info & Hget & Hrange).
  unfold tipHeight. by rewrite Hget.
Qed.

(** Writing a tip keeps the store well formed when the codec round-trips. *)
Lemma PutCompactionChainTipInfo_wf (db : leveldb) blockHash height :
  (forall i, rlpDecode (rlpEncode i) = Some i) ->
  is_uint64 height ->
  tip_wf rlpDecode db ->
  tip_wf rlpDecode
    (fst (PutCompactionChainTipInfo rlpEncode rlpDecode db blockHash height)).
Proof.
  intros Hrt Hh Hwf. unfold PutCompactionChainTipInfo.
  destruct (internalGet_wf db Hwf) as (info & -> & _).
  case_decide; simpl; [|done].
  intros queried. rewrite lookup_insert_eq. intros [= <-].
  eexists. split; [apply Hrt|done].
Qed.

End StoreFacts.

(** C7 (as amended): [PutCompactionChainTipInfo(hash, height)] succeeds, and
    stores the encoded [{height, hash}] under the tip key, exactly when
    [height] is the stored tip height plus one in [uint64] arithmetic (so
    the successor of 2^64 - 1 is 0), a missing record counting as height 0;
    for every other height it fails with [ErrInvalidCompactionChainTipHeight]
    and leaves the store as it was.  Below the maximal height the [uint64]
    successor is the integer successor. *)
Theorem PutCompactionChainTipInfo_next_height
    (rlpEncode : DB.compactionChainTipInfo -> bytes)
    (rlpDecode : bytes -> option DB.compactionChainTipInfo)
    (db : DB.leveldb) (blockHash : DB.Hash) (height : Z) :
  DB.tip_wf rlpDecode db ->
  (height = wrap64 (DB.tipHeight rlpDecode db + 1) ->
   DB.PutCompactionChainTipInfo rlpEncode rlpDecode db blockHash height
   = (<[DB.compactionChainTipInfoKey := rlpEncode (DB.mkTip height blockHash)]> db,
      None))
  /\ (height <> wrap64 (DB.tipHeight rlpDecode db + 1) ->
      DB.PutCompactionChainTipInfo rlpEncode rlpDecode db blockHash height
      = (db, Some DB.ErrInvalidCompactionChainTipHeight))
  /\ (DB.tipHeight rlpDecode db < MaxUint64 ->
      wrap64 (DB.tipHeight rlpDecode db + 1) = DB.tipHeight rlpDecode db + 1).
Proof.
  intros Hwf.
  pose proof (tipHeight_uint64 rlpDecode db Hwf) as Hrange.
  destruct (internalGet_wf rlpDecode db Hwf) as (info & Hget & _).
  unfold DB.tipHeight in *. unfold DB.PutCompactionChainTipInfo.
  rewrite Hget in *. simpl in *.
  repeat split.
  - intros ->. by rewrite decide_True.
  - intros Hne. by rewrite decide_False.
  - intros Hlt. apply wrap64_small.
    unfold is_uint64, MaxUint64 in *. lia.
Qed.

Lemma PutCompactionChainTipInfo_next_height_witness :
  DB.tip_wf DB.demoDecode ∅
  /\ DB.PutCompactionChainTipInfo DB.demoEncode DB.demoDecode ∅ DB.zeroHash 1
     = (<[DB.compactionChainTipInfoKey
            := DB.demoEncode (DB.mkTip 1 DB.zeroHash)]> ∅, None).
Proof.
  assert (Hwf : DB.tip_wf DB.demoDecode ∅).
  { intros queried Hq. rewrite lookup_empty in Hq. discriminate Hq. }
  split; [exact Hwf|].
  apply (PutCompactionChainTipInfo_next_height
           DB.demoEncode DB.demoDecode ∅ DB.zeroHash 1 Hwf).
  reflexivity.
Defined.

(** C7, as stated, fails where the stored height is the largest [uint64]:
    the height 0 is accepted although it is not the stored height plus
    one. *)
Lemma PutCompactionChainTipInfo_wraps_around :
  let db : DB.leveldb :=
    {[DB.compactionChainTipInfoKey
        := DB.demoEncode (DB.mkTip MaxUint64 DB.zeroHash)]} in
  DB.tip_wf DB.demoDecode db
  /\ DB.tipHeight DB.demoDecode db = MaxUint64
  /\ ~ (snd (DB.PutCompactionChainTipInfo DB.demoEncode DB.demoDecode db
               DB.zeroHash 0) = None
        <-> 0 = DB.tipHeight DB.demoDecode db + 1).
Proof.
  assert (Hdec : DB.demoDecode (DB.demoEncode (DB.mkTip MaxUint64 DB.zeroHash))
                 = Some (DB.mkTip MaxUint64 DB.zeroHash))
    by (vm_compute; reflexivity).
  revert Hdec.
  generalize (DB.demoEncode (DB.mkTip MaxUint64 DB.zeroHash)) as stored.
  intros stored Hdec.
  assert (Hget : DB.internalGetCompactionChainTipInfo DB.demoDecode
                   {[DB.compactionChainTipInfoKey := stored]}
                 = (DB.mkTip MaxUint64 DB.zeroHash, None)).
  { unfold DB.internalGetCompactionChainTipInfo.
    rewrite lookup_singleton_eq, Hdec. reflexivity. }
  cbv zeta. split; [|split].
  - intros queried. rewrite lookup_singleton_eq. intros [= <-].
    exists (DB.mkTip MaxUint64 DB.zeroHash). split; [exact Hdec|].
    unfold is_uint64, MaxUint64. simpl. lia.
  - unfold DB.tipHeight. by rewrite Hget.
  - intros [Hsucc _].
    unfold DB.tipHeight, DB.PutCompactionChainTipInfo in Hsucc.
    rewrite Hget in Hsucc. simpl in Hsucc.
    specialize (Hsucc eq_refl). unfold MaxUint64 in Hsucc. lia.
Qed.

(** ** The timestamp codec *)

Section TimestampFacts.

Import Types.

Lemma unixNanos_UTC t : unixNanos (Time_UTC t) = unixNanos t.
Proof. reflexivity. Qed.

Lemma quot_small_neg (r d : Z) : - d < r <= 0 -> Z.quot r d = 0.
Proof.
  intros Hr. replace r with (- - r) by lia.
  rewrite Z.quot_opp_l by lia. rewrite Z.quot_small by lia. reflexivity.
Qed.

(** Splitting an [int64] count of nanoseconds with Go's [/] and [%] and
    handing the parts to [time.Unix] gives back the seconds and the
    nanoseconds of the instant. *)
Lemma time_Unix_quot_rem (sec ns : Z) :
  0 <= ns < 1000000000 ->
  is_int64 (sec * 1000000000 + ns) ->
  time_Unix (Z.quot (sec * 1000000000 + ns) 1000000000)
            (Z.rem (sec * 1000000000 + ns) 1000000000)
  = mkTime sec ns LocalLoc.
Proof.
  intros Hns Hn. set (n := sec * 1000000000 + ns) in *.
  pose proof (Z.quot_rem' n 1000000000) as Hqr.
  unfold is_int64 in Hn.
  set (q := Z.quot n 1000000000) in *. set (r := Z.rem n 1000000000) in *.
  assert (Hr : (0 <= n /\ 0 <= r < 1000000000)
               \/ (n < 0 /\ - 1000000000 < r <= 0)).
  { destruct (Z_lt_le_dec n 0).
    - right. split; [lia|].
      pose proof (Z.rem_bound_pos_neg n 1000000000 ltac:(lia) ltac:(lia)) as Hb.
      fold r in Hb. lia.
    - left. split; [lia|].
      pose proof (Z.rem_bound_pos n 1000000000 ltac:(lia) ltac:(lia)) as Hb.
      fold r in Hb. lia. }
  unfold time_Unix.
  destruct (Z_lt_le_dec r 0) as [Hneg|Hpos].
  - replace (r <? 0) with true by (symmetry; apply Z.ltb_lt; lia).
    cbn [orb]. rewrite (quot_small_neg r 1000000000) by lia.
    rewrite Z.add_0_r, Z.mul_0_l.
    rewrite (to_int64_small 0) by (unfold is_int64; lia).
    rewrite Z.sub_0_r.
    rewrite (to_int64_small q) by (unfold is_int64; lia).
    rewrite (to_int64_small r) by (unfold is_int64; lia).
    replace (r <? 0) with true by (symmetry; apply Z.ltb_lt; lia).
    rewrite (to_int64_small (q - 1)) by (unfold is_int64; lia).
    rewrite (to_int64_small (r + 1000000000)) by (unfold is_int64; lia).
    f_equal; lia.
  - replace (r <? 0) with false by (symmetry; apply Z.ltb_ge; lia).
    replace (r >=? 1000000000) with false by (symmetry; rewrite Z.geb_leb; apply Z.leb_gt; lia).
    cbn [orb]. f_equal; lia.
Qed.

Lemma rlpTimestamp_roundtrip_int64 (t : Time) :
  Time_valid t ->
  is_int64 (unixNanos t) ->
  rlpTimestamp_DecodeRLP (rlpTimestamp_EncodeRLP t) = Time_UTC t.
Proof.
  intros Hvalid Hrange.
  unfold rlpTimestamp_DecodeRLP, rlpTimestamp_EncodeRLP, Time_UnixNano.
  rewrite to_int64_wrap64, unixNanos_UTC.
  rewrite (to_int64_small (to_int64 (unixNanos t)));
    rewrite (to_int64_small (unixNanos t)) by done; [|done].
  unfold unixNanos in *. rewrite time_Unix_quot_rem by done.
  reflexivity.
Qed.

Lemma rlpTimestamp_EncodeRLP_nonneg (t : Time) :
  0 <= unixNanos t < 2 ^ 63 ->
  rlpTimestamp_EncodeRLP t = unixNanos t.
Proof.
  intros Hrange. unfold rlpTimestamp_EncodeRLP, Time_UnixNano.
  rewrite unixNanos_UTC.
  rewrite to_int64_small by (unfold is_int64; lia).
  apply wrap64_small. unfold is_uint64. lia.
Qed.

End TimestampFacts.

(** C8 (as amended): for every block whose timestamp and finalization
    timestamp lie at most 2^63 - 1 nanoseconds after the epoch (the [uint64]
    values that are also [int64] values), the encoding of each timestamp is
    its [uint64] count of nanoseconds since the epoch, and decoding the
    encoded block restores the seconds and the nanoseconds of both exactly,
    as times in UTC; every other field is restored as it was. *)
Theorem Block_timestamp_roundtrip (b : Types.Block) :
  Types.Time_valid (Types.Timestamp b) ->
  Types.Time_valid (Types.fTimestamp (Types.Finalization b)) ->
  0 <= Types.unixNanos (Types.Timestamp b) < 2 ^ 63 ->
  0 <= Types.unixNanos (Types.fTimestamp (Types.Finalization b)) < 2 ^ 63 ->
  Types.rTimestamp (Types.Block_EncodeRLP b)
  = Types.unixNanos (Types.Timestamp b)
  /\ Types.rfTimestamp (Types.rFinalization (Types.Block_EncodeRLP b))
     = Types.unixNanos (Types.fTimestamp (Types.Finalization b))
  /\ Types.Block_DecodeRLP (Types.Block_EncodeRLP b)
     = Types.mkBlock (Types.ProposerID b) (Types.ParentHash b) (Types.Hash_ b)
         (Types.Position_ b) (Types.Time_UTC (Types.Timestamp b))
         (Types.Acks b) (Types.Payload b) (Types.PayloadHash b)
         (Types.Witness_ b)
         (Types.mkFinalizationResult
            (Types.fParentHash (Types.Finalization b))
            (Types.fRandomness (Types.Finalization b))
            (Types.Time_UTC (Types.fTimestamp (Types.Finalization b)))
            (Types.fHeight (Types.Finalization b)))
         (Types.Signature b) (Types.CRSSignature b).
Proof.
  intros Hv Hvf Hr Hrf.
  split; [|split].
  - apply rlpTimestamp_EncodeRLP_nonneg, Hr.
  - apply rlpTimestamp_EncodeRLP_nonneg, Hrf.
  - unfold Types.Block_DecodeRLP, Types.Block_EncodeRLP,
      Types.FinalizationResult_DecodeRLP, Types.FinalizationResult_EncodeRLP.
    cbn [Types.rProposerID Types.rParentHash Types.rHash Types.rPosition
         Types.rTimestamp Types.rAcks Types.rPayload Types.rPayloadHash
         Types.rWitness Types.rFinalization Types.rSignature
         Types.rCRSSignature Types.rfParentHash Types.rfRandomness
         Types.rfTimestamp Types.rfHeight].
    rewrite !rlpTimestamp_roundtrip_int64
      by (done || unfold is_int64; lia).
    reflexivity.
Qed.

Lemma Block_timestamp_roundtrip_witness :
  Types.Timestamp
    (Types.Block_DecodeRLP (Types.Block_EncodeRLP (Types.demoBlock 0 1 [])))
  = Types.mkTime 1546300800 500 Types.UTCLoc.
Proof.
  pose proof (Block_timestamp_roundtrip (Types.demoBlock 0 1 [])) as H.
  destruct H as (_ & _ & ->).
  - unfold Types.Time_valid. simpl. lia.
  - unfold Types.Time_valid. simpl. lia.
  - unfold Types.unixNanos. simpl. lia.
  - unfold Types.unixNanos. simpl. lia.
  - reflexivity.
Defined.

(** C8, as stated, fails from 2^63 nanoseconds on: the count is a [uint64],
    its encoding is that count, and the decoded time is another instant (in
    the year 1677). *)
Lemma rlpTimestamp_roundtrip_fails_from_2_63 :
  let t := Types.mkTime 9223372036 854775808 Types.UTCLoc in
  Types.Time_valid t
  /\ is_uint64 (Types.unixNanos t)
  /\ Types.rlpTimestamp_EncodeRLP t = Types.unixNanos t
  /\ Types.rlpTimestamp_DecodeRLP (Types.rlpTimestamp_EncodeRLP t)
     = Types.mkTime (-9223372037) 145224192 Types.UTCLoc
  /\ ~ Types.same_instant
         (Types.rlpTimestamp_DecodeRLP (Types.rlpTimestamp_EncodeRLP t)) t.
Proof.
  cbv zeta. split; [|split; [|split; [|split]]].
  - unfold Types.Time_valid. simpl. lia.
  - unfold is_uint64, Types.unixNanos. simpl. lia.
  - vm_compute. reflexivity.
  - vm_compute. reflexivity.
  - intros [Hsec _]. vm_compute in Hsec. discriminate Hsec.
Qed.

(** ** Sorting blocks by position *)

Section SortFacts.

Import Types.

Lemma Position_Newer_true (p q : Position) :
  ChainID p = ChainID q ->
  Position_Newer p q = Some true
  <-> Round q < Round p \/ (Round p = Round q /\ Height q < Height p).
Proof.
  intros Hc. unfold Position_Newer. rewrite decide_True by done.
  split.
  - intros [= H]. apply orb_true_iff in H as [H|H].
    + left. lia.
    + apply andb_true_iff in H as [H1 H2]. right. lia.
  - intros H. f_equal. apply orb_true_iff.
    destruct H as [H|[H1 H2]]; [left; lia|right].
    apply andb_true_iff. split; lia.
Qed.

Lemma Position_Newer_false (p q : Position) :
  ChainID p = ChainID q ->
  Position_Newer p q = Some false
  <-> Round p < Round q \/ (Round p = Round q /\ Height p <= Height q).
Proof.
  intros Hc. unfold Position_Newer. rewrite decide_True by done.
  split.
  - intros [= H]. apply orb_false_iff in H as [H1 H2].
    apply andb_false_iff in H2. destruct H2; lia.
  - intros H. f_equal. apply orb_false_iff. split; [lia|].
    apply andb_false_iff. destruct H as [H|[H1 H2]]; [left|right]; lia.
Qed.

Lemma Position_Newer_total (p q : Position) :
  ChainID p = ChainID q ->
  Position_Newer p q = Some true \/ Position_Newer p q = Some false.
Proof.
  intros Hc. unfold Position_Newer. rewrite decide_True by done.
  destruct (_ || _); auto.
Qed.

Lemma insertLeft_sorted (c : Z) (x : Block) (prefix : list Block) :
  on_chain c x -> Forall (on_chain c) prefix ->
  StronglySorted before prefix ->
  exists prefix',
    insertLeft x prefix = Some prefix'
    /\ prefix' ≡ₚ x :: prefix
    /\ StronglySorted before prefix'.
Proof.
  intros Hx. induction prefix as [|y rest IH]; intros Hc Hs.
  - exists [x]. repeat split; [done|]. repeat constructor.
  - apply Forall_cons in Hc as [Hy Hrest].
    apply StronglySorted_inv in Hs as [Hs Hall].
    unfold on_chain in *. cbn [insertLeft]. unfold less.
    destruct (Position_Newer_total (Position_ y) (Position_ x)) as [Hn|Hn];
      [congruence| |]; rewrite Hn.
    + destruct (IH Hrest Hs) as (rest' & -> & Hperm & Hs').
      exists (y :: rest'). split; [done|]. split.
      * rewrite Hperm. apply perm_swap.
      * constructor; [done|]. rewrite Hperm. constructor; [|done].
        unfold before.
        apply Position_Newer_true in Hn; [|congruence].
        apply Position_Newer_false; [congruence|]. lia.
    + exists (x :: y :: rest). split; [done|]. split; [done|].
      constructor; [by constructor|]. constructor; [done|].
      apply Forall_forall. intros z Hz.
      pose proof (proj1 (Forall_forall _ _) Hall z Hz) as Hyz.
      pose proof (proj1 (Forall_forall _ _) Hrest z Hz) as Hcz.
      unfold before in *. cbv beta in Hcz.
      apply Position_Newer_false in Hn; [|congruence].
      apply Position_Newer_false in Hyz; [|congruence].
      apply Position_Newer_false; [congruence|]. lia.
Qed.

Lemma insertionSort_sorted (c : Z) (bs prefix : list Block) :
  Forall (on_chain c) prefix -> Forall (on_chain c) bs ->
  StronglySorted before prefix ->
  exists prefix',
    insertionSort prefix bs = Some (reverse prefix')
    /\ prefix' ≡ₚ prefix ++ bs
    /\ StronglySorted before prefix'.
Proof.
  revert prefix. induction bs as [|x rest IH]; intros prefix Hp Hbs Hs.
  - exists prefix. rewrite app_nil_r. done.
  - apply Forall_cons in Hbs as [Hx Hrest]. cbn [insertionSort].
    destruct (insertLeft_sorted c x prefix Hx Hp Hs) as (p1 & -> & Hperm & Hs1).
    destruct (IH p1) as (p2 & Heq & Hperm2 & Hs2); [|done|done|].
    + rewrite Hperm. by constructor.
    + exists p2. split; [done|]. split; [|done].
      rewrite Hperm2, Hperm. simpl. apply Permutation_middle.
Qed.

Lemma StronglySorted_lookup_lt {A} (R : A -> A -> Prop) (l : list A) :
  StronglySorted R l ->
  forall i j x y, (i < j)%nat -> l !! i = Some x -> l !! j = Some y -> R x y.
Proof.
  induction 1 as [|a l Hs IH Hall]; intros i j x y Hlt Hi Hj.
  - by rewrite lookup_nil in Hi.
  - destruct j as [|j]; [lia|]. destruct i as [|i]; simpl in *.
    + injection Hi as <-.
      apply (proj1 (Forall_forall _ _) Hall).
      by apply list_elem_of_lookup_2 in Hj.
    + apply (IH i j); [lia|done|done].
Qed.

End SortFacts.

(** C9 (as amended): sorting blocks of one chain with the
    [BlocksByPosition] comparator returns a permutation of the blocks in
    ascending order of position, oldest first: for every pair of indices
    [i < j] of the result, block [i]'s position is not newer than block
    [j]'s. *)
Theorem sort_BlocksByPosition_ascending (c : Z) (bs : list Types.Block) :
  Forall (fun b => Types.ChainID (Types.Position_ b) = c) bs ->
  exists sorted,
    Types.sort_BlocksByPosition bs = Some sorted
    /\ sorted ≡ₚ bs
    /\ forall i j bi bj, (i < j)%nat ->
         sorted !! i = Some bi -> sorted !! j = Some bj ->
         Types.Position_Newer (Types.Position_ bi) (Types.Position_ bj)
         = Some false.
Proof.
  intros Hc.
  destruct (insertionSort_sorted c bs [] (Forall_nil_2 _) Hc
              (SSorted_nil _)) as (prefix & Heq & Hperm & Hs).
  exists (reverse prefix). split; [done|]. split.
  - rewrite reverse_Permutation. done.
  - intros i j bi bj Hlt Hi Hj.
    apply reverse_lookup_Some in Hi as [Hi Hil].
    apply reverse_lookup_Some in Hj as [Hj Hjl].
    apply (StronglySorted_lookup_lt _ _ Hs
             (length prefix - S j) (length prefix - S i) bj bi);
      [lia|done|done].
Qed.

Lemma sort_BlocksByPosition_ascending_witness :
  exists sorted,
    Types.sort_BlocksByPosition
      [Types.demoBlock 1 0 []; Types.demoBlock 0 7 []; Types.demoBlock 0 3 []]
    = Some sorted
    /\ sorted !! 0%nat = Some (Types.demoBlock 0 3 [])
    /\ sorted !! 2%nat = Some (Types.demoBlock 1 0 []).
Proof.
  destruct (sort_BlocksByPosition_ascending 0
              [Types.demoBlock 1 0 []; Types.demoBlock 0 7 [];
               Types.demoBlock 0 3 []]) as (sorted & Heq & _ & _).
  - repeat constructor.
  - exists sorted. split; [exact Heq|].
    vm_compute in Heq. injection Heq as <-. split; reflexivity.
Defined.

(** C9, as stated, fails: two blocks of one chain at heights 2 and 1 are
    sorted with the block at height 1 first, and that block's position is
    not newer than the position of the block that follows it. *)
Lemma sort_BlocksByPosition_not_descending :
  Types.sort_BlocksByPosition [Types.demoBlock 0 2 []; Types.demoBlock 0 1 []]
  = Some [Types.demoBlock 0 1 []; Types.demoBlock 0 2 []]
  /\ Types.Position_Newer (Types.Position_ (Types.demoBlock 0 1 []))
       (Types.Position_ (Types.demoBlock 0 2 []))
     = Some false
  /\ Types.BlocksByPosition_Less
       [Types.demoBlock 0 1 []; Types.demoBlock 0 2 []] 0 1
     = Some true.
Proof. vm_compute. repeat split. Qed.

(** ** DexconApp *)

Section AppFacts.

Import Types App.

(** With the gate active, [preparePayload] returns [(nil, nil)] whatever
    the soft deadline does. *)
Lemma preparePayload_reshaping (d : DexconApp) (live : nat) (position : Position) :
  reshaping d position ->
  preparePayload d live position = Ret (None, None).
Proof.
  intros (Hround & Hne & dr & Hread & Hlt).
  unfold preparePayload. destruct live as [|live]; [done|].
  replace (Round position >? 0) with true by (symmetry; apply Z.gtb_lt; lia).
  replace (NumChains d (Round position - 1) =? NumChains d (Round position))
    with false by (symmetry; apply Z.eqb_neq; congruence).
  cbn [negb]. rewrite Hread.
  replace (dr <? Round position) with true by (symmetry; apply Z.ltb_lt; lia).
  reflexivity.
Qed.

Lemma PreparePayload_of_nil (d : DexconApp) (s : schedule) (position : Position) :
  preparePayload d (softLive s) position = Ret (None, None) ->
  PreparePayload d s position = Ret (None, None).
Proof.
  intros H. unfold PreparePayload. rewrite H.
  destruct (atErrPoll s), (atPayloadPoll s); reflexivity.
Qed.

(** *** validateNonce *)

Lemma txsOf_cons_eq (a : Address) tx rest :
  txFrom tx = Some a -> txsOf a (tx :: rest) = tx :: txsOf a rest.
Proof. intros H. unfold txsOf. by rewrite filter_cons_True. Qed.

Lemma txsOf_cons_ne (a : Address) tx rest :
  txFrom tx <> Some a -> txsOf a (tx :: rest) = txsOf a rest.
Proof. intros H. unfold txsOf. by rewrite filter_cons_False. Qed.

Lemma validateNonce_loop_chained (txs : list Transaction) :
  forall (first last m : gmap Address Z),
  validateNonce_loop txs first last = Some m ->
  forall a : Address,
    chained (lastSeen first last a) (txsOf a txs)
    /\ m !! a = match first !! a with
                | Some f => Some f
                | None => txNonce <$> head (txsOf a txs)
                end.
Proof.
  induction txs as [|tx rest IH]; intros first last m Hloop a.
  - simpl in Hloop. injection Hloop as <-. split; [done|].
    by destruct (first !! a).
  - cbn [validateNonce_loop] in Hloop.
    destruct (txFrom tx) as [from|] eqn:Hfrom; [|done].
    destruct (first !! from) as [f|] eqn:Hfirst.
    + case_decide as Hnext; [|done].
      destruct (IH _ _ _ Hloop a) as [Hch Hm].
      destruct (decide (a = from)) as [->|Hne].
      * rewrite txsOf_cons_eq by done. split; [|by rewrite Hm, Hfirst].
        unfold lastSeen in *. rewrite Hfirst in *.
        rewrite lookup_insert_eq in Hch. simpl in *. done.
      * rewrite txsOf_cons_ne by congruence. split; [|done].
        unfold lastSeen in *. by rewrite lookup_insert_ne in Hch.
    + destruct (IH _ _ _ Hloop a) as [Hch Hm].
      destruct (decide (a = from)) as [->|Hne].
      * rewrite txsOf_cons_eq by done.
        unfold lastSeen in *. rewrite Hfirst.
        rewrite !lookup_insert_eq in Hch. rewrite lookup_insert_eq in Hm.
        simpl in *. done.
      * rewrite txsOf_cons_ne by congruence.
        unfold lastSeen in *.
        rewrite !lookup_insert_ne in Hch by done.
        by rewrite lookup_insert_ne in Hm.
Qed.

Lemma chained_weaken (prev : option Z) (txs : list Transaction) :
  chained prev txs -> chained None txs.
Proof. destruct txs; simpl; tauto. Qed.

Lemma chained_next (txs : list Transaction) :
  forall prev, chained prev txs ->
  forall (i : nat) tx tx',
    txs !! i = Some tx -> txs !! S i = Some tx' ->
    txNonce tx' = wrap64 (txNonce tx + 1).
Proof.
  induction txs as [|tx0 rest IH]; intros prev Hch i tx tx' Hi Hi'.
  - by rewrite lookup_nil in Hi.
  - destruct Hch as [_ Hch]. destruct i as [|i]; simpl in *.
    + injection Hi as <-. destruct rest as [|tx1 rest]; [done|].
      simpl in *. injection Hi' as <-. tauto.
    + eapply IH; eauto.
Qed.

Lemma chained_no_wrap (txs : list Transaction) :
  forall p, chained (Some p) txs -> 0 <= p ->
  forall (i : nat) tx,
    txs !! i = Some tx -> p + 1 + Z.of_nat i <= MaxUint64 ->
    txNonce tx = p + 1 + Z.of_nat i.
Proof.
  induction txs as [|tx0 rest IH]; intros p Hch Hp i tx Hi Hmax.
  - by rewrite lookup_nil in Hi.
  - destruct Hch as [Hn Hch].
    assert (Hn0 : txNonce tx0 = p + 1).
    { rewrite Hn. apply wrap64_small. unfold is_uint64, MaxUint64 in *. lia. }
    destruct i as [|i]; simpl in *.
    + injection Hi as <-. lia.
    + rewrite (IH _ Hch ltac:(lia) i tx Hi) by lia. lia.
Qed.

Lemma VerifyBlock_checkSenders_true (d : DexconApp) position currentState
    chainNums chainID (l : list (Address * Z)) :
  VerifyBlock_checkSenders d position currentState chainNums chainID l
  = Ret true ->
  forall a f, (a, f) ∈ l ->
    expectedNonce d currentState (ChainID position) a = f
    /\ addrBelongsToChain a chainNums chainID = Ret true.
Proof.
  induction l as [|[a0 f0] rest IH]; intros Hcheck a f Hin.
  - by apply elem_of_nil in Hin.
  - cbn [VerifyBlock_checkSenders] in Hcheck.
    destruct (addrBelongsToChain a0 chainNums chainID) as [[|]|] eqn:Hb;
      [|done|done].
    fold (expectedNonce d currentState (ChainID position) a0) in Hcheck.
    destruct (expectedNonce d currentState (ChainID position) a0 =? f0) eqn:He;
      [|done].
    apply Z.eqb_eq in He. cbn [negb] in Hcheck.
    apply elem_of_cons in Hin as [[= -> ->]|Hin]; [done|].
    by apply IH.
Qed.

(** What a [VerifyBlock] that accepts a non-empty payload has gone
    through. *)
Lemma VerifyBlock_OK_inv (d : DexconApp) (block : Block) :
  VerifyBlock d block = Ret VerifyOK ->
  Payload block <> [] ->
  exists root currentState txs addressNonce,
    chainRoot d !! ChainID (Position_ block) = Some root
    /\ StateAt d root = Some currentState
    /\ decodeTransactions d (Payload block) = Some txs
    /\ validateNonce txs = Some addressNonce
    /\ VerifyBlock_checkSenders d (Position_ block) currentState
         (NumChains d (Round (Position_ block))) (ChainID (Position_ block))
         (map_to_list addressNonce) = Ret true
    /\ VerifyBlock_txLoop d txs
         (VerifyBlock_balances d (Position_ block) currentState addressNonce)
         0 (GasLimit (CurrentBlock d)) = Ret VerifyOK.
Proof.
  intros Hok Hpayload. unfold VerifyBlock in Hok.
  destruct (Payload block) as [|b0 payload] eqn:Hp; [done|].
  cbn [length Z.of_nat Nat.eqb] in Hok.
  repeat case_match; simplify_eq; try done.
  all: eauto 10.
Qed.

(** *** The block gas limit *)

Lemma withGasLimit_same (d : DexconApp) :
  withGasLimit d (GasLimit (CurrentBlock d)) = d.
Proof. destruct d as [? ? ? ? ? ? ? [] ? ? ? ? ? ? ?]. reflexivity. Qed.

Lemma VerifyBlock_checkSenders_withGasLimit d limit position currentState
    chainNums chainID (l : list (Address * Z)) :
  VerifyBlock_checkSenders (withGasLimit d limit) position currentState
    chainNums chainID l
  = VerifyBlock_checkSenders d position currentState chainNums chainID l.
Proof.
  induction l as [|[a f] rest IH]; [done|].
  cbn [VerifyBlock_checkSenders]. rewrite IH.
  change (GetLastNonceInConfirmedBlocks (withGasLimit d limit))
    with (GetLastNonceInConfirmedBlocks d).
  reflexivity.
Qed.

Lemma VerifyBlock_txLoop_withGasLimit d limit txs balances used blockGasLimit :
  VerifyBlock_txLoop (withGasLimit d limit) txs balances used blockGasLimit
  = VerifyBlock_txLoop d txs balances used blockGasLimit.
Proof.
  revert balances used. induction txs as [|tx rest IH]; intros; [done|].
  cbn [VerifyBlock_txLoop].
  change (IntrinsicGas (withGasLimit d limit)) with (IntrinsicGas d).
  repeat case_match; done || apply IH.
Qed.

(** Gas is not negative, so the running sum passes [limit] at some
    transaction exactly when the total does. *)
Lemma VerifyBlock_txLoop_gas d txs :
  Forall (fun tx => 0 <= txGas tx) txs ->
  forall balances used limit limit',
  used <= limit ->
  VerifyBlock_txLoop d txs balances used limit' = Ret VerifyOK ->
  VerifyBlock_txLoop d txs balances used limit
  = Ret (if used + totalGas txs >? limit then VerifyInvalidBlock else VerifyOK).
Proof.
  induction 1 as [|tx rest Hgas Hrest IH]; intros balances used limit limit' Hle Hok.
  - simpl. rewrite Z.add_0_r.
    replace (used >? limit) with false by (symmetry; rewrite Z.gtb_ltb; apply Z.ltb_ge; lia).
    reflexivity.
  - cbn [VerifyBlock_txLoop totalGas foldr] in *.
    fold (totalGas rest).
    assert (Htot : 0 <= totalGas rest).
    { clear -Hrest. induction Hrest; simpl; [lia|]. fold (totalGas l). lia. }
    destruct (txFrom tx) as [from|]; [|done].
    destruct (IntrinsicGas d _ _) as [intrGas|]; [|done].
    destruct (txGas tx <? intrGas); [done|].
    destruct (balances !! from) as [balance|]; [|done].
    destruct (balance - Cost tx <? 0); [done|].
    destruct (used + txGas tx >? limit') eqn:Hl'; [done|].
    rewrite Z.add_assoc.
    destruct (used + txGas tx >? limit) eqn:Hl.
    + replace (used + txGas tx + totalGas rest >? limit) with true; [done|].
      symmetry. rewrite Z.gtb_ltb in *. apply Z.ltb_lt. apply Z.ltb_lt in Hl. lia.
    + apply (IH _ _ limit limit'); [|done].
      rewrite Z.gtb_ltb in Hl. apply Z.ltb_ge in Hl. lia.
Qed.

(** A block that is accepted under some gas limit is decided, under any
    other limit, by the loop over its transactions. *)
Lemma VerifyBlock_by_txLoop (d : DexconApp) (block : Block) (limit' : Z) :
  VerifyBlock (withGasLimit d limit') block = Ret VerifyOK ->
  Payload block <> [] ->
  exists txs balances,
    decodeTransactions d (Payload block) = Some txs
    /\ VerifyBlock_txLoop d txs balances 0 limit' = Ret VerifyOK
    /\ VerifyBlock d block
       = VerifyBlock_txLoop d txs balances 0 (GasLimit (CurrentBlock d)).
Proof.
  intros Hok Hpayload. unfold VerifyBlock in *.
  destruct (Payload block) as [|b0 payload] eqn:Hp; [done|].
  cbn [length Z.of_nat Nat.eqb withGasLimit decodeHash CurrentBlock NumberU64
       GetBlockByNumber StateAt GetChainLastConfirmedHeight NumChains
       ReadLastRoundNumber chainRoot decodeTransactions GasLimit] in Hok.
  repeat (first
    [ rewrite VerifyBlock_checkSenders_withGasLimit in Hok
    | rewrite VerifyBlock_txLoop_withGasLimit in Hok
    | case_match ]; simplify_eq; try done).
  all: eauto.
Qed.

End AppFacts.




(** C2: at a position of a round [r > 0] whose number of chains differs
    from the one of round [r - 1], while the last delivered round is below
    [r], [PreparePayload] returns a nil payload (and no error) under every
    interleaving, and [VerifyBlock], for a block at that position that has
    passed the witness and height checks, returns OK when the payload is
    empty and Invalid when it is not. *)
Theorem round_reshape_gate (d : App.DexconApp) (position : Types.Position) :
  App.reshaping d position ->
  (forall s, App.PreparePayload d s position = App.Ret (None, None))
  /\ (forall block,
        Types.Position_ block = position ->
        App.passesWitnessAndHeightChecks d block ->
        App.VerifyBlock d block
        = App.Ret (match Types.Payload block with
                   | [] => App.VerifyOK
                   | _ :: _ => App.VerifyInvalidBlock
                   end)).
Proof.
  intros Hgate. split.
  - intros s. apply PreparePayload_of_nil, preparePayload_reshaping, Hgate.
  - intros block <- (b & st & Hdec & Hheight & Hget & Hstate & Hprev).
    destruct Hgate as (Hround & Hne & dr & Hread & Hlt).
    unfold App.VerifyBlock. rewrite Hdec.
    replace (App.NumberU64 (App.CurrentBlock d) <? Types.wHeight (Types.Witness_ block))
      with false by (symmetry; apply Z.ltb_ge; lia).
    rewrite Hget, bool_decide_eq_true_2 by done. cbn [negb].
    rewrite Hstate.
    match goal with
    | |- (if ?c then _ else _) = _ => replace c with false
    end.
    2:{ symmetry. destruct Hprev as [->| ->]; [done|].
        rewrite Z.eqb_refl. cbn [negb]. apply andb_false_r. }
    replace (Types.Round (Types.Position_ block) >? 0) with true
      by (symmetry; apply Z.gtb_lt; lia).
    match goal with
    | |- context [negb (?a =? ?b)] =>
        replace (a =? b) with false by (symmetry; apply Z.eqb_neq; congruence)
    end.
    cbn [negb]. rewrite Hread.
    replace (dr <? Types.Round (Types.Position_ block)) with true
      by (symmetry; apply Z.ltb_lt; lia).
    destruct (Types.Payload block); reflexivity.
Qed.

Lemma round_reshape_gate_witness :
  App.reshaping (App.demoApp (fun r => if r =? 0 then 4 else 8) 50000 50000 0
                   [App.demoTx 0 21000])
    (Types.mkPosition 1 0 0)
  /\ App.VerifyBlock (App.demoApp (fun r => if r =? 0 then 4 else 8) 50000 50000 0
                        [App.demoTx 0 21000])
       (Types.demoBlock 1 0 [x01])
     = App.Ret App.VerifyInvalidBlock.
Proof.
  assert (Hgate : App.reshaping
            (App.demoApp (fun r => if r =? 0 then 4 else 8) 50000 50000 0
               [App.demoTx 0 21000]) (Types.mkPosition 1 0 0)).
  { unfold App.reshaping. simpl. split; [lia|]. split; [lia|].
    exists 0. split; [reflexivity|lia]. }
  split; [exact Hgate|].
  apply (proj2 (round_reshape_gate _ _ Hgate) (Types.demoBlock 1 0 [x01])).
  - reflexivity.
  - exists (App.demoHead 50000), (App.demoState 0). simpl.
    repeat split; try reflexivity; lia.
Defined.

(** C3 (as amended): when [VerifyBlock] returns OK on a non-empty payload,
    the payload decodes to a list of transactions and, for every sender [s],
    the nonces of [s]'s transactions in payload order start at the expected
    next nonce of [s] (the last nonce of [s] in the confirmed blocks of the
    chain plus one modulo 2^64, or else the nonce of [s] in the state at the
    chain root) and each following nonce is the one before it plus one
    modulo 2^64.  So the nonces are [n, n+1, ..., n+k] as long as they stay
    at or below 2^64 - 1; after 2^64 - 1 the accepted successor is 0. *)
Theorem VerifyBlock_nonces_contiguous (d : App.DexconApp) (block : Types.Block) :
  App.VerifyBlock d block = App.Ret App.VerifyOK ->
  Types.Payload block <> [] ->
  exists root currentState txs,
    App.chainRoot d !! Types.ChainID (Types.Position_ block) = Some root
    /\ App.StateAt d root = Some currentState
    /\ App.decodeTransactions d (Types.Payload block) = Some txs
    /\ forall s : App.Address,
         let n := App.expectedNonce d currentState
                    (Types.ChainID (Types.Position_ block)) s in
         (forall tx0, head (App.txsOf s txs) = Some tx0 -> App.txNonce tx0 = n)
         /\ (forall (i : nat) tx tx',
               App.txsOf s txs !! i = Some tx ->
               App.txsOf s txs !! S i = Some tx' ->
               App.txNonce tx' = wrap64 (App.txNonce tx + 1))
         /\ (0 <= n ->
             forall (i : nat) tx,
               App.txsOf s txs !! i = Some tx ->
               n + Z.of_nat i <= MaxUint64 ->
               App.txNonce tx = n + Z.of_nat i).
Proof.
  intros Hok Hpayload.
  destruct (VerifyBlock_OK_inv d block Hok Hpayload)
    as (root & currentState & txs & addressNonce
        & Hroot & Hstate & Hdec & Hvalid & Hsenders & _).
  exists root, currentState, txs. do 3 (split; [done|]).
  intros s n.
  destruct (validateNonce_loop_chained txs ∅ ∅ addressNonce Hvalid s)
    as [Hch Hm].
  rewrite lookup_empty in Hm.
  assert (Hhead : forall tx0, head (App.txsOf s txs) = Some tx0 ->
                              App.txNonce tx0 = n).
  { intros tx0 Hhd. rewrite Hhd in Hm. simpl in Hm.
    apply elem_of_map_to_list in Hm.
    destruct (VerifyBlock_checkSenders_true _ _ _ _ _ _ Hsenders _ _ Hm)
      as [He _].
    symmetry. exact He. }
  split; [exact Hhead|]. split.
  - intros i tx tx'. eapply chained_next. exact Hch.
  - intros Hn i tx Hi Hmax.
    destruct (App.txsOf s txs) as [|tx0 rest] eqn:Hmine.
    { by rewrite lookup_nil in Hi. }
    specialize (Hhead tx0 eq_refl).
    destruct i as [|i]; simpl in Hi.
    + injection Hi as <-. lia.
    + destruct Hch as [_ Hch]. rewrite Hhead in Hch.
      rewrite (chained_no_wrap rest n Hch Hn i tx Hi) by lia. lia.
Qed.

Lemma VerifyBlock_nonces_contiguous_witness :
  App.VerifyBlock
    (App.demoApp (fun _ => 1) 100000 100000 5
       [App.demoTx 5 21000; App.demoTx 6 21000; App.demoTx 7 21000])
    (Types.demoBlock 0 0 [x01])
  = App.Ret App.VerifyOK
  /\ exists root currentState txs,
       App.decodeTransactions
         (App.demoApp (fun _ => 1) 100000 100000 5
            [App.demoTx 5 21000; App.demoTx 6 21000; App.demoTx 7 21000])
         [x01] = Some txs
       /\ App.StateAt
            (App.demoApp (fun _ => 1) 100000 100000 5
               [App.demoTx 5 21000; App.demoTx 6 21000; App.demoTx 7 21000])
            root = Some currentState
       /\ forall tx0, head (App.txsOf 0 txs) = Some tx0 ->
            App.txNonce tx0 = App.GetNonce currentState 0.
Proof.
  assert (Hok : App.VerifyBlock
            (App.demoApp (fun _ => 1) 100000 100000 5
               [App.demoTx 5 21000; App.demoTx 6 21000; App.demoTx 7 21000])
            (Types.demoBlock 0 0 [x01]) = App.Ret App.VerifyOK).
  { vm_compute. reflexivity. }
  split; [exact Hok|].
  destruct (VerifyBlock_nonces_contiguous _ _ Hok)
    as (root & currentState & txs & _ & Hstate & Hdec & Hruns).
  - discriminate.
  - exists root, currentState, txs.
    split; [exact Hdec|]. split; [exact Hstate|].
    exact (proj1 (Hruns 0)).
Defined.

(** C3, as stated, fails at the largest nonce: with the state nonce of the
    sender at 2^64 - 1, a payload with the nonces 2^64 - 1 and 0 is
    accepted, and 0 is not the expected nonce plus one. *)
Lemma VerifyBlock_accepts_wrapped_nonce :
  let txs := [App.demoTx MaxUint64 21000; App.demoTx 0 21000] in
  let d := App.demoApp (fun _ => 1) 100000 100000 MaxUint64 txs in
  let block := Types.demoBlock 0 0 [x01] in
  App.VerifyBlock d block = App.Ret App.VerifyOK
  /\ Types.Payload block <> []
  /\ App.decodeTransactions d (Types.Payload block) = Some txs
  /\ App.expectedNonce d (App.demoState MaxUint64) 0 0 = MaxUint64
  /\ App.txNonce <$> App.txsOf 0 txs = [MaxUint64; 0]
  /\ 0 <> MaxUint64 + 1.
Proof. vm_compute. repeat split; discriminate. Qed.

(** C4 (as amended): in [VerifyBlock] of a non-empty payload, the limit the
    running sum of [tx.gas] is compared with is the gas limit of the current
    block of the chain, [d.blockchain.CurrentBlock().GasLimit()].  For a
    block that passes every other check (it is accepted under some gas
    limit), [VerifyBlock] returns Invalid exactly when the sum of [tx.gas]
    over the payload exceeds that limit, and OK otherwise. *)
Theorem VerifyBlock_gas_limit_of_current_block
    (d : App.DexconApp) (block : Types.Block) (txs : list App.Transaction) :
  0 <= App.GasLimit (App.CurrentBlock d) ->
  Types.Payload block <> [] ->
  App.decodeTransactions d (Types.Payload block) = Some txs ->
  Forall (fun tx => 0 <= App.txGas tx) txs ->
  (exists limit', App.VerifyBlock (App.withGasLimit d limit') block
                  = App.Ret App.VerifyOK) ->
  App.VerifyBlock d block
  = App.Ret (if App.totalGas txs >? App.GasLimit (App.CurrentBlock d)
             then App.VerifyInvalidBlock else App.VerifyOK).
Proof.
  intros Hlimit Hpayload Hdec Hgas [limit' Hok].
  destruct (VerifyBlock_by_txLoop d block limit' Hok Hpayload)
    as (txs' & balances & Hdec' & Hloop & ->).
  rewrite Hdec in Hdec'. injection Hdec' as <-.
  rewrite (VerifyBlock_txLoop_gas d txs Hgas balances 0 _ limit' Hlimit Hloop).
  reflexivity.
Qed.

Lemma VerifyBlock_gas_limit_of_current_block_witness :
  App.VerifyBlock (App.demoApp (fun _ => 1) 50000 30000 0 [App.demoTx 0 40000])
    (Types.demoBlock 0 0 [x01])
  = App.Ret App.VerifyInvalidBlock.
Proof.
  apply (VerifyBlock_gas_limit_of_current_block
           (App.demoApp (fun _ => 1) 50000 30000 0 [App.demoTx 0 40000])
           (Types.demoBlock 0 0 [x01]) [App.demoTx 0 40000]).
  - simpl. lia.
  - discriminate.
  - reflexivity.
  - repeat constructor. simpl. lia.
  - exists 40000. vm_compute. reflexivity.
Defined.

(** C4, as stated, fails: with a governance block gas limit of 50000 at the
    block's round and a current block whose gas limit is 100000, a payload
    that uses 70000 gas passes; with a current block whose gas limit is
    30000, a payload that uses 40000 gas is Invalid although it is below the
    governance limit. *)
Lemma VerifyBlock_ignores_governance_gas_limit :
  let over := App.demoApp (fun _ => 1) 50000 100000 0 [App.demoTx 0 70000] in
  let under := App.demoApp (fun _ => 1) 50000 30000 0 [App.demoTx 0 40000] in
  let block := Types.demoBlock 0 0 [x01] in
  (App.BlockGasLimit over (Types.Round (Types.Position_ block)) = 50000
   /\ App.totalGas [App.demoTx 0 70000] = 70000
   /\ App.VerifyBlock over block = App.Ret App.VerifyOK)
  /\ (App.BlockGasLimit under (Types.Round (Types.Position_ block)) = 50000
      /\ App.totalGas [App.demoTx 0 40000] = 40000
      /\ App.VerifyBlock under block = App.Ret App.VerifyInvalidBlock
      /\ App.VerifyBlock (App.withGasLimit under 50000) block
         = App.Ret App.VerifyOK).
Proof. vm_compute. repeat split. Qed.

(** ** The peer set *)

Section LabelFacts.

Import PeerSet.

(** *** Labels after [addLabel] and [removeLabel] *)

Lemma labels_of_addLabel ps id label id' :
  labels_of (addLabel ps id label) id'
  = if decide (id' = id) then {[label]} ∪ labels_of ps id else labels_of ps id'.
Proof.
  unfold labels_of, addLabel. simpl. case_decide as Hid.
  - subst. by rewrite lookup_insert_eq.
  - by rewrite lookup_insert_ne.
Qed.

Lemma peers_of_addLabel ps id label label' :
  peers_of (addLabel ps id label) label'
  = if decide (label' = label) then {[id]} ∪ peers_of ps label
    else peers_of ps label'.
Proof.
  unfold peers_of, addLabel. simpl. case_decide as Hl.
  - subst. by rewrite lookup_insert_eq.
  - by rewrite lookup_insert_ne.
Qed.

Lemma gset_size_0 `{Countable A} (X : gset A) : size X = 0%nat <-> X = ∅.
Proof. rewrite size_empty_iff. split; [apply leibniz_equiv|by intros ->]. Qed.

Lemma gset_size_0_dec `{Countable A} (X : gset A) {B} (x y : B) :
  (if decide (size X = 0%nat) then x else y) = (if decide (X = ∅) then x else y).
Proof. repeat case_decide; try done; exfalso; by rewrite gset_size_0 in *. Qed.

Lemma removeFrom_lookup `{Countable K, Countable A}
    (m : gmap K (gset A)) (k k' : K) (x : A) :
  default ∅ (removeFrom m k x !! k')
  = if decide (k' = k) then default ∅ (m !! k) ∖ {[x]} else default ∅ (m !! k').
Proof.
  unfold removeFrom. destruct (m !! k) as [s|] eqn:Hk.
  - rewrite lookup_insert_eq. simpl. case_decide as Hsz.
    + apply gset_size_0 in Hsz. case_decide as Hk'.
      * subst. rewrite lookup_delete_eq. simpl. by rewrite Hsz.
      * by rewrite lookup_delete_ne, lookup_insert_ne.
    + case_decide as Hk'.
      * subst. by rewrite lookup_insert_eq.
      * by rewrite lookup_insert_ne.
  - rewrite Hk. simpl. rewrite decide_True by (by apply gset_size_0).
    case_decide as Hk'.
    + subst. rewrite lookup_delete_eq. simpl. set_solver.
    + by rewrite lookup_delete_ne.
Qed.

Lemma removeFrom_nonempty `{Countable K, Countable A}
    (m : gmap K (gset A)) (k : K) (x : A) :
  (forall k' s, m !! k' = Some s -> s <> ∅) ->
  forall k' s, removeFrom m k x !! k' = Some s -> s <> ∅.
Proof.
  intros Hm k' s. unfold removeFrom.
  destruct (m !! k) as [s0|] eqn:Hk.
  - rewrite lookup_insert_eq. simpl. case_decide as Hsz.
    + destruct (decide (k' = k)) as [->|Hne].
      * by rewrite lookup_delete_eq.
      * rewrite lookup_delete_ne, lookup_insert_ne by done. apply Hm.
    + destruct (decide (k' = k)) as [->|Hne].
      * rewrite lookup_insert_eq. intros [= <-].
        by rewrite <- gset_size_0.
      * rewrite lookup_insert_ne by done. apply Hm.
  - rewrite Hk. simpl. rewrite decide_True by (by apply gset_size_0).
    destruct (decide (k' = k)) as [->|Hne].
    + by rewrite lookup_delete_eq.
    + rewrite lookup_delete_ne by done. apply Hm.
Qed.

Lemma removeLabel_removeFrom ps id label :
  removeLabel ps id label
  = set_labels ps (removeFrom (peer2Labels ps) id label)
      (removeFrom (label2Peers ps) label id).
Proof. reflexivity. Qed.

Lemma labels_of_removeLabel ps id label id' :
  labels_of (removeLabel ps id label) id'
  = if decide (id' = id) then labels_of ps id ∖ {[label]} else labels_of ps id'.
Proof. rewrite removeLabel_removeFrom. apply removeFrom_lookup. Qed.

Lemma peers_of_removeLabel ps id label label' :
  peers_of (removeLabel ps id label) label'
  = if decide (label' = label) then peers_of ps label ∖ {[id]}
    else peers_of ps label'.
Proof. rewrite removeLabel_removeFrom. apply removeFrom_lookup. Qed.

Lemma addLabel_consistent ps id label :
  labels_consistent ps -> labels_consistent (addLabel ps id label).
Proof.
  intros (Hinv & Hp & Hl). split; [|split].
  - intros id' label'. rewrite labels_of_addLabel, peers_of_addLabel.
    specialize (Hinv id' label'). pose proof (Hinv' := Hinv).
    repeat case_decide; subst; set_solver.
  - intros id' labels. unfold addLabel. simpl.
    destruct (decide (id' = id)) as [->|Hne].
    + rewrite lookup_insert_eq. intros [= <-]. set_solver.
    + rewrite lookup_insert_ne by done. apply Hp.
  - intros label' peers. unfold addLabel. simpl.
    destruct (decide (label' = label)) as [->|Hne].
    + rewrite lookup_insert_eq. intros [= <-]. set_solver.
    + rewrite lookup_insert_ne by done. apply Hl.
Qed.

Lemma removeLabel_consistent ps id label :
  labels_consistent ps -> labels_consistent (removeLabel ps id label).
Proof.
  intros (Hinv & Hp & Hl). split; [|split].
  - intros id' label'. rewrite labels_of_removeLabel, peers_of_removeLabel.
    pose proof (Hinv id' label'). pose proof (Hinv id label').
    pose proof (Hinv id' label). pose proof (Hinv id label).
    repeat case_decide; subst; set_solver.
  - rewrite removeLabel_removeFrom. simpl. by apply removeFrom_nonempty.
  - rewrite removeLabel_removeFrom. simpl. by apply removeFrom_nonempty.
Qed.

End LabelFacts.

Section PeerSetFacts.

Import PeerSet.

Variable selfPK : string.
Variable gov : governance.
Variable nodeID : string -> string.

(** *** Invariants of the label maps under the topology operations *)

Lemma foldl_invariant {A B} (I : A -> Prop) (f : A -> B -> A) (l : list B) :
  (forall a b, I a -> I (f a b)) -> forall a, I a -> I (foldl f a l).
Proof. intros Hf. induction l as [|b l IH]; intros a Ha; simpl; auto. Qed.

Section LabelInvariant.

(** A property of the peer set that looks at the two label maps only and
    that [addLabel] and [removeLabel] keep. *)
Variable P : peerSet -> Prop.
Hypothesis P_labels : forall ps ps',
  peer2Labels ps' = peer2Labels ps -> label2Peers ps' = label2Peers ps ->
  P ps -> P ps'.
Hypothesis P_addLabel : forall ps id label, P ps -> P (addLabel ps id label).
Hypothesis P_removeLabel : forall ps id label, P ps -> P (removeLabel ps id label).

Lemma P_set_srvr ps s : P ps -> P (set_srvr ps s).
Proof. by apply P_labels. Qed.

Lemma P_addDirectPeer ps pk label : P ps -> P (addDirectPeer nodeID ps pk label).
Proof. intros H. unfold addDirectPeer. by apply P_set_srvr, P_addLabel. Qed.

Lemma P_removeDirectPeer ps pk label :
  P ps -> P (removeDirectPeer nodeID ps pk label).
Proof.
  intros H. unfold removeDirectPeer.
  case_decide; [apply P_set_srvr|]; by apply P_removeLabel.
Qed.

Lemma P_rangePKs f pks ps :
  (forall ps pk, P ps -> P (f ps pk)) -> P ps -> P (rangePKs f pks ps).
Proof. intros Hf. unfold rangePKs. by apply foldl_invariant. Qed.

Lemma P_rangeChains f r ps :
  (forall ps c, P ps -> P (f ps c)) -> P ps -> P (rangeChains gov f r ps).
Proof. intros Hf. unfold rangeChains. by apply foldl_invariant. Qed.

Lemma P_BuildConnection ps r : P ps -> P (BuildConnection selfPK gov nodeID ps r).
Proof.
  intros H. unfold BuildConnection.
  match goal with
  | |- context [foldl ?f (?ps0, false) ?l] =>
      assert (Hfold : P (foldl f (ps0, false) l).1);
      [|destruct (foldl f (ps0, false) l) as [ps1 inOne]]
  end.
  - apply (foldl_invariant (fun st => P st.1)).
    + intros [ps0 b0] cid Hps0. simpl in *.
      destruct (NotarySet gov r cid); [|done].
      case_bool_decide; simpl.
      * apply P_rangePKs; [|done]. intros. by apply P_addDirectPeer.
      * apply P_set_srvr, P_rangePKs; [|done]. intros. by apply P_addLabel.
    + simpl. case_bool_decide.
      * apply P_rangePKs; [|by apply (P_labels ps)].
        intros. by apply P_addDirectPeer.
      * by apply (P_labels ps).
  - simpl in Hfold. destruct (negb _ && inOne); [|done].
    apply P_set_srvr, P_rangePKs; [|done]. intros. by apply P_addLabel.
Qed.

Lemma P_forgetConnection ps r : P ps -> P (forgetConnection selfPK gov nodeID ps r).
Proof.
  intros H. unfold forgetConnection.
  match goal with
  | |- context [foldl ?f (?ps0, false) ?l] =>
      assert (Hfold : P (foldl f (ps0, false) l).1);
      [|destruct (foldl f (ps0, false) l) as [ps1 inOne]]
  end.
  - apply (foldl_invariant (fun st => P st.1)).
    + intros [ps0 b0] cid Hps0. simpl in *.
      destruct (NotarySet gov r cid); [|done].
      case_bool_decide; simpl.
      * apply P_rangePKs; [|done]. intros. by apply P_removeDirectPeer.
      * apply P_set_srvr, P_rangePKs; [|done]. intros. by apply P_removeLabel.
    + simpl. case_bool_decide; [|done].
      apply P_rangePKs; [|done]. intros. by apply P_removeDirectPeer.
  - simpl in Hfold. destruct (negb _ && inOne); [|done].
    apply P_set_srvr, P_rangePKs; [|done]. intros. by apply P_removeLabel.
Qed.

Lemma P_ForgetConnection ps r : P ps -> P (ForgetConnection selfPK gov nodeID ps r).
Proof.
  intros H. unfold ForgetConnection. apply foldl_invariant; [|done].
  intros ps0 r0 Hps0. destruct (r0 <=? r); [|done].
  apply (P_labels (forgetConnection selfPK gov nodeID ps0 r)); [done..|].
  by apply P_forgetConnection.
Qed.

Lemma P_BuildNotaryConn ps r : P ps -> P (BuildNotaryConn selfPK gov nodeID ps r).
Proof.
  intros H. unfold BuildNotaryConn. case_bool_decide; [done|].
  apply P_rangeChains; [|by apply (P_labels ps)].
  intros ps0 c Hps0. destruct (NotarySet gov r c); [|done].
  case_bool_decide.
  - apply P_rangePKs; [|done]. intros. by apply P_addDirectPeer.
  - by apply P_set_srvr.
Qed.

Lemma P_forgetNotaryConn ps r : P ps -> P (forgetNotaryConn selfPK gov nodeID ps r).
Proof.
  intros H. unfold forgetNotaryConn. apply P_rangeChains; [|done].
  intros ps0 c Hps0. destruct (NotarySet gov r c); [|done].
  case_bool_decide.
  - apply P_rangePKs; [|done]. intros. by apply P_removeDirectPeer.
  - by apply P_set_srvr.
Qed.

Lemma P_ForgetNotaryConn ps r : P ps -> P (ForgetNotaryConn selfPK gov nodeID ps r).
Proof.
  intros H. unfold ForgetNotaryConn. apply foldl_invariant; [|done].
  intros ps0 r0 Hps0. destruct (r0 <=? r); [|done].
  apply (P_labels (forgetNotaryConn selfPK gov nodeID ps0 r0)); [done..|].
  by apply P_forgetNotaryConn.
Qed.

Lemma P_BuildDKGConn ps r : P ps -> P (BuildDKGConn selfPK gov nodeID ps r).
Proof.
  intros H. unfold BuildDKGConn. destruct (DKGSet gov r); [|done].
  case_bool_decide; [|done].
  apply P_rangePKs; [|by apply (P_labels ps)].
  intros. by apply P_addDirectPeer.
Qed.

Lemma P_forgetDKGConn ps r : P ps -> P (forgetDKGConn selfPK gov nodeID ps r).
Proof.
  intros H. unfold forgetDKGConn. destruct (DKGSet gov r); [|done].
  case_bool_decide; [|done].
  apply P_rangePKs; [|done]. intros. by apply P_removeDirectPeer.
Qed.

Lemma P_ForgetDKGConn ps r : P ps -> P (ForgetDKGConn selfPK gov nodeID ps r).
Proof.
  intros H. unfold ForgetDKGConn. apply foldl_invariant; [|done].
  intros ps0 r0 Hps0. destruct (r0 <=? r); [|done].
  apply (P_labels (forgetDKGConn selfPK gov nodeID ps0 r0)); [done..|].
  by apply P_forgetDKGConn.
Qed.

Lemma P_step ps o : P ps -> P (step selfPK gov nodeID ps o).
Proof.
  intros H. destruct o; simpl;
    auto using P_BuildConnection, P_ForgetConnection, P_BuildNotaryConn,
      P_ForgetNotaryConn, P_BuildDKGConn, P_ForgetDKGConn.
Qed.

Lemma P_run ops : P newPeerSet -> P (run selfPK gov nodeID ops).
Proof. intros H. unfold run. apply foldl_invariant; [|done]. intros. by apply P_step. Qed.

End LabelInvariant.

Lemma labels_consistent_maps ps ps' :
  peer2Labels ps' = peer2Labels ps -> label2Peers ps' = label2Peers ps ->
  labels_consistent ps -> labels_consistent ps'.
Proof.
  intros Hp Hl. unfold labels_consistent, labels_of, peers_of.
  by rewrite Hp, Hl.
Qed.

Lemma labels_consistent_new : labels_consistent newPeerSet.
Proof.
  split; [|split].
  - intros id label. unfold labels_of, peers_of. simpl.
    rewrite !lookup_empty. simpl. set_solver.
  - intros id labels. simpl. by rewrite lookup_empty.
  - intros label peers. simpl. by rewrite lookup_empty.
Qed.

(** *** Direct peers under the notary and DKG operations *)

Lemma direct_iff_labelled_same ps ps' :
  peer2Labels ps' = peer2Labels ps ->
  directPeers (srvr ps') = directPeers (srvr ps) ->
  direct_iff_labelled ps -> direct_iff_labelled ps'.
Proof.
  intros Hp Hd. unfold direct_iff_labelled, labels_of. by rewrite Hp, Hd.
Qed.

Lemma direct_addDirectPeer ps pk label :
  direct_iff_labelled ps ->
  direct_iff_labelled (addDirectPeer nodeID ps pk label).
Proof.
  intros H id. specialize (H id). unfold addDirectPeer.
  change (labels_of (set_srvr ?p ?s) id) with (labels_of p id).
  rewrite labels_of_addLabel. simpl.
  case_decide; subst; set_solver.
Qed.

Lemma direct_removeDirectPeer ps pk label :
  direct_iff_labelled ps ->
  direct_iff_labelled (removeDirectPeer nodeID ps pk label).
Proof.
  intros H id. pose proof (H id) as Hid. pose proof (H (nodeID pk)) as Hnode.
  unfold removeDirectPeer.
  fold (labels_of (removeLabel ps (nodeID pk) label) (nodeID pk)).
  rewrite gset_size_0_dec.
  case_decide as Hempty.
  - change (labels_of (set_srvr ?p ?s) id) with (labels_of p id).
    rewrite labels_of_removeLabel in *. simpl.
    rewrite decide_True in Hempty by done.
    case_decide; subst; set_solver.
  - rewrite labels_of_removeLabel in *.
    rewrite decide_True in Hempty by done.
    change (srvr (removeLabel ps (nodeID pk) label)) with (srvr ps).
    case_decide; subst; set_solver.
Qed.

Lemma direct_rangePKs f pks ps :
  (forall ps pk, direct_iff_labelled ps -> direct_iff_labelled (f ps pk)) ->
  direct_iff_labelled ps -> direct_iff_labelled (rangePKs f pks ps).
Proof. intros Hf. unfold rangePKs. by apply foldl_invariant. Qed.

Lemma direct_BuildNotaryConn ps r :
  direct_iff_labelled ps ->
  direct_iff_labelled (BuildNotaryConn selfPK gov nodeID ps r).
Proof.
  intros H. unfold BuildNotaryConn. case_bool_decide; [done|].
  unfold rangeChains. apply foldl_invariant; [|by apply (direct_iff_labelled_same ps)].
  intros ps0 c Hps0. destruct (NotarySet gov r c); [|done].
  case_bool_decide.
  - apply direct_rangePKs; [|done]. intros. by apply direct_addDirectPeer.
  - by apply (direct_iff_labelled_same ps0).
Qed.

Lemma direct_forgetNotaryConn ps r :
  direct_iff_labelled ps ->
  direct_iff_labelled (forgetNotaryConn selfPK gov nodeID ps r).
Proof.
  intros H. unfold forgetNotaryConn, rangeChains. apply foldl_invariant; [|done].
  intros ps0 c Hps0. destruct (NotarySet gov r c); [|done].
  case_bool_decide.
  - apply direct_rangePKs; [|done]. intros. by apply direct_removeDirectPeer.
  - by apply (direct_iff_labelled_same ps0).
Qed.

Lemma direct_BuildDKGConn ps r :
  direct_iff_labelled ps ->
  direct_iff_labelled (BuildDKGConn selfPK gov nodeID ps r).
Proof.
  intros H. unfold BuildDKGConn. destruct (DKGSet gov r); [|done].
  case_bool_decide; [|done].
  apply direct_rangePKs; [|by apply (direct_iff_labelled_same ps)].
  intros. by apply direct_addDirectPeer.
Qed.

Lemma direct_forgetDKGConn ps r :
  direct_iff_labelled ps ->
  direct_iff_labelled (forgetDKGConn selfPK gov nodeID ps r).
Proof.
  intros H. unfold forgetDKGConn. destruct (DKGSet gov r); [|done].
  case_bool_decide; [|done].
  apply direct_rangePKs; [|done]. intros. by apply direct_removeDirectPeer.
Qed.

Lemma direct_step ps o :
  is_connOp o = true ->
  direct_iff_labelled ps -> direct_iff_labelled (step selfPK gov nodeID ps o).
Proof.
  intros Ho H. destruct o as [r|r|r|r|r|r|id l|id l]; try discriminate Ho; simpl.
  - by apply direct_BuildNotaryConn.
  - unfold ForgetNotaryConn. apply foldl_invariant; [|done].
    intros ps0 r0 Hps0. destruct (r0 <=? r); [|done].
    apply (direct_iff_labelled_same (forgetNotaryConn selfPK gov nodeID ps0 r0));
      [done..|].
    by apply direct_forgetNotaryConn.
  - by apply direct_BuildDKGConn.
  - unfold ForgetDKGConn. apply foldl_invariant; [|done].
    intros ps0 r0 Hps0. destruct (r0 <=? r); [|done].
    apply (direct_iff_labelled_same (forgetDKGConn selfPK gov nodeID ps0 r0));
      [done..|].
    by apply direct_forgetDKGConn.
Qed.

Lemma direct_foldl ops :
  Forall (fun o => is_connOp o = true) ops ->
  forall ps, direct_iff_labelled ps ->
  direct_iff_labelled (foldl (step selfPK gov nodeID) ps ops).
Proof.
  induction 1 as [|o ops Ho Hops IH]; intros ps Hps; simpl; [done|].
  by apply IH, direct_step.
Qed.

Lemma foldl_invariant_forallb {A B} (I : A -> Prop) (f : A -> B -> A)
    (g : B -> bool) (l : list B) :
  (forall a b, g b = true -> I a -> I (f a b)) ->
  forallb g l = true -> forall a, I a -> I (foldl f a l).
Proof.
  intros Hf. induction l as [|b l IH]; intros Hg a Ha; simpl in *; [done|].
  apply andb_prop in Hg as [Hb Hl]. apply IH; [done|]. by apply Hf.
Qed.

(** *** Direct peers under all of the topology operations *)

Section DirectInvariant.

(** A property of the peer set that looks at the labels of the peers and at
    the direct peers only, that [addDirectPeer] and [removeDirectPeer] keep,
    and that [addLabel] keeps for the label of a set the node is not in. *)

Variable Q : peerSet -> Prop.
Hypothesis Q_same : forall ps ps',
  peer2Labels ps' = peer2Labels ps ->
  directPeers (srvr ps') = directPeers (srvr ps) -> Q ps -> Q ps'.
Hypothesis Q_add : forall ps pk label,
  Q ps -> Q (addDirectPeer nodeID ps pk label).
Hypothesis Q_remove : forall ps pk label,
  Q ps -> Q (removeDirectPeer nodeID ps pk label).
Hypothesis Q_group : forall ps id label,
  memberLabel selfPK gov label = false -> Q ps -> Q (addLabel ps id label).

Lemma Q_set_srvr ps s :
  directPeers s = directPeers (srvr ps) -> Q ps -> Q (set_srvr ps s).
Proof. intros Hd. by apply Q_same. Qed.

Lemma Q_rangePKs f pks ps :
  (forall ps pk, Q ps -> Q (f ps pk)) -> Q ps -> Q (rangePKs f pks ps).
Proof. intros Hf. unfold rangePKs. by apply foldl_invariant. Qed.

Lemma memberLabel_notary_group r cid s :
  NotarySet gov r cid = Some s -> selfPK ∉ s ->
  memberLabel selfPK gov (mkLabel notaryset cid r) = false.
Proof.
  intros Hs Hself. unfold memberLabel. cbn. rewrite Hs. cbn.
  by apply bool_decide_eq_false.
Qed.

Lemma Q_BuildConnection ps r : Q ps -> Q (BuildConnection selfPK gov nodeID ps r).
Proof.
  intros H. unfold BuildConnection.
  match goal with
  | |- context [foldl ?f (?ps0, false) ?l] =>
      assert (Hfold : Q (foldl f (ps0, false) l).1);
      [|destruct (foldl f (ps0, false) l) as [ps1 inOne]]
  end.
  - apply (foldl_invariant (fun st => Q st.1)).
    + intros [ps0 b0] cid Hps0. simpl in *.
      destruct (NotarySet gov r cid) as [s|] eqn:Hs; [|done].
      case_bool_decide as Hself; simpl.
      * apply Q_rangePKs; [|done]. intros. by apply Q_add.
      * apply Q_set_srvr; [reflexivity|].
        apply Q_rangePKs; [|done]. intros. apply Q_group; [|done].
        by eapply memberLabel_notary_group.
    + simpl. case_bool_decide.
      * apply Q_rangePKs; [|by apply (Q_same ps)]. intros. by apply Q_add.
      * by apply (Q_same ps).
  - simpl in Hfold. destruct (negb _ && inOne) eqn:Hb; [|done].
    apply andb_prop in Hb as [Hb _]. apply negb_true_iff in Hb.
    apply Q_set_srvr; [reflexivity|].
    apply Q_rangePKs; [|done]. intros. by apply Q_group.
Qed.

Lemma Q_BuildNotaryConn ps r : Q ps -> Q (BuildNotaryConn selfPK gov nodeID ps r).
Proof.
  intros H. unfold BuildNotaryConn. case_bool_decide; [done|].
  unfold rangeChains. apply foldl_invariant; [|by apply (Q_same ps)].
  intros ps0 c Hps0. destruct (NotarySet gov r c); [|done].
  case_bool_decide.
  - apply Q_rangePKs; [|done]. intros. by apply Q_add.
  - by apply (Q_same ps0).
Qed.

Lemma Q_forgetNotaryConn ps r : Q ps -> Q (forgetNotaryConn selfPK gov nodeID ps r).
Proof.
  intros H. unfold forgetNotaryConn, rangeChains. apply foldl_invariant; [|done].
  intros ps0 c Hps0. destruct (NotarySet gov r c); [|done].
  case_bool_decide.
  - apply Q_rangePKs; [|done]. intros. by apply Q_remove.
  - by apply (Q_same ps0).
Qed.

Lemma Q_ForgetNotaryConn ps r : Q ps -> Q (ForgetNotaryConn selfPK gov nodeID ps r).
Proof.
  intros H. unfold ForgetNotaryConn. apply foldl_invariant; [|done].
  intros ps0 r0 Hps0. destruct (r0 <=? r); [|done].
  apply (Q_same (forgetNotaryConn selfPK gov nodeID ps0 r0)); [done..|].
  by apply Q_forgetNotaryConn.
Qed.

Lemma Q_BuildDKGConn ps r : Q ps -> Q (BuildDKGConn selfPK gov nodeID ps r).
Proof.
  intros H. unfold BuildDKGConn. destruct (DKGSet gov r); [|done].
  case_bool_decide; [|done].
  apply Q_rangePKs; [|by apply (Q_same ps)]. intros. by apply Q_add.
Qed.

Lemma Q_forgetDKGConn ps r : Q ps -> Q (forgetDKGConn selfPK gov nodeID ps r).
Proof.
  intros H. unfold forgetDKGConn. destruct (DKGSet gov r); [|done].
  case_bool_decide; [|done].
  apply Q_rangePKs; [|done]. intros. by apply Q_remove.
Qed.

Lemma Q_ForgetDKGConn ps r : Q ps -> Q (ForgetDKGConn selfPK gov nodeID ps r).
Proof.
  intros H. unfold ForgetDKGConn. apply foldl_invariant; [|done].
  intros ps0 r0 Hps0. destruct (r0 <=? r); [|done].
  apply (Q_same (forgetDKGConn selfPK gov nodeID ps0 r0)); [done..|].
  by apply Q_forgetDKGConn.
Qed.

(** [forgetConnection] of a round in all of whose sets the node is a member
    takes the [removeDirectPeer] branches only. *)
Lemma Q_forgetConnection_member ps r :
  memberOfRound selfPK gov r = true ->
  Q ps -> Q (forgetConnection selfPK gov nodeID ps r).
Proof.
  intros Hm H. unfold memberOfRound in Hm.
  apply andb_prop in Hm as [Hdkg Hchains].
  unfold forgetConnection. rewrite Hdkg.
  match goal with
  | |- context [foldl ?f (?ps0, false) ?l] =>
      assert (Hfold : Q (foldl f (ps0, false) l).1);
      [|destruct (foldl f (ps0, false) l) as [ps1 inOne]]
  end.
  - refine (foldl_invariant_forallb (fun st => Q st.1) _ _ _ _ Hchains _ _).
    + intros [ps0 b0] cid Hcid Hps0. simpl in *.
      destruct (NotarySet gov r cid) as [s|]; [|done].
      rewrite Hcid. simpl.
      apply Q_rangePKs; [|done]. intros. by apply Q_remove.
    + simpl. apply Q_rangePKs; [|done]. intros. by apply Q_remove.
  - done.
Qed.

(** [forgetConnection] at large, for a property that [removeLabel] keeps. *)
Lemma Q_forgetConnection ps r :
  (forall ps id label, Q ps -> Q (removeLabel ps id label)) ->
  Q ps -> Q (forgetConnection selfPK gov nodeID ps r).
Proof.
  intros Q_removeLabel H. unfold forgetConnection.
  match goal with
  | |- context [foldl ?f (?ps0, false) ?l] =>
      assert (Hfold : Q (foldl f (ps0, false) l).1);
      [|destruct (foldl f (ps0, false) l) as [ps1 inOne]]
  end.
  - apply (foldl_invariant (fun st => Q st.1)).
    + intros [ps0 b0] cid Hps0. simpl in *.
      destruct (NotarySet gov r cid); [|done].
      case_bool_decide; simpl.
      * apply Q_rangePKs; [|done]. intros. by apply Q_remove.
      * apply Q_set_srvr; [reflexivity|].
        apply Q_rangePKs; [|done]. intros. by apply Q_removeLabel.
    + simpl. case_bool_decide; [|done].
      apply Q_rangePKs; [|done]. intros. by apply Q_remove.
  - simpl in Hfold. destruct (negb _ && inOne); [|done].
    apply Q_set_srvr; [reflexivity|].
    apply Q_rangePKs; [|done]. intros. by apply Q_removeLabel.
Qed.

Lemma Q_ForgetConnection ps r :
  (forall ps, Q ps -> Q (forgetConnection selfPK gov nodeID ps r)) ->
  Q ps -> Q (ForgetConnection selfPK gov nodeID ps r).
Proof.
  intros Hforget H. unfold ForgetConnection. apply foldl_invariant; [|done].
  intros ps0 r0 Hps0. destruct (r0 <=? r); [|done].
  apply (Q_same (forgetConnection selfPK gov nodeID ps0 r)); [done..|].
  by apply Hforget.
Qed.

End DirectInvariant.

Lemma mld_same ps ps' :
  peer2Labels ps' = peer2Labels ps ->
  directPeers (srvr ps') = directPeers (srvr ps) ->
  member_labelled_direct selfPK gov ps -> member_labelled_direct selfPK gov ps'.
Proof.
  intros Hp Hd. unfold member_labelled_direct, labels_of. by rewrite Hp, Hd.
Qed.

Lemma mld_addDirectPeer ps pk label :
  member_labelled_direct selfPK gov ps ->
  member_labelled_direct selfPK gov (addDirectPeer nodeID ps pk label).
Proof.
  intros H id l. specialize (H id l). unfold addDirectPeer.
  change (labels_of (set_srvr ?p ?s) id) with (labels_of p id).
  rewrite labels_of_addLabel. simpl.
  case_decide; subst; set_solver.
Qed.

Lemma mld_removeLabel ps id label :
  member_labelled_direct selfPK gov ps ->
  member_labelled_direct selfPK gov (removeLabel ps id label).
Proof.
  intros H id' l. specialize (H id' l).
  rewrite labels_of_removeLabel.
  change (srvr (removeLabel ps id label)) with (srvr ps).
  case_decide; subst; set_solver.
Qed.

Lemma mld_removeDirectPeer ps pk label :
  member_labelled_direct selfPK gov ps ->
  member_labelled_direct selfPK gov (removeDirectPeer nodeID ps pk label).
Proof.
  intros H id l Hl Hmember.
  assert (Hbefore : l ∈ labels_of ps id).
  { revert Hl. unfold removeDirectPeer. case_decide;
      change (labels_of (set_srvr ?p ?s) id) with (labels_of p id);
      rewrite labels_of_removeLabel; case_decide; subst; set_solver. }
  pose proof (H id l Hbefore Hmember) as Hdirect.
  revert Hl. unfold removeDirectPeer.
  fold (labels_of (removeLabel ps (nodeID pk) label) (nodeID pk)).
  rewrite gset_size_0_dec.
  case_decide as Hempty; [|done].
  change (labels_of (set_srvr ?p ?s) id) with (labels_of p id).
  intros Hl. simpl. apply elem_of_difference. split; [done|].
  intros ->%elem_of_singleton. rewrite Hempty in Hl. set_solver.
Qed.

Lemma mld_addLabel ps id label :
  memberLabel selfPK gov label = false ->
  member_labelled_direct selfPK gov ps ->
  member_labelled_direct selfPK gov (addLabel ps id label).
Proof.
  intros Hgroup H id' l. specialize (H id' l).
  rewrite labels_of_addLabel.
  change (srvr (addLabel ps id label)) with (srvr ps).
  case_decide; subst; [|done].
  intros [->%elem_of_singleton|Hl]%elem_of_union Hm; [congruence|by apply H].
Qed.

Lemma dl_same ps ps' :
  peer2Labels ps' = peer2Labels ps ->
  directPeers (srvr ps') = directPeers (srvr ps) ->
  direct_labelled ps -> direct_labelled ps'.
Proof. intros Hp Hd. unfold direct_labelled, labels_of. by rewrite Hp, Hd. Qed.

Lemma dl_addDirectPeer ps pk label :
  direct_labelled ps -> direct_labelled (addDirectPeer nodeID ps pk label).
Proof.
  intros H id. specialize (H id). unfold addDirectPeer.
  change (labels_of (set_srvr ?p ?s) id) with (labels_of p id).
  rewrite labels_of_addLabel. simpl.
  case_decide; subst; set_solver.
Qed.

Lemma dl_removeDirectPeer ps pk label :
  direct_labelled ps -> direct_labelled (removeDirectPeer nodeID ps pk label).
Proof.
  intros H id. pose proof (H id) as Hid.
  unfold removeDirectPeer.
  fold (labels_of (removeLabel ps (nodeID pk) label) (nodeID pk)).
  rewrite gset_size_0_dec.
  case_decide as Hempty.
  - change (labels_of (set_srvr ?p ?s) id) with (labels_of p id).
    rewrite labels_of_removeLabel in *. simpl.
    rewrite decide_True in Hempty by done.
    case_decide; subst; set_solver.
  - rewrite labels_of_removeLabel in *.
    rewrite decide_True in Hempty by done.
    change (srvr (removeLabel ps (nodeID pk) label)) with (srvr ps).
    case_decide; subst; set_solver.
Qed.

Lemma dl_addLabel ps id label :
  direct_labelled ps -> direct_labelled (addLabel ps id label).
Proof.
  intros H id'. specialize (H id').
  rewrite labels_of_addLabel.
  change (srvr (addLabel ps id label)) with (srvr ps).
  case_decide; subst; set_solver.
Qed.

Lemma mld_step ps o :
  is_topologyOp o = true ->
  member_labelled_direct selfPK gov ps ->
  member_labelled_direct selfPK gov (step selfPK gov nodeID ps o).
Proof.
  intros Ho H.
  destruct o as [r|r|r|r|r|r|id l|id l]; try discriminate Ho; simpl.
  - apply (Q_BuildConnection (member_labelled_direct selfPK gov));
      [apply mld_same|apply mld_addDirectPeer|apply mld_addLabel|done].
  - apply (Q_ForgetConnection (member_labelled_direct selfPK gov));
      [apply mld_same| |done].
    intros ps0 Hps0.
    apply (Q_forgetConnection (member_labelled_direct selfPK gov));
      [apply mld_same|apply mld_removeDirectPeer|apply mld_removeLabel|done].
  - apply (Q_BuildNotaryConn (member_labelled_direct selfPK gov));
      [apply mld_same|apply mld_addDirectPeer|done].
  - apply (Q_ForgetNotaryConn (member_labelled_direct selfPK gov));
      [apply mld_same|apply mld_removeDirectPeer|done].
  - apply (Q_BuildDKGConn (member_labelled_direct selfPK gov));
      [apply mld_same|apply mld_addDirectPeer|done].
  - apply (Q_ForgetDKGConn (member_labelled_direct selfPK gov));
      [apply mld_same|apply mld_removeDirectPeer|done].
Qed.

Lemma dl_step ps o :
  is_topologyOp o = true ->
  forgets_as_member selfPK gov o = true ->
  direct_labelled ps -> direct_labelled (step selfPK gov nodeID ps o).
Proof.
  intros Ho Hm H.
  destruct o as [r|r|r|r|r|r|id l|id l]; try discriminate Ho; simpl.
  - apply (Q_BuildConnection direct_labelled);
      [apply dl_same|apply dl_addDirectPeer| |done].
    intros ps0 id l _. apply dl_addLabel.
  - apply (Q_ForgetConnection direct_labelled); [apply dl_same| |done].
    intros ps0 Hps0.
    apply (Q_forgetConnection_member direct_labelled);
      [apply dl_removeDirectPeer|done|done].
  - apply (Q_BuildNotaryConn direct_labelled);
      [apply dl_same|apply dl_addDirectPeer|done].
  - apply (Q_ForgetNotaryConn direct_labelled);
      [apply dl_same|apply dl_removeDirectPeer|done].
  - apply (Q_BuildDKGConn direct_labelled);
      [apply dl_same|apply dl_addDirectPeer|done].
  - apply (Q_ForgetDKGConn direct_labelled);
      [apply dl_same|apply dl_removeDirectPeer|done].
Qed.

Lemma mld_foldl ops :
  Forall (fun o => is_topologyOp o = true) ops ->
  forall ps, member_labelled_direct selfPK gov ps ->
  member_labelled_direct selfPK gov (foldl (step selfPK gov nodeID) ps ops).
Proof.
  induction 1 as [|o ops Ho Hops IH]; intros ps Hps; simpl; [done|].
  by apply IH, mld_step.
Qed.

Lemma dl_foldl ops :
  Forall (fun o => is_topologyOp o = true) ops ->
  Forall (fun o => forgets_as_member selfPK gov o = true) ops ->
  forall ps, direct_labelled ps ->
  direct_labelled (foldl (step selfPK gov nodeID) ps ops).
Proof.
  induction 1 as [|o ops Ho Hops IH]; intros Hm ps Hps; simpl; [done|].
  apply Forall_cons in Hm as [Hmo Hm]. by apply IH, dl_step.
Qed.

End PeerSetFacts.

(** C10: after any sequence of [addLabel] and [removeLabel] steps and of
    topology operations ([BuildConnection], [ForgetConnection],
    [BuildNotaryConn], [ForgetNotaryConn], [BuildDKGConn], [ForgetDKGConn])
    on a new peer set, [peer2Labels] and [label2Peers] are inverse to each
    other (a label is among the labels of a peer exactly when the peer is
    among the peers of the label) and neither map binds a key to an empty
    set. *)
Theorem label_maps_inverse (selfPK : string) (gov : PeerSet.governance)
    (nodeID : string -> string) (ops : list PeerSet.op) :
  PeerSet.labels_consistent (PeerSet.run selfPK gov nodeID ops).
Proof.
  apply (P_run selfPK gov nodeID PeerSet.labels_consistent).
  - apply labels_consistent_maps.
  - apply addLabel_consistent.
  - apply removeLabel_consistent.
  - apply labels_consistent_new.
Qed.

(** With the notary and DKG operations alone no label comes from the group
    fallback and no label goes without [removeDirectPeer]: the direct peers
    are exactly the labelled peers. *)
Lemma connOps_direct_iff_labelled (selfPK : string) (gov : PeerSet.governance)
    (nodeID : string -> string) (ops : list PeerSet.op) :
  Forall (fun o => PeerSet.is_connOp o = true) ops ->
  PeerSet.direct_iff_labelled (PeerSet.run selfPK gov nodeID ops).
Proof.
  intros Hops. apply direct_foldl; [done|].
  intros id. unfold PeerSet.labels_of. simpl. rewrite lookup_empty. simpl.
  set_solver.
Qed.

(** C6 (as amended): after any sequence of [BuildConnection],
    [ForgetConnection], [BuildNotaryConn], [ForgetNotaryConn], [BuildDKGConn]
    and [ForgetDKGConn] operations on a new peer set, a peer that carries a
    label of a set the node itself is a member of is among the direct peers
    (added and not removed since); and when every [ForgetConnection] of the
    sequence is for a round in all of whose sets the node is a member, every
    direct peer carries at least one label: a peer left without a label is
    no longer a direct peer. *)
Theorem direct_peers_and_labels (selfPK : string) (gov : PeerSet.governance)
    (nodeID : string -> string) (ops : list PeerSet.op) :
  Forall (fun o => PeerSet.is_topologyOp o = true) ops ->
  PeerSet.member_labelled_direct selfPK gov (PeerSet.run selfPK gov nodeID ops)
  /\ (Forall (fun o => PeerSet.forgets_as_member selfPK gov o = true) ops ->
      PeerSet.direct_labelled (PeerSet.run selfPK gov nodeID ops)).
Proof.
  intros Hops. split.
  - apply mld_foldl; [done|].
    intros id label. unfold PeerSet.labels_of. simpl. rewrite lookup_empty.
    simpl. set_solver.
  - intros Hm. apply dl_foldl; [done..|].
    intros id. simpl. set_solver.
Qed.

Lemma direct_peers_and_labels_witness :
  let ps := PeerSet.run "self" PeerSet.demoGov id
              [PeerSet.OpBuildConnection 1; PeerSet.OpBuildDKGConn 2;
               PeerSet.OpForgetConnection 2] in
  "a" ∈ PeerSet.directPeers (PeerSet.srvr ps)
  /\ PeerSet.labels_of ps "a" <> ∅.
Proof.
  cbv zeta.
  pose proof (direct_peers_and_labels "self" PeerSet.demoGov id
                [PeerSet.OpBuildConnection 1; PeerSet.OpBuildDKGConn 2;
                 PeerSet.OpForgetConnection 2]
                ltac:(repeat constructor)) as [Hmember Hdirect].
  assert (Ha : "a" ∈ PeerSet.directPeers
                  (PeerSet.srvr (PeerSet.run "self" PeerSet.demoGov id
                     [PeerSet.OpBuildConnection 1; PeerSet.OpBuildDKGConn 2;
                      PeerSet.OpForgetConnection 2]))).
  { apply (Hmember "a" (PeerSet.mkLabel PeerSet.dkgset 0 1)).
    - apply (bool_decide_unpack _). vm_compute. exact I.
    - vm_compute. reflexivity. }
  split; [exact Ha|].
  apply Hdirect; [|exact Ha].
  repeat constructor.
Defined.

(** C6, as stated, fails with [BuildConnection] in the sequence: with the
    node outside the notary set [{a, b}] of chain 1, [BuildConnection]
    labels [b], a member of the group of that set, without adding it as a
    direct peer. *)
Lemma labelled_peer_not_direct :
  let built := PeerSet.run "self" PeerSet.demoGov2 id
                 [PeerSet.OpBuildConnection 1] in
  PeerSet.labels_of built "b" = {[PeerSet.mkLabel PeerSet.notaryset 1 1]}
  /\ ("b" ∉ PeerSet.directPeers (PeerSet.srvr built))
  /\ ~ PeerSet.direct_iff_labelled built.
Proof.
  cbv zeta.
  assert (Hb : PeerSet.labels_of
                 (PeerSet.run "self" PeerSet.demoGov2 id
                    [PeerSet.OpBuildConnection 1]) "b"
               = {[PeerSet.mkLabel PeerSet.notaryset 1 1]})
    by (vm_compute; reflexivity).
  assert (Hbd : "b" ∉ PeerSet.directPeers
                  (PeerSet.srvr (PeerSet.run "self" PeerSet.demoGov2 id
                                   [PeerSet.OpBuildConnection 1]))).
  { apply (bool_decide_unpack _). vm_compute. exact I. }
  apply conj; [exact Hb|]. apply conj; [exact Hbd|].
  intros H. apply Hbd, H. rewrite Hb. apply non_empty_singleton_L.
Qed.

(** A peer that carries a direct label and a group label: when
    [ForgetConnection] takes the group label last, with [removeLabel], the
    peer is left among the direct peers without a label. *)
Lemma ForgetConnection_leaves_direct_peer :
  let forgot := PeerSet.run "self" PeerSet.demoGov2 id
                  [PeerSet.OpBuildConnection 1; PeerSet.OpForgetConnection 1] in
  PeerSet.labels_of forgot "a" = ∅
  /\ "a" ∈ PeerSet.directPeers (PeerSet.srvr forgot).
Proof.
  cbv zeta. apply conj.
  - vm_compute. reflexivity.
  - apply (bool_decide_unpack _). vm_compute. exact I.
Qed.

(** C5: what [ForgetConnection] does at a round above the recorded one.
    After [BuildConnection(1)], [ForgetConnection(2)] deletes round 1 from
    the history but calls [forgetConnection(2)]: the label of round 1 and
    the direct peer [a] stay.  [forgetConnection(1)], which the sibling
    operations would call, removes them. *)
Lemma ForgetConnection_forgets_argument_round :
  let built := PeerSet.BuildConnection "self" PeerSet.demoGov id
                 PeerSet.newPeerSet 1 in
  let forgot := PeerSet.ForgetConnection "self" PeerSet.demoGov id built 2 in
  PeerSet.history built = {[1]}
  /\ PeerSet.directPeers (PeerSet.srvr built) = {["a"]}
  /\ PeerSet.labels_of built "a" = {[PeerSet.mkLabel PeerSet.dkgset 0 1]}
  /\ PeerSet.history forgot = ∅
  /\ PeerSet.directPeers (PeerSet.srvr forgot) = {["a"]}
  /\ PeerSet.labels_of forgot "a" = {[PeerSet.mkLabel PeerSet.dkgset 0 1]}
  /\ forgot = PeerSet.set_history built ∅
  /\ PeerSet.forgetConnection "self" PeerSet.demoGov id built 1
     = PeerSet.set_history PeerSet.newPeerSet {[1]}.
Proof. cbv zeta. repeat apply conj; vm_compute; reflexivity. Qed.

(** ** Scenarios *)

(** A nonce gap: with the expected next nonce 5, a payload with the nonces
    5, 6, 8 is Invalid. *)
Example VerifyBlock_nonce_gap :
  App.VerifyBlock
    (App.demoApp (fun _ => 1) 100000 100000 5
       [App.demoTx 5 21000; App.demoTx 6 21000; App.demoTx 8 21000])
    (Types.demoBlock 0 0 [x01])
  = App.Ret App.VerifyInvalidBlock.
Proof. vm_compute. reflexivity. Qed.

(** A height gap: without a confirmed block on the chain, a block at height
    1 is to be retried later. *)
Example VerifyBlock_height_gap :
  App.VerifyBlock (App.demoApp (fun _ => 1) 100000 100000 0 [App.demoTx 0 21000])
    (Types.demoBlock 0 1 [x01])
  = App.Ret App.VerifyRetryLater.
Proof. vm_compute. reflexivity. Qed.

(** The tip at height 10: height 12 is refused and leaves the tip, height 11
    is stored. *)
Example PutCompactionChainTipInfo_tip_10 :
  let db : DB.leveldb :=
    {[DB.compactionChainTipInfoKey := DB.demoEncode (DB.mkTip 10 DB.zeroHash)]} in
  DB.PutCompactionChainTipInfo DB.demoEncode DB.demoDecode db DB.zeroHash 12
  = (db, Some DB.ErrInvalidCompactionChainTipHeight)
  /\ DB.GetCompactionChainTipInfo DB.demoDecode
       (fst (DB.PutCompactionChainTipInfo DB.demoEncode DB.demoDecode db
               DB.zeroHash 11))
     = Some (DB.zeroHash, 11).
Proof.
  cbv zeta.
  assert (Hget : DB.internalGetCompactionChainTipInfo DB.demoDecode
                   {[DB.compactionChainTipInfoKey
                       := DB.demoEncode (DB.mkTip 10 DB.zeroHash)]}
                 = (DB.mkTip 10 DB.zeroHash, None)).
  { unfold DB.internalGetCompactionChainTipInfo.
    rewrite lookup_singleton_eq. reflexivity. }
  unfold DB.PutCompactionChainTipInfo. rewrite Hget. apply conj.
  - reflexivity.
  - rewrite decide_True by reflexivity. cbn [fst].
    unfold DB.GetCompactionChainTipInfo, DB.internalGetCompactionChainTipInfo.
    rewrite lookup_insert_eq. reflexivity.
Qed.

(** With the soft deadline already expired at the first poll, the worker
    returns a nil payload. *)
Example preparePayload_soft_deadline :
  App.preparePayload
    (App.demoApp (fun _ => 1) 100000 100000 0 [App.demoTx 0 21000]) 0
    (Types.mkPosition 0 0 0)
  = App.Ret (None, None).
Proof. reflexivity. Qed.

(** ** Blocks and DKG material in the store *)

Section StoreFacts2.

Import Types Store.

Lemma to_N_byte_of_Z (z : Z) : Z.of_N (Byte.to_N (byte_of_Z z)) = z mod 256.
Proof.
  unfold byte_of_Z.
  pose proof (Z.mod_pos_bound z 256 ltac:(lia)) as Hb.
  destruct (Byte.of_N (Z.to_N (z mod 256))) as [y|] eqn:E; simpl.
  - apply Byte.to_of_N in E. rewrite E. apply Z2N.id. lia.
  - apply Byte.of_N_None_iff in E. lia.
Qed.

Lemma Uint64_PutUint64 (v : Z) : Uint64 (PutUint64 v) = wrap64 v.
Proof.
  unfold Uint64, PutUint64, wrap64. cbn [take foldr].
  rewrite !to_N_byte_of_Z, !Z.shiftr_div_pow2 by lia.
  change (2 ^ 64) with (256 * (256 * (256 * (256 * (256 * (256 * (256 * 256))))))).
  change (2 ^ 8) with 256.
  change (2 ^ 16) with (256 * 256).
  change (2 ^ 24) with (256 * 256 * 256).
  change (2 ^ 32) with (256 * 256 * 256 * 256).
  change (2 ^ 40) with (256 * 256 * 256 * 256 * 256).
  change (2 ^ 48) with (256 * 256 * 256 * 256 * 256 * 256).
  change (2 ^ 56) with (256 * 256 * 256 * 256 * 256 * 256 * 256).
  rewrite <- !Z.div_div by lia.
  rewrite !Z.rem_mul_r by lia.
  lia.
Qed.

Lemma PutUint64_inj (r r' : Z) :
  is_uint64 r -> is_uint64 r' -> PutUint64 r = PutUint64 r' -> r = r'.
Proof.
  intros Hr Hr' Heq.
  rewrite <- (wrap64_small r), <- (wrap64_small r') by done.
  rewrite <- !Uint64_PutUint64. by rewrite Heq.
Qed.

(** The four kinds of keys never coincide. *)
Lemma getBlockKey_inj (h h' : Hash) : getBlockKey h = getBlockKey h' -> h = h'.
Proof. unfold getBlockKey. apply app_inv_head. Qed.

Lemma getDKGPrivateKeyKey_inj (r r' : Z) :
  is_uint64 r -> is_uint64 r' ->
  getDKGPrivateKeyKey r = getDKGPrivateKeyKey r' -> r = r'.
Proof.
  intros Hr Hr' Heq. unfold getDKGPrivateKeyKey in Heq.
  apply app_inv_head in Heq. by apply PutUint64_inj.
Qed.

Lemma getDKGMasterPrivateSharesKey_inj (r r' : Z) :
  is_uint64 r -> is_uint64 r' ->
  getDKGMasterPrivateSharesKey r = getDKGMasterPrivateSharesKey r' -> r = r'.
Proof.
  intros Hr Hr' Heq. unfold getDKGMasterPrivateSharesKey in Heq.
  apply app_inv_head in Heq. by apply PutUint64_inj.
Qed.

(** Blocks under their keys. *)
Lemma HasBlock_empty (h : Hash) : HasBlock ∅ h = false.
Proof.
  unfold HasBlock, internalHasBlock. rewrite lookup_empty.
  apply bool_decide_eq_false. by intros [? ?].
Qed.

Lemma HasBlock_insert (db : DB.leveldb) (h h' : Hash) (marshaled : bytes) :
  HasBlock (<[getBlockKey h := marshaled]> db) h'
  = if decide (h' = h) then true else HasBlock db h'.
Proof.
  unfold HasBlock, internalHasBlock. case_decide as Hh.
  - subst. rewrite lookup_insert_eq. by apply bool_decide_eq_true.
  - rewrite lookup_insert_ne; [done|].
    intros Heq. by apply getBlockKey_inj in Heq.
Qed.

Lemma GetBlock_insert (decodeBlock : bytes -> option Block) (db : DB.leveldb)
    (h h' : Hash) (marshaled : bytes) :
  GetBlock decodeBlock (<[getBlockKey h := marshaled]> db) h'
  = if decide (h' = h)
    then match decodeBlock marshaled with
         | Some block => Ok block
         | None => Err ErrRLP
         end
    else GetBlock decodeBlock db h'.
Proof.
  unfold GetBlock. case_decide as Hh.
  - subst. by rewrite lookup_insert_eq.
  - rewrite lookup_insert_ne; [done|].
    intros Heq. by apply getBlockKey_inj in Heq.
Qed.

Lemma PutBlock_fresh (encodeBlock : Block -> option bytes) (db : DB.leveldb)
    (block : Block) (marshaled : bytes) :
  encodeBlock block = Some marshaled ->
  HasBlock db (Hash_ block) = false ->
  PutBlock encodeBlock db block
  = (<[getBlockKey (Hash_ block) := marshaled]> db, None).
Proof.
  intros Henc Hfresh. unfold PutBlock. unfold HasBlock in Hfresh.
  by rewrite Henc, Hfresh.
Qed.

Lemma PutBlock_success (encodeBlock : Block -> option bytes) (db : DB.leveldb)
    (block : Block) :
  snd (PutBlock encodeBlock db block) = None ->
  exists marshaled,
    encodeBlock block = Some marshaled
    /\ HasBlock db (Hash_ block) = false
    /\ PutBlock encodeBlock db block
       = (<[getBlockKey (Hash_ block) := marshaled]> db, None).
Proof.
  unfold PutBlock, HasBlock.
  destruct (encodeBlock block) as [marshaled|]; [|done].
  destruct (internalHasBlock db _); [done|]. intros _. by exists marshaled.
Qed.

Lemma blockKey_not_tipKey (h : Hash) : getBlockKey h <> DB.compactionChainTipInfoKey.
Proof. unfold getBlockKey. intros [=]. Qed.

Lemma blockKey_not_prvKey (h : Hash) (r : Z) : getBlockKey h <> getDKGPrivateKeyKey r.
Proof. unfold getBlockKey, getDKGPrivateKeyKey. intros [=]. Qed.

Lemma blockKey_not_sharesKey (h : Hash) (r : Z) :
  getBlockKey h <> getDKGMasterPrivateSharesKey r.
Proof. unfold getBlockKey, getDKGMasterPrivateSharesKey. intros [=]. Qed.

Lemma prvKey_not_tipKey (r : Z) : getDKGPrivateKeyKey r <> DB.compactionChainTipInfoKey.
Proof. unfold getDKGPrivateKeyKey. intros [=]. Qed.

Lemma sharesKey_not_tipKey (r : Z) :
  getDKGMasterPrivateSharesKey r <> DB.compactionChainTipInfoKey.
Proof. unfold getDKGMasterPrivateSharesKey. intros [=]. Qed.

Lemma prvKey_not_sharesKey (r r' : Z) :
  getDKGPrivateKeyKey r <> getDKGMasterPrivateSharesKey r'.
Proof. unfold getDKGPrivateKeyKey, getDKGMasterPrivateSharesKey. intros [=]. Qed.

End StoreFacts2.

Section BlockStore.

Import Types Store.

(** What package rlp does with an [rlpBlock]. *)
Variable rlpEncode : rlpBlock -> option bytes.
Variable rlpDecode : bytes -> option rlpBlock.

(** X1: [PutBlock] of a block that encodes and whose hash is not in the
    store succeeds; then [HasBlock] holds for the hash, and [HasBlock] and
    [GetBlock] of every other hash are as before.  When package rlp reads
    back the [rlpBlock] it wrote, [GetBlock] of the hash returns the block
    as [Block.DecodeRLP] reads what [Block.EncodeRLP] wrote: with its two
    timestamps through [rlpTimestamp]. *)
Theorem PutBlock_GetBlock (db : DB.leveldb) (block : Block) (marshaled : bytes) :
  rlpEncode (Block_EncodeRLP block) = Some marshaled ->
  HasBlock db (Hash_ block) = false ->
  let put := PutBlock (rlpEncodeBlock rlpEncode) db block in
  snd put = None
  /\ HasBlock (fst put) (Hash_ block) = true
  /\ (forall h, h <> Hash_ block ->
        HasBlock (fst put) h = HasBlock db h
        /\ GetBlock (rlpDecodeBlock rlpDecode) (fst put) h
           = GetBlock (rlpDecodeBlock rlpDecode) db h)
  /\ (rlpDecode marshaled = Some (Block_EncodeRLP block) ->
      GetBlock (rlpDecodeBlock rlpDecode) (fst put) (Hash_ block)
      = Ok (Block_DecodeRLP (Block_EncodeRLP block))).
Proof.
  intros Henc Hfresh. cbv zeta.
  rewrite (PutBlock_fresh _ db block marshaled) by done. cbn [fst snd].
  split; [done|]. split; [|split].
  - rewrite HasBlock_insert. by rewrite decide_True.
  - intros h Hne. rewrite HasBlock_insert, GetBlock_insert.
    by rewrite !decide_False.
  - intros Hdec. rewrite GetBlock_insert, decide_True by done.
    unfold rlpDecodeBlock. by rewrite Hdec.
Qed.

(** X3: [UpdateBlock] of a block that encodes succeeds exactly when the hash
    of the block is in the store.  It then overwrites: the hashes in the
    store are the same, [GetBlock] of every other hash is as before and,
    when package rlp reads back the [rlpBlock] it wrote, [GetBlock] of the
    hash returns the new block as [Block.DecodeRLP] reads what
    [Block.EncodeRLP] wrote.  Otherwise it fails with
    [ErrBlockDoesNotExist], as [GetBlock] of the hash does, and the store is
    unchanged. *)
Theorem UpdateBlock_GetBlock (db : DB.leveldb) (block : Block) (marshaled : bytes) :
  rlpEncode (Block_EncodeRLP block) = Some marshaled ->
  let upd := UpdateBlock (rlpEncodeBlock rlpEncode) db block in
  (HasBlock db (Hash_ block) = true ->
   snd upd = None
   /\ (forall h, HasBlock (fst upd) h = HasBlock db h)
   /\ (forall h, h <> Hash_ block ->
         GetBlock (rlpDecodeBlock rlpDecode) (fst upd) h
         = GetBlock (rlpDecodeBlock rlpDecode) db h)
   /\ (rlpDecode marshaled = Some (Block_EncodeRLP block) ->
       GetBlock (rlpDecodeBlock rlpDecode) (fst upd) (Hash_ block)
       = Ok (Block_DecodeRLP (Block_EncodeRLP block))))
  /\ (HasBlock db (Hash_ block) = false ->
      upd = (db, Some ErrBlockDoesNotExist)
      /\ GetBlock (rlpDecodeBlock rlpDecode) db (Hash_ block)
         = Err ErrBlockDoesNotExist).
Proof.
  intros Henc. cbv zeta. unfold UpdateBlock, rlpEncodeBlock at 1 2 3 4 5.
  rewrite Henc. fold (HasBlock db (Hash_ block)). split.
  - intros Hhas. rewrite Hhas. cbn [negb fst snd].
    split; [done|]. split; [|split].
    + intros h. rewrite HasBlock_insert. case_decide; by subst.
    + intros h Hne. by rewrite GetBlock_insert, decide_False.
    + intros Hdec. rewrite GetBlock_insert, decide_True by done.
      unfold rlpDecodeBlock. by rewrite Hdec.
  - intros Hhas. rewrite Hhas. cbn [negb]. split; [done|].
    unfold GetBlock. unfold HasBlock, internalHasBlock in Hhas.
    apply bool_decide_eq_false in Hhas.
    destruct (db !! getBlockKey (Hash_ block)) eqn:E; [|done].
    exfalso. apply Hhas. by eexists.
Qed.

End BlockStore.

Section StoreProperties.

Import Types Store.

Variable encodeBlock : Block -> option bytes.
Variable decodeBlock : bytes -> option Block.
Variables PrivateKey PrivateKeyShares : Type.
Variable encodePrivateKey : PrivateKey -> option bytes.
Variable decodePrivateKey : bytes -> option PrivateKey.
Variable encodeShares : PrivateKeyShares -> option bytes.
Variable decodeShares : bytes -> option PrivateKeyShares.

(** X2: [PutBlock] never overwrites, whatever the codec.  After a
    successful [PutBlock], a [PutBlock] of any block with the same hash
    leaves the store as it is and fails: with [ErrBlockExists] when the
    second block encodes, with the error of the encoding otherwise.  So
    [GetBlock] returns what it returned after the first [PutBlock]. *)
Theorem PutBlock_twice (db : DB.leveldb) (block block' : Block) :
  Hash_ block' = Hash_ block ->
  snd (PutBlock encodeBlock db block) = None ->
  let db1 := fst (PutBlock encodeBlock db block) in
  let put2 := PutBlock encodeBlock db1 block' in
  fst put2 = db1
  /\ snd put2 = Some (match encodeBlock block' with
                      | Some _ => ErrBlockExists
                      | None => ErrRLP
                      end)
  /\ forall h, GetBlock decodeBlock (fst put2) h = GetBlock decodeBlock db1 h.
Proof.
  intros Hhash Hput. cbv zeta.
  destruct (PutBlock_success _ _ _ Hput) as (marshaled & Henc & Hfresh & ->).
  cbn [fst].
  assert (Hput2 : PutBlock encodeBlock
                    (<[getBlockKey (Hash_ block) := marshaled]> db) block'
                  = (<[getBlockKey (Hash_ block) := marshaled]> db,
                     Some (match encodeBlock block' with
                           | Some _ => ErrBlockExists
                           | None => ErrRLP
                           end))).
  { unfold PutBlock. destruct (encodeBlock block'); [|done].
    rewrite Hhash.
    fold (HasBlock (<[getBlockKey (Hash_ block) := marshaled]> db) (Hash_ block)).
    by rewrite HasBlock_insert, decide_True. }
  rewrite Hput2. by cbn [fst snd].
Qed.

(** X4: the DKG private key of a round is written once.  On a store without
    a key for the round, [PutDKGPrivateKey] succeeds; a second
    [PutDKGPrivateKey] for the round then fails with
    [ErrDKGPrivateKeyExists] whatever the key, and [GetDKGPrivateKey] returns
    the first key. *)
Theorem PutDKGPrivateKey_write_once (db : DB.leveldb) (round : Z)
    (prv prv' : PrivateKey) (marshaled : bytes) :
  encodePrivateKey prv = Some marshaled ->
  decodePrivateKey marshaled = Some prv ->
  HasDKGPrivateKey db round = false ->
  GetDKGPrivateKey decodePrivateKey db round = Err ErrDKGPrivateKeyDoesNotExist
  /\ snd (PutDKGPrivateKey encodePrivateKey db round prv) = None
  /\ PutDKGPrivateKey encodePrivateKey
       (fst (PutDKGPrivateKey encodePrivateKey db round prv)) round prv'
     = (fst (PutDKGPrivateKey encodePrivateKey db round prv),
        Some ErrDKGPrivateKeyExists)
  /\ GetDKGPrivateKey decodePrivateKey
       (fst (PutDKGPrivateKey encodePrivateKey db round prv)) round
     = Ok prv.
Proof.
  intros Henc Hdec Hfresh. split.
  - unfold GetDKGPrivateKey. unfold HasDKGPrivateKey in Hfresh.
    apply bool_decide_eq_false in Hfresh.
    destruct (db !! getDKGPrivateKeyKey round) eqn:E; [|done].
    exfalso. apply Hfresh. by eexists.
  - assert (Hput : PutDKGPrivateKey encodePrivateKey db round prv
                   = (<[getDKGPrivateKeyKey round := marshaled]> db, None)).
    { unfold PutDKGPrivateKey. by rewrite Hfresh, Henc. }
    rewrite Hput. cbn [fst snd]. split; [done|]. split.
    + unfold PutDKGPrivateKey, HasDKGPrivateKey. rewrite lookup_insert_eq.
      by rewrite bool_decide_eq_true_2.
    + unfold GetDKGPrivateKey. by rewrite lookup_insert_eq, Hdec.
Qed.

(** X5: the DKG master private shares of a round are created or replaced:
    after two [PutOrUpdateDKGMasterPrivateShares] for the round, both
    successful, [GetDKGMasterPrivateShares] returns the shares of the second;
    before any, it fails with [ErrDKGMasterPrivateSharesDoesNotExist]. *)
Theorem PutOrUpdateDKGMasterPrivateShares_replaces (db : DB.leveldb) (round : Z)
    (shares shares' : PrivateKeyShares) (marshaled marshaled' : bytes) :
  encodeShares shares = Some marshaled ->
  encodeShares shares' = Some marshaled' ->
  decodeShares marshaled' = Some shares' ->
  let db1 := fst (PutOrUpdateDKGMasterPrivateShares encodeShares db round shares) in
  let put2 := PutOrUpdateDKGMasterPrivateShares encodeShares db1 round shares' in
  snd put2 = None
  /\ GetDKGMasterPrivateShares decodeShares (fst put2) round = Ok shares'
  /\ (HasDKGMasterPrivateSharesKey db round = false ->
      GetDKGMasterPrivateShares decodeShares db round
      = Err ErrDKGMasterPrivateSharesDoesNotExist).
Proof.
  intros Henc Henc' Hdec'. cbv zeta.
  unfold PutOrUpdateDKGMasterPrivateShares. rewrite Henc, Henc'. cbn [fst snd].
  split; [done|]. split.
  - unfold GetDKGMasterPrivateShares. by rewrite lookup_insert_eq, Hdec'.
  - intros Hfresh. unfold GetDKGMasterPrivateShares.
    unfold HasDKGMasterPrivateSharesKey in Hfresh.
    apply bool_decide_eq_false in Hfresh.
    destruct (db !! getDKGMasterPrivateSharesKey round) eqn:E; [|done].
    exfalso. apply Hfresh. by eexists.
Qed.

(** X6: rounds and kinds do not interfere.  Writing the DKG private key of a
    [uint64] round leaves the private key of every other [uint64] round, the
    master private shares of every round, every block and the compaction
    chain tip as they were. *)
Theorem PutDKGPrivateKey_isolated (db : DB.leveldb) (round : Z) (prv : PrivateKey)
    (rlpDecode : bytes -> option DB.compactionChainTipInfo) :
  is_uint64 round ->
  let db' := fst (PutDKGPrivateKey encodePrivateKey db round prv) in
  (forall r, is_uint64 r -> r <> round ->
     GetDKGPrivateKey decodePrivateKey db' r
     = GetDKGPrivateKey decodePrivateKey db r)
  /\ (forall r, GetDKGMasterPrivateShares decodeShares db' r
                = GetDKGMasterPrivateShares decodeShares db r)
  /\ (forall h, GetBlock decodeBlock db' h = GetBlock decodeBlock db h)
  /\ DB.GetCompactionChainTipInfo rlpDecode db'
     = DB.GetCompactionChainTipInfo rlpDecode db.
Proof.
  intros Hround. cbv zeta. unfold PutDKGPrivateKey.
  destruct (HasDKGPrivateKey db round); [done|].
  destruct (encodePrivateKey prv) as [marshaled|]; [|done]. cbn [fst].
  split; [|split; [|split]].
  - intros r Hr Hne. unfold GetDKGPrivateKey.
    rewrite lookup_insert_ne; [done|].
    intros Heq. apply getDKGPrivateKeyKey_inj in Heq; done.
  - intros r. unfold GetDKGMasterPrivateShares.
    rewrite lookup_insert_ne; [done|]. apply prvKey_not_sharesKey.
  - intros h. unfold GetBlock. rewrite lookup_insert_ne; [done|].
    intros Heq. symmetry in Heq. by apply blockKey_not_prvKey in Heq.
  - unfold DB.GetCompactionChainTipInfo, DB.internalGetCompactionChainTipInfo.
    rewrite lookup_insert_ne; [done|]. apply prvKey_not_tipKey.
Qed.

(** X7: blocks and the tip do not interfere.  [PutBlock] and [UpdateBlock]
    leave the compaction chain tip and the DKG material as they were, and
    [PutCompactionChainTipInfo] leaves every block as it was. *)
Theorem blocks_and_tip_isolated (db : DB.leveldb) (block : Block)
    (rlpEncode : DB.compactionChainTipInfo -> bytes)
    (rlpDecode : bytes -> option DB.compactionChainTipInfo)
    (blockHash : Hash) (height : Z) :
  (forall db', db' = fst (PutBlock encodeBlock db block)
               \/ db' = fst (UpdateBlock encodeBlock db block) ->
     DB.GetCompactionChainTipInfo rlpDecode db'
     = DB.GetCompactionChainTipInfo rlpDecode db
     /\ (forall r, GetDKGPrivateKey decodePrivateKey db' r
                   = GetDKGPrivateKey decodePrivateKey db r)
     /\ (forall r, GetDKGMasterPrivateShares decodeShares db' r
                   = GetDKGMasterPrivateShares decodeShares db r))
  /\ (forall h,
        GetBlock decodeBlock
          (fst (DB.PutCompactionChainTipInfo rlpEncode rlpDecode db blockHash height)) h
        = GetBlock decodeBlock db h).
Proof.
  split.
  - assert (Hins : forall marshaled,
      let db' := <[getBlockKey (Hash_ block) := marshaled]> db in
      DB.GetCompactionChainTipInfo rlpDecode db'
      = DB.GetCompactionChainTipInfo rlpDecode db
      /\ (forall r, GetDKGPrivateKey decodePrivateKey db' r
                    = GetDKGPrivateKey decodePrivateKey db r)
      /\ (forall r, GetDKGMasterPrivateShares decodeShares db' r
                    = GetDKGMasterPrivateShares decodeShares db r)).
    { intros marshaled. cbv zeta. split; [|split].
      - unfold DB.GetCompactionChainTipInfo, DB.internalGetCompactionChainTipInfo.
        rewrite lookup_insert_ne; [done|]. apply blockKey_not_tipKey.
      - intros r. unfold GetDKGPrivateKey.
        rewrite lookup_insert_ne; [done|]. apply blockKey_not_prvKey.
      - intros r. unfold GetDKGMasterPrivateShares.
        rewrite lookup_insert_ne; [done|]. apply blockKey_not_sharesKey. }
    intros db' [-> | ->].
    + unfold PutBlock. destruct (encodeBlock block); [|done].
      destruct (internalHasBlock _ _); [done|]. apply Hins.
    + unfold UpdateBlock. destruct (encodeBlock block); [|done].
      destruct (internalHasBlock _ _); [|done]. apply Hins.
  - intros h. unfold DB.PutCompactionChainTipInfo.
    destruct (DB.internalGetCompactionChainTipInfo rlpDecode db) as [info [err|]];
      [done|].
    case_decide; [|done]. cbn [fst]. unfold GetBlock.
    rewrite lookup_insert_ne; [done|].
    intros Heq. symmetry in Heq. by apply blockKey_not_tipKey in Heq.
Qed.

End StoreProperties.

Lemma PutBlock_GetBlock_witness :
  Store.GetBlock Store.demoDecodeBlock
    (fst (Store.PutBlock Store.demoEncodeBlock ∅ (Types.demoBlock 0 1 [x01])))
    (Types.Hash_ (Types.demoBlock 0 1 [x01]))
  = Store.Ok (Types.Block_DecodeRLP
                (Types.Block_EncodeRLP (Types.demoBlock 0 1 [x01]))).
Proof.
  refine (proj2 (proj2 (proj2 (PutBlock_GetBlock Store.demoRlpEncode
    Store.demoRlpDecode ∅ (Types.demoBlock 0 1 [x01]) _ _ _))) _).
  - reflexivity.
  - apply HasBlock_empty.
  - vm_compute. reflexivity.
Defined.

Lemma PutBlock_twice_witness :
  let db1 := fst (Store.PutBlock Store.demoEncodeBlock ∅
                    (Types.demoBlock 0 1 [])) in
  Store.PutBlock Store.demoEncodeBlock db1 (Types.demoBlock 0 1 [x01])
  = (db1, Some Store.ErrBlockExists).
Proof.
  cbv zeta.
  pose proof (PutBlock_twice Store.demoEncodeBlock Store.demoDecodeBlock ∅
    (Types.demoBlock 0 1 []) (Types.demoBlock 0 1 [x01]) eq_refl) as H.
  cbv zeta in H. destruct H as (Hfst & Hsnd & _).
  - by rewrite (PutBlock_fresh _ ∅ _ _ eq_refl (HasBlock_empty _)).
  - rewrite (surjective_pairing
               (Store.PutBlock _ _ (Types.demoBlock 0 1 [x01]))).
    by rewrite Hfst, Hsnd.
Defined.

Lemma UpdateBlock_GetBlock_witness :
  let db1 := fst (Store.PutBlock Store.demoEncodeBlock ∅
                    (Types.demoBlock 0 1 [])) in
  let upd := Store.UpdateBlock Store.demoEncodeBlock db1
               (Types.demoBlock 0 1 [x01]) in
  snd upd = None
  /\ Store.GetBlock Store.demoDecodeBlock (fst upd)
       (Types.Hash_ (Types.demoBlock 0 1 [x01]))
     = Store.Ok (Types.Block_DecodeRLP
                   (Types.Block_EncodeRLP (Types.demoBlock 0 1 [x01]))).
Proof.
  cbv zeta.
  destruct (UpdateBlock_GetBlock Store.demoRlpEncode Store.demoRlpDecode
              (fst (Store.PutBlock Store.demoEncodeBlock ∅
                      (Types.demoBlock 0 1 [])))
              (Types.demoBlock 0 1 [x01]) _ eq_refl) as [Hupd _].
  destruct Hupd as (Hsnd & _ & _ & Hget).
  - rewrite (PutBlock_fresh _ ∅ _ _ eq_refl (HasBlock_empty _)). cbn [fst].
    rewrite HasBlock_insert. by rewrite decide_True.
  - split; [exact Hsnd|]. apply Hget. vm_compute. reflexivity.
Defined.

Lemma PutDKGPrivateKey_write_once_witness :
  Store.PutDKGPrivateKey Store.demoEncodeZ
    (fst (Store.PutDKGPrivateKey Store.demoEncodeZ ∅ 3 7)) 3 9
  = (fst (Store.PutDKGPrivateKey Store.demoEncodeZ ∅ 3 7),
     Some Store.ErrDKGPrivateKeyExists).
Proof.
  refine (proj1 (proj2 (proj2 (PutDKGPrivateKey_write_once Z
    Store.demoEncodeZ Store.demoDecodeZ ∅ 3 7 9 [x07] _ _ _)))).
  - reflexivity.
  - reflexivity.
  - apply bool_decide_eq_false. rewrite lookup_empty. by intros [? ?].
Defined.

Lemma PutOrUpdateDKGMasterPrivateShares_replaces_witness :
  Store.GetDKGMasterPrivateShares Store.demoDecodeZ
    (fst (Store.PutOrUpdateDKGMasterPrivateShares Store.demoEncodeZ
            (fst (Store.PutOrUpdateDKGMasterPrivateShares Store.demoEncodeZ
                    ∅ 3 7)) 3 9)) 3
  = Store.Ok 9.
Proof.
  refine (proj1 (proj2 (PutOrUpdateDKGMasterPrivateShares_replaces Z
    Store.demoEncodeZ Store.demoDecodeZ ∅ 3 7 9 [x07] [x09] _ _ _))).
  - reflexivity.
  - reflexivity.
  - reflexivity.
Defined.

Lemma PutDKGPrivateKey_isolated_witness :
  Store.GetDKGPrivateKey Store.demoDecodeZ
    (fst (Store.PutDKGPrivateKey Store.demoEncodeZ ∅ 3 7)) 4
  = Store.GetDKGPrivateKey Store.demoDecodeZ ∅ 4.
Proof.
  refine (proj1 (PutDKGPrivateKey_isolated
    Store.demoDecodeBlock Z Z Store.demoEncodeZ Store.demoDecodeZ
    Store.demoDecodeZ ∅ 3 7 DB.demoDecode _) 4 _ _).
  - unfold is_uint64. lia.
  - unfold is_uint64. lia.
  - lia.
Defined.

(** X8: reading the tip back.  On a store without a tip record
    [GetCompactionChainTipInfo] returns the zero hash and height 0.  After a
    [PutCompactionChainTipInfo(hash, height)] on a well-formed store, with a
    codec that reads back what it wrote, it returns [(hash, height)] when the
    call succeeded and what it returned before when the call failed: the tip
    height advances by one step or stays. *)
Theorem GetCompactionChainTipInfo_after_Put
    (rlpEncode : DB.compactionChainTipInfo -> bytes)
    (rlpDecode : bytes -> option DB.compactionChainTipInfo)
    (db : DB.leveldb) (blockHash : DB.Hash) (height : Z) :
  DB.tip_wf rlpDecode db ->
  rlpDecode (rlpEncode (DB.mkTip height blockHash))
  = Some (DB.mkTip height blockHash) ->
  (db !! DB.compactionChainTipInfoKey = None ->
   DB.GetCompactionChainTipInfo rlpDecode db = Some (DB.zeroHash, 0))
  /\ DB.GetCompactionChainTipInfo rlpDecode
       (fst (DB.PutCompactionChainTipInfo rlpEncode rlpDecode db blockHash height))
     = (if decide (wrap64 (DB.tipHeight rlpDecode db + 1) = height)
        then Some (blockHash, height)
        else DB.GetCompactionChainTipInfo rlpDecode db).
Proof.
  intros Hwf Hrt. split.
  - intros Hnone. unfold DB.GetCompactionChainTipInfo.
    by rewrite internalGet_missing.
  - destruct (internalGet_wf rlpDecode db Hwf) as (info & Hget & _).
    unfold DB.tipHeight, DB.PutCompactionChainTipInfo. rewrite Hget.
    cbn [fst]. case_decide; cbn [fst]; [|done].
    unfold DB.GetCompactionChainTipInfo, DB.internalGetCompactionChainTipInfo.
    by rewrite lookup_insert_eq, Hrt.
Qed.

Lemma GetCompactionChainTipInfo_after_Put_witness :
  DB.GetCompactionChainTipInfo DB.demoDecode
    (fst (DB.PutCompactionChainTipInfo DB.demoEncode DB.demoDecode ∅
            DB.zeroHash 1))
  = Some (DB.zeroHash, 1).
Proof.
  refine (proj2 (GetCompactionChainTipInfo_after_Put DB.demoEncode
            DB.demoDecode ∅ DB.zeroHash 1 _ _)).
  - intros queried Hq. rewrite lookup_empty in Hq. discriminate Hq.
  - vm_compute. reflexivity.
Defined.

(** ** Acks *)

Section AckFacts.

Import Types.

Lemma bytes_Compare_refl (a : bytes) : bytes_Compare a a = 0.
Proof.
  induction a as [|x a IH]; [done|]. simpl.
  by rewrite N.ltb_irrefl.
Qed.

Lemma to_N_inj (x y : byte) : Byte.to_N x = Byte.to_N y -> x = y.
Proof.
  intros H. apply (f_equal Byte.of_N) in H.
  rewrite !Byte.of_to_N in H. by injection H.
Qed.

Lemma bytes_Compare_range (a b : bytes) :
  bytes_Compare a b = -1 \/ bytes_Compare a b = 0 \/ bytes_Compare a b = 1.
Proof.
  revert b. induction a as [|x a IH]; intros [|y b]; simpl; auto.
  repeat case_match; auto.
Qed.

Lemma bytes_Compare_eq (a b : bytes) : bytes_Compare a b = 0 -> a = b.
Proof.
  revert b. induction a as [|x a IH]; intros [|y b]; simpl; try done.
  destruct (N.ltb_spec (Byte.to_N x) (Byte.to_N y)); [done|].
  destruct (N.ltb_spec (Byte.to_N y) (Byte.to_N x)); [done|].
  intros Hc. f_equal; [apply to_N_inj; lia|by apply IH].
Qed.

Lemma bytes_Compare_antisym (a b : bytes) :
  bytes_Compare a b <= 0 -> bytes_Compare b a <= 0 -> a = b.
Proof.
  revert b. induction a as [|x a IH]; intros [|y b]; simpl; try done.
  destruct (N.ltb_spec (Byte.to_N x) (Byte.to_N y));
    destruct (N.ltb_spec (Byte.to_N y) (Byte.to_N x)); try lia.
  intros Hc1 Hc2. f_equal; [apply to_N_inj; lia|by apply IH].
Qed.

Lemma bytes_Compare_trans (a b c : bytes) :
  bytes_Compare a b <= 0 -> bytes_Compare b c <= 0 -> bytes_Compare a c <= 0.
Proof.
  revert b c. induction a as [|x a IH]; intros [|y b] [|z c]; simpl; try done.
  destruct (N.ltb_spec (Byte.to_N x) (Byte.to_N y));
    destruct (N.ltb_spec (Byte.to_N y) (Byte.to_N x));
    destruct (N.ltb_spec (Byte.to_N y) (Byte.to_N z));
    destruct (N.ltb_spec (Byte.to_N z) (Byte.to_N y));
    destruct (N.ltb_spec (Byte.to_N x) (Byte.to_N z));
    destruct (N.ltb_spec (Byte.to_N z) (Byte.to_N x));
    try lia.
  apply IH.
Qed.

Lemma bytes_Compare_ge_le (a b : bytes) :
  0 <= bytes_Compare a b -> bytes_Compare b a <= 0.
Proof.
  revert b. induction a as [|x a IH]; intros [|y b]; simpl; try done.
  destruct (N.ltb_spec (Byte.to_N x) (Byte.to_N y));
    destruct (N.ltb_spec (Byte.to_N y) (Byte.to_N x)); try lia.
  apply IH.
Qed.

Lemma bytes_Compare_le_ge (a b : bytes) :
  bytes_Compare a b <= 0 -> 0 <= bytes_Compare b a.
Proof.
  revert b. induction a as [|x a IH]; intros [|y b]; simpl; try done.
  destruct (N.ltb_spec (Byte.to_N x) (Byte.to_N y));
    destruct (N.ltb_spec (Byte.to_N y) (Byte.to_N x)); try lia.
  apply IH.
Qed.

(** The bisection finds the boundary of a predicate that, once true, stays
    true. *)
Lemma sort_Search_loop_spec (n : nat) (f : nat -> bool) :
  (forall k l, (k <= l < n)%nat -> f k = true -> f l = true) ->
  forall (fuel i j : nat),
  (j - i <= fuel)%nat -> (i <= j <= n)%nat ->
  (forall k, (k < i)%nat -> f k = false) ->
  (forall k, (j <= k < n)%nat -> f k = true) ->
  let r := sort_Search_loop fuel f i j in
  (i <= r <= j)%nat
  /\ (forall k, (k < r)%nat -> f k = false)
  /\ (forall k, (r <= k < n)%nat -> f k = true).
Proof.
  intros Hmono. induction fuel as [|fuel IH]; intros i j Hfuel Hij Hlow Hhigh.
  - cbn [sort_Search_loop]. assert (i = j) as -> by lia. auto with lia.
  - cbn [sort_Search_loop]. destruct (Nat.ltb_spec i j) as [Hlt|Hge].
    + pose proof (Nat.div_mod_eq (i + j) 2) as Hdm.
      pose proof (Nat.mod_upper_bound (i + j) 2 ltac:(lia)) as Hm.
      set (h := ((i + j) / 2)%nat) in *.
      assert (Hh : (i <= h < j)%nat) by lia.
      destruct (f h) eqn:Hfh; cbn [negb].
      * destruct (IH i h) as (Hr & Hl & Hu); [lia|lia|done| |].
        -- intros k Hk. apply (Hmono h k); [lia|done].
        -- split; [lia|done].
      * destruct (IH (h + 1)%nat j) as (Hr & Hl & Hu); [lia|lia| |done|].
        -- intros k Hk. destruct (f k) eqn:Hfk; [|done].
           rewrite (Hmono k h) in Hfh; [done|lia|done].
        -- split; [lia|done].
    + assert (i = j) as -> by lia. auto with lia.
Qed.

Lemma sort_Search_spec (n : nat) (f : nat -> bool) :
  (forall k l, (k <= l < n)%nat -> f k = true -> f l = true) ->
  (sort_Search n f <= n)%nat
  /\ (forall k, (k < sort_Search n f)%nat -> f k = false)
  /\ (forall k, (sort_Search n f <= k < n)%nat -> f k = true).
Proof.
  intros Hmono. unfold sort_Search.
  destruct (sort_Search_loop_spec n f Hmono n 0%nat n) as (Hr & Hl & Hu);
    try lia; [intros; lia..|].
  split; [lia|done].
Qed.

End AckFacts.

(** X9: [IsAcking] is a membership test on sorted acks.  Whatever the acks,
    [IsAcking(hash)] only holds for a hash among them; and when the acks are
    in ascending order of [bytes.Compare], it holds for every hash among
    them. *)
Theorem IsAcking_iff_elem_of (b : Types.Block) (hash : Types.Hash) :
  (Types.IsAcking b hash = true -> hash ∈ Types.Acks b)
  /\ (Types.acks_sorted (Types.Acks b) ->
      hash ∈ Types.Acks b -> Types.IsAcking b hash = true).
Proof.
  split.
  - unfold Types.IsAcking. intros H.
    apply negb_true_iff, orb_false_iff in H as [_ H].
    apply negb_false_iff, bool_decide_eq_true in H.
    by apply list_elem_of_lookup_2 in H.
  - intros Hsorted Hin. unfold Types.IsAcking.
    generalize dependent (Types.Acks b). intros acks Hsorted Hin.
    set (f := fun i : nat =>
      match acks !! i with
      | Some ack => Types.bytes_Compare ack hash >=? 0
      | None => true
      end).
    set (n := length acks).
    assert (Hmono : forall k l, (k <= l < n)%nat -> f k = true -> f l = true).
    { intros k l Hkl. unfold f. cbv beta.
      destruct (acks !! k) as [ak|] eqn:Hk.
      2:{ apply lookup_ge_None in Hk. change (n <= k)%nat in Hk. lia. }
      destruct (acks !! l) as [al|] eqn:Hl; [|done].
      rewrite !Z.geb_leb. intros Hle. apply Z.leb_le in Hle. apply Z.leb_le.
      destruct (decide (k = l)) as [->|Hne]; [congruence|].
      pose proof (StronglySorted_lookup_lt _ _ Hsorted k l ak al
                    ltac:(lia) Hk Hl) as Hkl'.
      cbv beta in Hkl'.
      apply bytes_Compare_le_ge.
      eapply bytes_Compare_trans; [|exact Hkl'].
      by apply bytes_Compare_ge_le. }
    destruct (sort_Search_spec _ f Hmono) as (Hr & Hlow & Hhigh).
    set (idx := Types.sort_Search n f) in *.
    apply list_elem_of_lookup_1 in Hin as [k Hk].
    pose proof (lookup_lt_Some _ _ _ Hk) as Hklen. change (k < n)%nat in Hklen.
    assert (Hfk : f k = true).
    { unfold f. cbv beta. unfold Types.Hash in *.
      rewrite Hk, bytes_Compare_refl. done. }
    assert (Hidx : (idx <= k)%nat).
    { destruct (le_lt_dec idx k) as [|Hlt]; [done|].
      rewrite (Hlow k Hlt) in Hfk. done. }
    destruct (acks !! idx) as [a|] eqn:Ha.
    2:{ apply lookup_ge_None in Ha. change (n <= idx)%nat in Ha. lia. }
    assert (Hfi : f idx = true) by (apply Hhigh; lia).
    unfold f in Hfi. cbv beta in Hfi. unfold Types.Hash in *.
    rewrite Ha in Hfi. rewrite Z.geb_leb in Hfi. apply Z.leb_le in Hfi.
    assert (a = hash) as ->.
    { apply bytes_Compare_antisym; [|by apply bytes_Compare_ge_le].
      destruct (decide (idx = k)) as [Heq|Hne].
      - rewrite Heq in Ha. rewrite Hk in Ha. injection Ha as ->.
        by rewrite bytes_Compare_refl.
      - apply (StronglySorted_lookup_lt _ _ Hsorted idx k a hash
                 ltac:(lia) Ha Hk). }
    apply negb_true_iff, orb_false_iff. split.
    + apply Nat.eqb_neq. lia.
    + apply negb_false_iff. by apply bool_decide_eq_true.
Qed.

Lemma IsAcking_iff_elem_of_witness :
  Types.IsAcking
    (Types.mkBlock [] [] [] (Types.mkPosition 0 0 0)
       (Types.mkTime 0 0 Types.UTCLoc) [[x01]; [x01; x00]; [x02]] [] []
       (Types.mkWitness 0 [])
       (Types.mkFinalizationResult [] [] (Types.mkTime 0 0 Types.UTCLoc) 0)
       [] [])
    [x01; x00]
  = true.
Proof.
  refine (proj2 (IsAcking_iff_elem_of _ _) _ _).
  - repeat constructor; simpl; lia.
  - cbn [Types.Acks]. apply list_elem_of_further, list_elem_of_here.
Defined.

(** ** The timestamp codec, on all of its range *)

Section TimestampFacts2.

Import Types.

Lemma wrap64_to_int64 z : wrap64 (to_int64 z) = wrap64 z.
Proof.
  unfold to_int64, wrap64.
  rewrite Zminus_mod_idemp_l.
  replace (z + 2 ^ 63 - 2 ^ 63) with z by lia. reflexivity.
Qed.

Lemma to_int64_range z : is_int64 (to_int64 z).
Proof.
  unfold is_int64, to_int64.
  pose proof (Z.mod_pos_bound (z + 2 ^ 63) (2 ^ 64) ltac:(lia)). lia.
Qed.

End TimestampFacts2.

(** X10: times before the epoch survive the codec.  For every time whose
    count of nanoseconds since the epoch is an [int64] (from the year 1677
    to the year 2262), [EncodeRLP] writes the count itself when it is not
    negative and the count plus 2^64 when it is, and [DecodeRLP] of what
    [EncodeRLP] wrote is the same instant, in UTC. *)
Theorem rlpTimestamp_roundtrip_before_epoch (t : Types.Time) :
  Types.Time_valid t ->
  is_int64 (Types.unixNanos t) ->
  Types.rlpTimestamp_EncodeRLP t
  = (if Types.unixNanos t <? 0 then Types.unixNanos t + 2 ^ 64
     else Types.unixNanos t)
  /\ Types.rlpTimestamp_DecodeRLP (Types.rlpTimestamp_EncodeRLP t)
     = Types.Time_UTC t.
Proof.
  intros Hvalid Hrange. split; [|by apply rlpTimestamp_roundtrip_int64].
  unfold Types.rlpTimestamp_EncodeRLP, Types.Time_UnixNano.
  rewrite unixNanos_UTC, to_int64_small by done.
  unfold is_int64 in Hrange. unfold wrap64.
  destruct (Z.ltb_spec (Types.unixNanos t) 0).
  - rewrite <- (Z.mod_add _ 1) by lia. rewrite Z.mod_small; lia.
  - rewrite Z.mod_small; lia.
Qed.

Lemma rlpTimestamp_roundtrip_before_epoch_witness :
  Types.rlpTimestamp_EncodeRLP (Types.mkTime (-1) 999999999 Types.LocalLoc)
  = MaxUint64
  /\ Types.rlpTimestamp_DecodeRLP
       (Types.rlpTimestamp_EncodeRLP (Types.mkTime (-1) 999999999 Types.LocalLoc))
     = Types.mkTime (-1) 999999999 Types.UTCLoc.
Proof.
  refine (rlpTimestamp_roundtrip_before_epoch
            (Types.mkTime (-1) 999999999 Types.LocalLoc) _ _).
  - unfold Types.Time_valid. simpl. lia.
  - unfold is_int64, Types.unixNanos. simpl. lia.
Defined.

(** X11: the codec from the side of the wire.  Every [uint64] that
    [DecodeRLP] reads becomes a time in UTC with its nanoseconds in
    [0, 999999999], whose count of nanoseconds since the epoch is the
    [int64] reading of the number; and [EncodeRLP] of that time writes the
    number again.  So no two numbers decode to the same time. *)
Theorem rlpTimestamp_DecodeRLP_EncodeRLP (nano : Z) :
  is_uint64 nano ->
  Types.Time_valid (Types.rlpTimestamp_DecodeRLP nano)
  /\ Types.loc (Types.rlpTimestamp_DecodeRLP nano) = Types.UTCLoc
  /\ Types.unixNanos (Types.rlpTimestamp_DecodeRLP nano) = to_int64 nano
  /\ Types.rlpTimestamp_EncodeRLP (Types.rlpTimestamp_DecodeRLP nano) = nano.
Proof.
  intros Hnano.
  pose proof (to_int64_range nano) as Hn.
  set (n := to_int64 nano) in *.
  pose proof (Z.div_mod n 1000000000 ltac:(lia)) as Hdm.
  pose proof (Z.mod_pos_bound n 1000000000 ltac:(lia)) as Hm.
  assert (Hdec : Types.rlpTimestamp_DecodeRLP nano
                 = Types.mkTime (n / 1000000000) (n mod 1000000000) Types.UTCLoc).
  { unfold Types.rlpTimestamp_DecodeRLP. cbv zeta. fold n.
    replace n with (n / 1000000000 * 1000000000 + n mod 1000000000) at 1 2 by lia.
    rewrite time_Unix_quot_rem; [reflexivity|lia|].
    replace (n / 1000000000 * 1000000000 + n mod 1000000000) with n by lia.
    done. }
  rewrite Hdec.
  assert (Hnanos : Types.unixNanos
            (Types.mkTime (n / 1000000000) (n mod 1000000000) Types.UTCLoc) = n).
  { unfold Types.unixNanos. simpl. lia. }
  split; [exact Hm|]. split; [reflexivity|]. split; [exact Hnanos|].
  unfold Types.rlpTimestamp_EncodeRLP, Types.Time_UnixNano.
  rewrite unixNanos_UTC, Hnanos. unfold n.
  rewrite !wrap64_to_int64. by apply wrap64_small.
Qed.

Lemma rlpTimestamp_DecodeRLP_EncodeRLP_witness :
  Types.rlpTimestamp_EncodeRLP (Types.rlpTimestamp_DecodeRLP (2 ^ 63)) = 2 ^ 63.
Proof.
  refine (proj2 (proj2 (proj2 (rlpTimestamp_DecodeRLP_EncodeRLP (2 ^ 63) _)))).
  unfold is_uint64. lia.
Defined.

(** ** DexconApp: nonces, funds, witnesses and payloads *)

Section AppFacts2.

Import Types App.

Lemma validateNonce_loop_senders (txs : list Transaction) :
  forall first last m,
  validateNonce_loop txs first last = Some m ->
  Forall (fun tx => is_Some (txFrom tx)) txs.
Proof.
  induction txs as [|tx rest IH]; intros first last m Hloop; [constructor|].
  cbn [validateNonce_loop] in Hloop.
  destruct (txFrom tx) as [from|] eqn:Hfrom; [|done].
  constructor; [by rewrite Hfrom|].
  destruct (first !! from); [case_decide; [|done]|]; eauto.
Qed.

Lemma validateNonce_loop_complete (txs : list Transaction) :
  forall first last,
  Forall (fun tx => is_Some (txFrom tx)) txs ->
  (forall a, chained (lastSeen first last a) (txsOf a txs)) ->
  is_Some (validateNonce_loop txs first last).
Proof.
  induction txs as [|tx rest IH]; intros first last Hfrom Hch; [by eexists|].
  apply Forall_cons in Hfrom as [[from Hf] Hrest].
  cbn [validateNonce_loop]. rewrite Hf.
  pose proof (Hch from) as Hmine. rewrite txsOf_cons_eq in Hmine by done.
  destruct Hmine as [Hnext Hmine].
  destruct (first !! from) as [f|] eqn:Hfirst.
  - unfold lastSeen in Hnext. rewrite Hfirst in Hnext.
    rewrite decide_True by done.
    apply IH; [done|]. intros a. destruct (decide (a = from)) as [->|Hne].
    + unfold lastSeen. rewrite Hfirst, lookup_insert_eq. exact Hmine.
    + specialize (Hch a). rewrite txsOf_cons_ne in Hch by congruence.
      unfold lastSeen in *. by rewrite lookup_insert_ne.
  - apply IH; [done|]. intros a. destruct (decide (a = from)) as [->|Hne].
    + unfold lastSeen. rewrite !lookup_insert_eq. exact Hmine.
    + specialize (Hch a). rewrite txsOf_cons_ne in Hch by congruence.
      unfold lastSeen in *. by rewrite !lookup_insert_ne.
Qed.

(** What a loop of [VerifyBlock] over the transactions that ends in OK has
    checked. *)
Lemma VerifyBlock_txLoop_OK (d : DexconApp) (txs : list Transaction) :
  forall balances used limit,
  VerifyBlock_txLoop d txs balances used limit = Ret VerifyOK ->
  Forall (fun tx => exists intrGas,
            IntrinsicGas d (txData tx) (bool_decide (txTo tx = None)) = Some intrGas
            /\ intrGas <= txGas tx) txs
  /\ forall s, txsOf s txs <> [] ->
       exists balance, balances !! s = Some balance
                       /\ totalCost (txsOf s txs) <= balance.
Proof.
  induction txs as [|tx rest IH]; intros balances used limit Hok.
  - split; [constructor|]. intros s Hs. done.
  - cbn [VerifyBlock_txLoop] in Hok.
    destruct (txFrom tx) as [from|] eqn:Hfrom; [|done].
    destruct (IntrinsicGas d _ _) as [intrGas|] eqn:Hintr; [|done].
    destruct (Z.ltb_spec (txGas tx) intrGas) as [|Hgas]; [done|].
    destruct (balances !! from) as [balance|] eqn:Hbal; [|done].
    destruct (Z.ltb_spec (balance - Cost tx) 0) as [|Hcost]; [done|].
    destruct (used + txGas tx >? limit); [done|].
    destruct (IH _ _ _ Hok) as [Hall Hfunds].
    split; [constructor; [by exists intrGas|done]|].
    intros s Hs. destruct (decide (s = from)) as [->|Hne].
    + rewrite txsOf_cons_eq in * by done. exists balance. split; [done|].
      cbn [totalCost foldr]. fold (totalCost (txsOf from rest)).
      destruct (txsOf from rest) as [|tx1 mine] eqn:Hmine.
      * simpl. lia.
      * destruct (Hfunds from) as (b' & Hb' & Hle); [by rewrite Hmine|].
        rewrite lookup_insert_eq in Hb'. injection Hb' as <-.
        rewrite Hmine in Hle. lia.
    + rewrite txsOf_cons_ne in * by congruence.
      destruct (Hfunds s Hs) as (b' & Hb' & Hle).
      rewrite lookup_insert_ne in Hb' by done. eauto.
Qed.

Lemma VerifyBlock_txLoop_not_retry (d : DexconApp) (txs : list Transaction) :
  forall balances used limit,
  VerifyBlock_txLoop d txs balances used limit <> Ret VerifyRetryLater.
Proof.
  induction txs as [|tx rest IH]; intros balances used limit; [done|].
  cbn [VerifyBlock_txLoop]. repeat case_match; done || apply IH.
Qed.

End AppFacts2.

(** X12: what [validateNonce] accepts.  It returns a map (and no error)
    exactly when the sender of every transaction is recovered and, for every
    sender, each nonce after the sender's first is the [uint64] successor of
    the sender's nonce before it, in the order of the list; the map it
    returns then binds every sender to the nonce of its first transaction,
    and binds no other address. *)
Theorem validateNonce_iff (txs : list App.Transaction) :
  (is_Some (App.validateNonce txs)
   <-> Forall (fun tx => is_Some (App.txFrom tx)) txs
       /\ forall s, App.chained None (App.txsOf s txs))
  /\ forall m, App.validateNonce txs = Some m ->
       forall s, m !! s = App.txNonce <$> head (App.txsOf s txs).
Proof.
  split; [split|].
  - intros [m Hm]. split.
    + by eapply validateNonce_loop_senders.
    + intros s. destruct (validateNonce_loop_chained txs ∅ ∅ m Hm s) as [Hch _].
      by eapply chained_weaken.
  - intros [Hfrom Hch]. apply validateNonce_loop_complete; [done|].
    intros a. unfold App.lastSeen. rewrite lookup_empty. apply Hch.
  - intros m Hm s.
    destruct (validateNonce_loop_chained txs ∅ ∅ m Hm s) as [_ Hs].
    by rewrite lookup_empty in Hs.
Qed.

(** X13: an accepted payload only holds transactions of the block's chain.
    When [VerifyBlock] returns OK on a non-empty payload, every transaction
    of the decoded payload has a recovered sender [s], the number of chains
    of the block's round is not zero, and [s] modulo that number is the
    chain id of the block. *)
Theorem VerifyBlock_senders_on_chain (d : App.DexconApp) (block : Types.Block) :
  App.VerifyBlock d block = App.Ret App.VerifyOK ->
  Types.Payload block <> [] ->
  exists txs,
    App.decodeTransactions d (Types.Payload block) = Some txs
    /\ forall tx, tx ∈ txs ->
         exists s, App.txFrom tx = Some s
           /\ App.NumChains d (Types.Round (Types.Position_ block)) <> 0
           /\ s mod Z.abs (App.NumChains d (Types.Round (Types.Position_ block)))
              = Types.ChainID (Types.Position_ block).
Proof.
  intros Hok Hpayload.
  destruct (VerifyBlock_OK_inv d block Hok Hpayload)
    as (root & currentState & txs & addressNonce
        & Hroot & Hstate & Hdec & Hvalid & Hsenders & _).
  exists txs. split; [done|]. intros tx Hin.
  pose proof (validateNonce_loop_senders _ _ _ _ Hvalid) as Hfrom.
  rewrite Forall_forall in Hfrom. destruct (Hfrom tx Hin) as [s Hs].
  exists s. split; [done|].
  destruct (validateNonce_loop_chained txs ∅ ∅ addressNonce Hvalid s) as [_ Hm].
  rewrite lookup_empty in Hm.
  assert (Hmine : tx ∈ App.txsOf s txs).
  { unfold App.txsOf. by apply list_elem_of_filter. }
  destruct (App.txsOf s txs) as [|tx0 mine]; [by apply elem_of_nil in Hmine|].
  simpl in Hm. apply elem_of_map_to_list in Hm.
  destruct (VerifyBlock_checkSenders_true _ _ _ _ _ _ Hsenders _ _ Hm)
    as [_ Hb].
  unfold App.addrBelongsToChain in Hb.
  destruct (Z.eqb_spec (App.NumChains d (Types.Round (Types.Position_ block))) 0);
    [done|].
  split; [done|]. injection Hb as Hb. by apply Z.eqb_eq in Hb.
Qed.

(** X14: an accepted payload is paid for.  When [VerifyBlock] returns OK on
    a non-empty payload, every transaction carries at least its intrinsic
    gas, and for every sender the costs ([gas * gasPrice + value]) of all of
    its transactions in the payload add up to at most its balance in the
    state at the chain root, less the cost of the sender in the confirmed
    blocks of the chain when there is one. *)
Theorem VerifyBlock_funds_cover_costs (d : App.DexconApp) (block : Types.Block) :
  App.VerifyBlock d block = App.Ret App.VerifyOK ->
  Types.Payload block <> [] ->
  exists root currentState txs,
    App.chainRoot d !! Types.ChainID (Types.Position_ block) = Some root
    /\ App.StateAt d root = Some currentState
    /\ App.decodeTransactions d (Types.Payload block) = Some txs
    /\ (forall tx, tx ∈ txs ->
          exists intrGas,
            App.IntrinsicGas d (App.txData tx) (bool_decide (App.txTo tx = None))
            = Some intrGas
            /\ intrGas <= App.txGas tx)
    /\ forall s, App.txsOf s txs <> [] ->
         App.totalCost (App.txsOf s txs)
         <= App.GetBalance currentState s
            - default 0 (App.GetCostInConfirmedBlocks d
                           (Types.ChainID (Types.Position_ block)) s).
Proof.
  intros Hok Hpayload.
  destruct (VerifyBlock_OK_inv d block Hok Hpayload)
    as (root & currentState & txs & addressNonce
        & Hroot & Hstate & Hdec & Hvalid & _ & Hloop).
  exists root, currentState, txs. do 3 (split; [done|]).
  destruct (VerifyBlock_txLoop_OK _ _ _ _ _ Hloop) as [Hall Hfunds].
  split; [by apply Forall_forall|].
  intros s Hs. destruct (Hfunds s Hs) as (balance & Hbal & Hle).
  unfold App.VerifyBlock_balances in Hbal.
  rewrite map_lookup_imap in Hbal.
  destruct (addressNonce !! s); [|done]. simpl in Hbal.
  destruct (App.GetCostInConfirmedBlocks d _ s); simpl;
    injection Hbal as <-; lia.
Qed.

(** X15: "retry later" is decided by the witness and the position alone.
    When [VerifyBlock] answers [VerifyRetryLater] for a block, it gives the
    same answer for every block with the same witness and the same position,
    whatever its payload and its other fields. *)
Theorem VerifyBlock_retry_later_ignores_payload
    (d : App.DexconApp) (block block' : Types.Block) :
  Types.Witness_ block' = Types.Witness_ block ->
  Types.Position_ block' = Types.Position_ block ->
  App.VerifyBlock d block = App.Ret App.VerifyRetryLater ->
  App.VerifyBlock d block' = App.Ret App.VerifyRetryLater.
Proof.
  intros Hw Hp. unfold App.VerifyBlock. rewrite Hw, Hp.
  destruct (App.decodeHash d _); [|done].
  destruct (_ <? _); [done|].
  destruct (App.GetBlockByNumber d _); [|done].
  destruct (negb _); [done|].
  destruct (App.StateAt d _); [|done].
  destruct (_ && _); [done|].
  match goal with
  | |- context [match ?g with App.Ret _ => _ | App.Panic => _ end] =>
      destruct g as [[|]|]
  end; [by destruct (0 <? _)| |done].
  destruct (App.chainRoot d !! _); [|done].
  destruct (App.StateAt d _); [|done].
  destruct (length (Types.Payload block) =? 0)%nat; [done|].
  destruct (App.decodeTransactions d (Types.Payload block)); [|done].
  destruct (negb _); [done|].
  destruct (App.validateNonce _); [|done].
  destruct (App.VerifyBlock_checkSenders _ _ _ _ _ _) as [[|]|]; [|done..].
  intros H. by apply VerifyBlock_txLoop_not_retry in H.
Qed.

(** X16: [PrepareWitness] and the witness checks of [VerifyBlock].  On a
    chain whose current block is the block at its own number, with a state
    at its root, and with a hash codec that reads back what it wrote:
    [PrepareWitness(h)] succeeds exactly when [h] is at most the current
    height and the hash encodes, and the witness is then the current height
    with the encoded hash of the current block; below [h] it fails with
    "current height < consensus height" and the zero witness.  A block that
    carries a witness from [PrepareWitness] passes the witness checks of
    [VerifyBlock]: with an empty payload it is never Invalid, as long as the
    state at the root of its chain (if the chain has a root) exists. *)
Theorem PrepareWitness_accepted_by_VerifyBlock
    (d : App.DexconApp) (encodeHash : Types.Hash -> option bytes)
    (consensusHeight : Z) (st : App.StateDB) :
  App.GetBlockByNumber d (App.NumberU64 (App.CurrentBlock d))
  = Some (App.CurrentBlock d) ->
  App.StateAt d (App.Root (App.CurrentBlock d)) = Some st ->
  (forall data, encodeHash (App.EthHash (App.CurrentBlock d)) = Some data ->
     App.decodeHash d data = Some (App.EthHash (App.CurrentBlock d))) ->
  (forall w, App.PrepareWitness d encodeHash consensusHeight = (w, None) <->
     consensusHeight <= App.NumberU64 (App.CurrentBlock d)
     /\ exists data, encodeHash (App.EthHash (App.CurrentBlock d)) = Some data
          /\ w = Types.mkWitness (App.NumberU64 (App.CurrentBlock d)) data)
  /\ (App.NumberU64 (App.CurrentBlock d) < consensusHeight ->
      App.PrepareWitness d encodeHash consensusHeight
      = (App.zeroWitness, Some App.ErrCurrentHeightTooLow))
  /\ forall block,
       App.PrepareWitness d encodeHash consensusHeight
       = (Types.Witness_ block, None) ->
       (Types.Height (Types.Position_ block) = 0
        \/ App.GetChainLastConfirmedHeight d (Types.ChainID (Types.Position_ block))
           = Some (Types.Height (Types.Position_ block) - 1) ->
        App.passesWitnessAndHeightChecks d block)
       /\ (Types.Payload block = [] ->
           (forall root,
              App.chainRoot d !! Types.ChainID (Types.Position_ block) = Some root ->
              is_Some (App.StateAt d root)) ->
           App.VerifyBlock d block <> App.Ret App.VerifyInvalidBlock).
Proof.
  intros Hget Hstate Hcodec.
  assert (Hiff : forall w,
    App.PrepareWitness d encodeHash consensusHeight = (w, None) <->
    consensusHeight <= App.NumberU64 (App.CurrentBlock d)
    /\ exists data, encodeHash (App.EthHash (App.CurrentBlock d)) = Some data
         /\ w = Types.mkWitness (App.NumberU64 (App.CurrentBlock d)) data).
  { intros w. unfold App.PrepareWitness. rewrite Z.geb_leb.
    destruct (Z.leb_spec consensusHeight (App.NumberU64 (App.CurrentBlock d))).
    - destruct (encodeHash _) as [data|].
      + split.
        * intros [= <-]. eauto.
        * intros (_ & data' & [= <-] & ->). done.
      + split; [done|]. by intros (_ & data' & ? & _).
    - split; [done|]. intros [? _]. lia. }
  split; [exact Hiff|]. split.
  - intros Hlow. unfold App.PrepareWitness. rewrite Z.geb_leb.
    destruct (Z.leb_spec consensusHeight (App.NumberU64 (App.CurrentBlock d)));
      [lia|done].
  - intros block Hw. apply Hiff in Hw as (Hle & data & Henc & Hw).
    pose proof (Hcodec data Henc) as Hdec.
    split.
    + intros Hprev. exists (App.CurrentBlock d), st. rewrite Hw. simpl.
      split; [done|]. split; [lia|]. done.
    + intros Hpayload Hroot. unfold App.VerifyBlock.
      rewrite Hw, Hpayload. cbn [Types.wData Types.wHeight].
      rewrite Hdec, Z.ltb_irrefl, Hget.
      rewrite bool_decide_eq_true_2 by done. cbn [negb]. rewrite Hstate.
      destruct (_ && _); [done|].
      match goal with
      | |- context [match ?g with App.Ret _ => _ | App.Panic => _ end] =>
          destruct g as [[|]|]
      end; [done| |done].
      destruct (App.chainRoot d !! _) as [root|] eqn:Hr; [|done].
      destruct (Hroot root eq_refl) as [st' ->]. done.
Qed.

Lemma PrepareWitness_accepted_by_VerifyBlock_witness :
  let d := App.demoApp (fun _ => 1) 50000 50000 0 [] in
  App.PrepareWitness d Some 0 = (Types.mkWitness 0 [x2a], None)
  /\ App.passesWitnessAndHeightChecks d (Types.demoBlock 0 0 []).
Proof.
  cbv zeta. split; [reflexivity|].
  refine (proj1 (proj2 (proj2 (PrepareWitness_accepted_by_VerifyBlock
    (App.demoApp (fun _ => 1) 50000 50000 0 []) Some 0 (App.demoState 0) _ _ _))
    (Types.demoBlock 0 0 []) _) _).
  - reflexivity.
  - reflexivity.
  - intros data [= <-]. reflexivity.
  - reflexivity.
  - left. reflexivity.
Defined.

Section PayloadFacts.

Import Types App.

Variable d : DexconApp.

Lemma totalGasInt64_app (l1 l2 : list Transaction) :
  totalGasInt64 (l1 ++ l2) = totalGasInt64 l1 + totalGasInt64 l2.
Proof. induction l1 as [|tx l1 IH]; simpl; [done|]. rewrite IH. lia. Qed.

(** The loop over the transactions of one address takes an initial part of
    them. *)
Lemma preparePayload_txLoop_spec (txs : list Transaction) :
  forall balance used limit allTxs,
  exists added,
    added `prefix_of` txs
    /\ Forall (gasOK d) added
    /\ (added <> [] -> totalCost added <= balance)
    /\ match preparePayload_txLoop d txs balance used limit allTxs with
       | LoopError _ => True
       | LoopNext used' allTxs' =>
           allTxs' = allTxs ++ added
           /\ used' = used + totalGasInt64 added
           /\ (added <> [] -> used' <= limit)
       | LoopBreakAddressMap allTxs' =>
           allTxs' = allTxs ++ added
           /\ (added <> [] -> used + totalGasInt64 added <= limit)
       end.
Proof.
  induction txs as [|tx rest IH]; intros balance used limit allTxs.
  - exists []. cbn [preparePayload_txLoop]. rewrite app_nil_r. simpl.
    repeat split; try done. lia.
  - cbn [preparePayload_txLoop].
    assert (Hnil : forall used',
              [] `prefix_of` tx :: rest /\ Forall (gasOK d) []
              /\ (@nil Transaction <> [] -> totalCost [] <= balance)
              /\ allTxs = allTxs ++ []
              /\ used' = used' + totalGasInt64 []
              /\ (@nil Transaction <> [] -> used' <= limit)).
    { intros used'. rewrite app_nil_r. simpl.
      repeat split; try done; [apply prefix_nil|lia]. }
    destruct (IntrinsicGas d _ _) as [intrGas|] eqn:Hintr.
    2:{ exists []. destruct (Hnil used) as (? & ? & ? & _). done. }
    destruct (Z.ltb_spec (txGas tx) intrGas) as [|Hgas].
    { exists []. destruct (Hnil used) as (? & ? & ? & ? & ? & ?). done. }
    destruct (Z.ltb_spec (balance - Cost tx) 0) as [|Hcost].
    { exists []. destruct (Hnil used) as (? & ? & ? & ? & ? & ?). done. }
    destruct (Z.gtb_spec (used + to_int64 (txGas tx)) limit) as [|Hlimit].
    { exists []. destruct (Hnil used) as (? & ? & ? & ? & ? & ?). done. }
    destruct (IH (balance - Cost tx) (used + to_int64 (txGas tx)) limit
                 (allTxs ++ [tx])) as (added & Hpre & Hok & Hfunds & Hres).
    exists (tx :: added).
    split; [by apply prefix_cons|].
    split; [constructor; [by exists intrGas|done]|].
    assert (Hgasle : added <> [] \/ added = []) by (destruct added; auto).
    split.
    { intros _. cbn [totalCost foldr]. fold (totalCost added).
      destruct Hgasle as [Hne| ->]; [specialize (Hfunds Hne); lia|simpl; lia]. }
    destruct (preparePayload_txLoop d rest _ _ _ _) as [err|used' allTxs'|allTxs'];
      [done| |].
    + destruct Hres as (-> & -> & Hle).
      rewrite <- app_assoc. cbn [totalGasInt64 foldr]. fold (totalGasInt64 added).
      split; [done|]. split; [lia|]. intros _.
      destruct Hgasle as [Hne| ->]; [by apply Hle|simpl; lia].
    + destruct Hres as (-> & Hle).
      rewrite <- app_assoc. cbn [totalGasInt64 foldr]. fold (totalGasInt64 added).
      split; [done|]. intros _.
      destruct Hgasle as [Hne| ->]; [specialize (Hle Hne); lia|simpl; lia].
Qed.

Lemma preparePayload_addressMap_spec (position : Position)
    (currentState : StateDB) (full : list (Address * list Transaction)) :
  forall (pending done : list (Address * list Transaction)) (live : nat)
         (used : Z) (segs : list (Address * list Transaction)) (payload : bytes),
  full = done ++ pending ->
  Forall (selectedRun d position currentState full) segs ->
  segs.*1 `sublist_of` done.*1 ->
  used = totalGasInt64 (concat segs.*2) ->
  (concat segs.*2 <> [] -> used <= GasLimit (CurrentBlock d)) ->
  preparePayload_addressMap d position currentState live pending used
    (concat segs.*2) = Ret (Some payload, None) ->
  exists segs',
    encodeTransactions d (concat segs'.*2) = Some payload
    /\ Forall (selectedRun d position currentState full) segs'
    /\ segs'.*1 `sublist_of` full.*1
    /\ (concat segs'.*2 <> [] ->
        totalGasInt64 (concat segs'.*2) <= GasLimit (CurrentBlock d)).
Proof.
  assert (Hfinish : forall pending done used segs payload,
    full = done ++ pending ->
    Forall (selectedRun d position currentState full) segs ->
    segs.*1 `sublist_of` done.*1 ->
    used = totalGasInt64 (concat segs.*2) ->
    (concat segs.*2 <> [] -> used <= GasLimit (CurrentBlock d)) ->
    match encodeTransactions d (concat segs.*2) with
    | Some payload0 => Ret (Some payload0, None)
    | None => Ret (None, Some ErrEncode)
    end = Ret (Some payload, None) ->
    exists segs',
      encodeTransactions d (concat segs'.*2) = Some payload
      /\ Forall (selectedRun d position currentState full) segs'
      /\ segs'.*1 `sublist_of` full.*1
      /\ (concat segs'.*2 <> [] ->
          totalGasInt64 (concat segs'.*2) <= GasLimit (CurrentBlock d))).
  { intros pending done used segs payload -> Hsegs Hsub -> Hle Henc.
    exists segs. destruct (encodeTransactions d _) as [p|] eqn:Hp; [|done].
    injection Henc as ->. split; [done|]. split; [done|]. split; [|done].
    rewrite fmap_app. by apply sublist_inserts_r. }
  induction pending as [|[address txs] pending IH];
    intros done live used segs payload Hfull Hsegs Hsub Hused Hle Hres.
  { destruct live; cbn [preparePayload_addressMap] in Hres; eauto. }
  destruct live as [|live]; cbn [preparePayload_addressMap] in Hres; [eauto|].
  assert (Hfull' : full = (done ++ [(address, txs)]) ++ pending)
    by (by rewrite <- app_assoc).
  assert (Hsub' : segs.*1 `sublist_of` (done ++ [(address, txs)]).*1)
    by (rewrite fmap_app; by apply sublist_inserts_r).
  destruct (addrBelongsToChain address _ _) as [[|]|] eqn:Hbelongs; [| |done].
  2:{ by eapply (IH (done ++ [(address, txs)])). }
  destruct txs as [|tx0 txs'] eqn:Htxs.
  { by eapply (IH (done ++ [(address, [])])). }
  rewrite <- Htxs in *.
  fold (expectedNonce d currentState (ChainID position) address) in Hres.
  assert (Hhead : head txs = Some tx0) by (by rewrite Htxs).
  set (startIndex := to_int64 (wrap64
         (expectedNonce d currentState (ChainID position) address - txNonce tx0)))
    in *.
  destruct (Z.ltb_spec startIndex 0) as [|Hstart].
  { by eapply (IH (done ++ [(address, txs)])). }
  set (balance := match GetCostInConfirmedBlocks d (ChainID position) address with
                  | Some cost => GetBalance currentState address - cost
                  | None => GetBalance currentState address
                  end) in *.
  destruct (preparePayload_txLoop_spec (drop (Z.to_nat startIndex) txs)
              balance used (GasLimit (CurrentBlock d)) (concat segs.*2))
    as (added & Hpre & Hok & Hfunds & Hloop).
  assert (Hrun : selectedRun d position currentState full (address, added)).
  { exists txs, tx0. cbn [fst snd]. fold startIndex.
    split; [rewrite Hfull; set_solver|].
    do 4 (split; [done|]). split; [done|].
    intros Hne. specialize (Hfunds Hne). unfold balance in Hfunds.
    destruct (GetCostInConfirmedBlocks d _ _); simpl; lia. }
  assert (Hconcat : concat (segs ++ [(address, added)]).*2
                    = concat segs.*2 ++ added).
  { rewrite fmap_app, concat_app. simpl. by rewrite app_nil_r. }
  assert (Hsegs' : Forall (selectedRun d position currentState full)
                     (segs ++ [(address, added)])).
  { apply Forall_app. split; [done|]. by constructor. }
  assert (Hsub'' : (segs ++ [(address, added)]).*1
                   `sublist_of` (done ++ [(address, txs)]).*1).
  { rewrite !fmap_app. by apply sublist_app. }
  destruct (preparePayload_txLoop d _ _ _ _ _) as [err|used' allTxs'|allTxs'];
    [done| |].
  - destruct Hloop as (-> & -> & Hle').
    rewrite <- Hconcat in Hres.
    eapply (IH (done ++ [(address, txs)])); [done..| | |exact Hres].
    + rewrite Hconcat, totalGasInt64_app. lia.
    + rewrite Hconcat. intros Hne. destruct added as [|tx1 added].
      * simpl. rewrite Z.add_0_r. apply Hle. by rewrite app_nil_r in Hne.
      * by apply Hle'.
  - destruct Hloop as (-> & Hle').
    rewrite <- Hconcat in Hres.
    eapply (Hfinish pending (done ++ [(address, txs)])); [done..| | |exact Hres].
    + reflexivity.
    + rewrite Hconcat, totalGasInt64_app. rewrite Hused in *.
      intros Hne. destruct added as [|tx1 added].
      * simpl. rewrite Z.add_0_r. apply Hle. by rewrite app_nil_r in Hne.
      * by apply Hle'.
Qed.

End PayloadFacts.

(** X17: what [preparePayload] puts into a payload.  A payload that
    [preparePayload] returns encodes the concatenation of runs of
    transactions, at most one run per pending address and in the order the
    pending addresses are ranged over; each run is taken from an address
    that belongs to the chain of the position, is an initial part of its
    pending list from the index [expectNonce - firstNonce] on, holds only
    transactions with at least their intrinsic gas, and costs at most the
    balance of the address (less its cost in the confirmed blocks); and the
    gas of the whole payload, summed through [int64], is at most the gas
    limit of the current block. *)
Theorem preparePayload_selects (d : App.DexconApp) (live : nat)
    (position : Types.Position) (payload : bytes) :
  App.preparePayload d live position = App.Ret (Some payload, None) ->
  exists root currentState txsMap segs,
    App.chainRoot d !! Types.ChainID position = Some root
    /\ App.StateAt d root = Some currentState
    /\ App.Pending d = Some txsMap
    /\ App.encodeTransactions d (concat segs.*2) = Some payload
    /\ Forall (App.selectedRun d position currentState txsMap) segs
    /\ segs.*1 `sublist_of` txsMap.*1
    /\ (concat segs.*2 <> [] ->
        App.totalGasInt64 (concat segs.*2) <= App.GasLimit (App.CurrentBlock d)).
Proof.
  intros Hres. unfold App.preparePayload in Hres.
  destruct live as [|live]; [done|].
  match type of Hres with
  | match ?g with App.Ret _ => _ | App.Panic => _ end = _ =>
      destruct g as [[|]|]; [done| |done]
  end.
  destruct (_ && _); [done|].
  destruct (App.chainRoot d !! _) as [root|] eqn:Hroot; [|done].
  destruct (App.StateAt d root) as [currentState|] eqn:Hstate; [|done].
  destruct (App.Pending d) as [txsMap|] eqn:Hpending; [|done].
  exists root, currentState, txsMap.
  destruct (preparePayload_addressMap_spec d position currentState txsMap
              txsMap [] live 0 [] payload) as (segs & Henc & Hsegs & Hsub & Hgas);
    try done.
  exists segs. done.
Qed.

Lemma preparePayload_selects_witness :
  let d := App.demoApp (fun _ => 1) 50000 50000 0
             [App.demoTx 0 21000; App.demoTx 1 21000; App.demoTx 2 21000] in
  exists root currentState txsMap segs,
    App.chainRoot d !! 0 = Some root
    /\ App.StateAt d root = Some currentState
    /\ App.Pending d = Some txsMap
    /\ App.encodeTransactions d (concat segs.*2) = Some [xc0]
    /\ Forall (App.selectedRun d (Types.mkPosition 0 0 0) currentState txsMap) segs
    /\ segs.*1 `sublist_of` txsMap.*1
    /\ (concat segs.*2 <> [] ->
        App.totalGasInt64 (concat segs.*2) <= App.GasLimit (App.CurrentBlock d)).
Proof.
  cbv zeta.
  refine (preparePayload_selects
            (App.demoApp (fun _ => 1) 50000 50000 0
               [App.demoTx 0 21000; App.demoTx 1 21000; App.demoTx 2 21000])
            5 (Types.mkPosition 0 0 0) [xc0] _).
  vm_compute. reflexivity.
Defined.

Lemma VerifyBlock_senders_on_chain_witness :
  let d := App.demoApp (fun _ => 1) 100000 100000 5
             [App.demoTx 5 21000; App.demoTx 6 21000] in
  exists txs,
    App.decodeTransactions d [x01] = Some txs
    /\ forall tx, tx ∈ txs ->
         exists s, App.txFrom tx = Some s
           /\ App.NumChains d 0 <> 0
           /\ s mod Z.abs (App.NumChains d 0) = 0.
Proof.
  cbv zeta.
  refine (VerifyBlock_senders_on_chain
            (App.demoApp (fun _ => 1) 100000 100000 5
               [App.demoTx 5 21000; App.demoTx 6 21000])
            (Types.demoBlock 0 0 [x01]) _ _).
  - vm_compute. reflexivity.
  - discriminate.
Defined.

Lemma VerifyBlock_funds_cover_costs_witness :
  let d := App.demoApp (fun _ => 1) 100000 100000 5
             [App.demoTx 5 21000; App.demoTx 6 21000] in
  exists root currentState txs,
    App.chainRoot d !! 0 = Some root
    /\ App.StateAt d root = Some currentState
    /\ App.decodeTransactions d [x01] = Some txs
    /\ (forall tx, tx ∈ txs ->
          exists intrGas,
            App.IntrinsicGas d (App.txData tx) (bool_decide (App.txTo tx = None))
            = Some intrGas
            /\ intrGas <= App.txGas tx)
    /\ forall s, App.txsOf s txs <> [] ->
         App.totalCost (App.txsOf s txs)
         <= App.GetBalance currentState s
            - default 0 (App.GetCostInConfirmedBlocks d 0 s).
Proof.
  cbv zeta.
  refine (VerifyBlock_funds_cover_costs
            (App.demoApp (fun _ => 1) 100000 100000 5
               [App.demoTx 5 21000; App.demoTx 6 21000])
            (Types.demoBlock 0 0 [x01]) _ _).
  - vm_compute. reflexivity.
  - discriminate.
Defined.

Lemma VerifyBlock_retry_later_ignores_payload_witness :
  App.VerifyBlock (App.demoApp (fun _ => 1) 100000 100000 0 [App.demoTx 0 21000])
    (Types.demoBlock 0 1 [])
  = App.Ret App.VerifyRetryLater.
Proof.
  refine (VerifyBlock_retry_later_ignores_payload
            (App.demoApp (fun _ => 1) 100000 100000 0 [App.demoTx 0 21000])
            (Types.demoBlock 0 1 [x01]) (Types.demoBlock 0 1 []) _ _ _).
  - reflexivity.
  - reflexivity.
  - vm_compute. reflexivity.
Defined.

(** ** The topology: what the forget operations remove *)

Section TopologyFacts.

Import PeerSet.

Variable selfPK : string.
Variable gov : governance.
Variable nodeID : string -> string.

Lemma foldl_invariant_in {A B} (I : A -> Prop) (f : A -> B -> A) (l : list B) :
  (forall a b, b ∈ l -> I a -> I (f a b)) -> forall a, I a -> I (foldl f a l).
Proof.
  induction l as [|b l IH]; intros Hf a Ha; simpl; [done|].
  apply IH.
  - intros a' b' Hb'. apply Hf. by right.
  - apply Hf; [by left|done].
Qed.

(** *** Labels under [addDirectPeer] and [removeDirectPeer] *)

Lemma labels_of_addDirectPeer ps pk label id :
  labels_of (addDirectPeer nodeID ps pk label) id
  = if decide (id = nodeID pk) then {[label]} ∪ labels_of ps (nodeID pk)
    else labels_of ps id.
Proof.
  unfold addDirectPeer.
  change (labels_of (set_srvr ?p ?s) id) with (labels_of p id).
  apply labels_of_addLabel.
Qed.

Lemma labels_of_removeDirectPeer ps pk label id :
  labels_of (removeDirectPeer nodeID ps pk label) id
  = if decide (id = nodeID pk) then labels_of ps (nodeID pk) ∖ {[label]}
    else labels_of ps id.
Proof.
  unfold removeDirectPeer. case_decide.
  - change (labels_of (set_srvr ?p ?s) id) with (labels_of p id).
    apply labels_of_removeLabel.
  - apply labels_of_removeLabel.
Qed.

Lemma labels_of_foldl_add label (l : list string) :
  forall ps id lab,
  lab ∈ labels_of (foldl (fun ps pk => addDirectPeer nodeID ps pk label) ps l) id
  <-> lab ∈ labels_of ps id
      \/ (lab = label /\ exists pk, pk ∈ l /\ id = nodeID pk).
Proof.
  induction l as [|pk l IH]; intros ps id lab; simpl.
  - split; [by left|]. intros [H|(_ & pk & Hpk & _)]; [done|].
    by apply elem_of_nil in Hpk.
  - rewrite IH, labels_of_addDirectPeer. split.
    + intros [H|(-> & pk' & Hpk' & ->)].
      * case_decide as Hid; [|by left]. subst.
        apply elem_of_union in H as [H|H]; [|by left].
        apply elem_of_singleton in H as ->.
        right. split; [done|]. exists pk. split; [by left|done].
      * right. split; [done|]. exists pk'. split; [by right|done].
    + intros [H|(-> & pk' & Hpk' & ->)].
      * left. case_decide; subst; set_solver.
      * apply elem_of_cons in Hpk' as [->|Hpk'].
        -- left. rewrite decide_True by done. set_solver.
        -- right. eauto.
Qed.

Lemma labels_of_foldl_remove label (l : list string) :
  forall ps id lab,
  lab ∈ labels_of (foldl (fun ps pk => removeDirectPeer nodeID ps pk label) ps l) id
  <-> lab ∈ labels_of ps id
      /\ ~ (lab = label /\ exists pk, pk ∈ l /\ id = nodeID pk).
Proof.
  induction l as [|pk l IH]; intros ps id lab; simpl.
  - split; [|by intros [? _]]. intros H. split; [done|].
    intros (_ & pk & Hpk & _). by apply elem_of_nil in Hpk.
  - rewrite IH, labels_of_removeDirectPeer. split.
    + intros [H Hno]. case_decide as Hid.
      * subst. apply elem_of_difference in H as [H Hne].
        split; [done|]. intros (-> & _). set_solver.
      * split; [done|]. intros (-> & pk' & Hpk' & ->).
        apply elem_of_cons in Hpk' as [->|Hpk']; [done|].
        apply Hno. eauto.
    + intros [H Hno]. split.
      * case_decide as Hid; [|done]. subst.
        apply elem_of_difference. split; [done|].
        intros Heq%elem_of_singleton. apply Hno. split; [done|].
        exists pk. split; [by left|done].
      * intros (-> & pk' & Hpk' & ->). apply Hno. split; [done|].
        exists pk'. split; [by right|done].
Qed.

(** *** What an operation on one kind of labels leaves of the other kind *)

Section Frame.

Variable kind : setType.
Variable hist : peerSet -> gset Z.
Hypothesis hist_set_srvr : forall ps s, hist (set_srvr ps s) = hist ps.
Hypothesis hist_set_labels : forall ps p l, hist (set_labels ps p l) = hist ps.

Lemma hist_addDirectPeer ps pk label :
  hist (addDirectPeer nodeID ps pk label) = hist ps.
Proof. unfold addDirectPeer, addLabel. by rewrite hist_set_srvr, hist_set_labels. Qed.

Lemma hist_removeDirectPeer ps pk label :
  hist (removeDirectPeer nodeID ps pk label) = hist ps.
Proof.
  unfold removeDirectPeer. case_decide; rewrite ?hist_set_srvr;
    by rewrite removeLabel_removeFrom, hist_set_labels.
Qed.

Lemma hist_foldl {B} (f : peerSet -> B -> peerSet) (l : list B) ps :
  (forall ps b, hist (f ps b) = hist ps) -> hist (foldl f ps l) = hist ps.
Proof.
  intros Hf. apply (foldl_invariant (fun ps' => hist ps' = hist ps)); [|done].
  intros ps' b H. by rewrite Hf.
Qed.

Lemma frame_refl ps : frame kind hist ps ps.
Proof. by split. Qed.

Lemma frame_trans ps1 ps2 ps3 :
  frame kind hist ps1 ps2 -> frame kind hist ps2 ps3 -> frame kind hist ps1 ps3.
Proof. intros [Hh1 Hl1] [Hh2 Hl2]. split; [congruence|]. eauto. Qed.

Lemma frame_same ps ps' :
  peer2Labels ps' = peer2Labels ps -> hist ps' = hist ps ->
  frame kind hist ps ps'.
Proof. intros Hp Hh. split; [done|]. unfold labels_of. by rewrite Hp. Qed.

Lemma frame_foldl {B} (f : peerSet -> B -> peerSet) (l : list B) ps :
  (forall ps b, frame kind hist ps (f ps b)) -> frame kind hist ps (foldl f ps l).
Proof.
  intros Hf. apply (foldl_invariant (frame kind hist ps)); [|apply frame_refl].
  intros ps' b H. eapply frame_trans; [exact H|apply Hf].
Qed.

Lemma frame_addDirectPeer ps pk label :
  set label <> kind -> frame kind hist ps (addDirectPeer nodeID ps pk label).
Proof.
  intros Hset. split; [apply hist_addDirectPeer|]. intros id lab.
  rewrite labels_of_addDirectPeer. case_decide; [|done]. subst.
  intros [->%elem_of_singleton|H]%elem_of_union Hkind; [congruence|done].
Qed.

Lemma frame_removeDirectPeer ps pk label :
  frame kind hist ps (removeDirectPeer nodeID ps pk label).
Proof.
  split; [apply hist_removeDirectPeer|].
  intros id lab. rewrite labels_of_removeDirectPeer.
  case_decide; [|done]. subst. set_solver.
Qed.

Lemma frame_recorded ps ps' :
  frame kind hist ps ps' ->
  labels_recorded kind hist ps -> labels_recorded kind hist ps'.
Proof.
  intros [Hh Hl] Hrec id lab Hin Hkind. rewrite Hh.
  eapply Hrec; [|done]. by apply Hl.
Qed.

End Frame.

(** *** Forgetting the rounds of a history *)

Section ForgetRounds.

Variable kind : setType.
Variable hist : peerSet -> gset Z.
Variable wf : peerSet -> Prop.
(** Forgetting one round and deleting it from the history. *)
Variable forgetRound : peerSet -> Z -> peerSet.

Hypothesis wf_shrink : forall ps ps',
  (forall id lab, lab ∈ labels_of ps' id -> lab ∈ labels_of ps id) ->
  wf ps -> wf ps'.
Hypothesis forgetRound_labels : forall ps r id lab,
  wf ps ->
  lab ∈ labels_of (forgetRound ps r) id
  <-> lab ∈ labels_of ps id /\ ~ (set lab = kind /\ round lab = r).
Hypothesis forgetRound_hist : forall ps r r',
  r' ∈ hist (forgetRound ps r) <-> r' ∈ hist ps /\ r' <> r.

Lemma forgetRounds_foldl (rnd : Z) (l : list Z) :
  forall ps,
  wf ps ->
  let ps' := foldl (fun ps r => if r <=? rnd then forgetRound ps r else ps) ps l in
  wf ps'
  /\ (forall id lab,
        lab ∈ labels_of ps' id
        <-> lab ∈ labels_of ps id
            /\ ~ (set lab = kind /\ round lab ∈ l /\ round lab <= rnd))
  /\ (forall r, r ∈ hist ps' <-> r ∈ hist ps /\ ~ (r ∈ l /\ r <= rnd)).
Proof.
  induction l as [|r0 l IH]; intros ps Hwf; cbn [foldl].
  - split; [done|]. split.
    + intros id lab. split; [|by intros [? _]]. intros H. split; [done|].
      intros (_ & Hin & _). by apply elem_of_nil in Hin.
    + intros r. split; [|by intros [? _]]. intros H. split; [done|].
      intros (Hin & _). by apply elem_of_nil in Hin.
  - destruct (Z.leb_spec r0 rnd) as [Hle|Hgt].
    + pose proof (fun id lab => forgetRound_labels ps r0 id lab Hwf) as Hl1.
      assert (Hwf1 : wf (forgetRound ps r0)).
      { apply (wf_shrink ps); [|done]. intros id lab Hin. by apply Hl1 in Hin as [? _]. }
      destruct (IH _ Hwf1) as (Hwf' & Hl' & Hh').
      split; [done|]. split.
      * intros id lab. rewrite Hl', Hl1. split.
        -- intros [[H Hno1] Hno2]. split; [done|].
           intros (Hkind & [Heq|Hin]%elem_of_cons & Hr); [by apply Hno1|].
           by apply Hno2.
        -- intros [H Hno]. split; [split; [done|]|].
           ++ intros [Hkind <-]. apply Hno. split; [done|]. split; [by left|done].
           ++ intros (Hkind & Hin & Hr). apply Hno. split; [done|].
              split; [by right|done].
      * intros r. rewrite Hh', forgetRound_hist. split.
        -- intros [[H Hne] Hno]. split; [done|].
           intros ([->|Hin]%elem_of_cons & Hr); [done|]. by apply Hno.
        -- intros [H Hno]. split; [split; [done|]|].
           ++ intros ->. apply Hno. split; [by left|done].
           ++ intros [Hin Hr]. apply Hno. split; [by right|done].
    + destruct (IH ps Hwf) as (Hwf' & Hl' & Hh').
      split; [done|]. split.
      * intros id lab. rewrite Hl'. split; intros [H Hno]; (split; [done|]).
        -- intros (Hkind & [Heq|Hin]%elem_of_cons & Hr); [lia|]. by apply Hno.
        -- intros (Hkind & Hin & Hr). apply Hno. split; [done|].
           split; [by right|done].
      * intros r. rewrite Hh'. split; intros [H Hno]; (split; [done|]).
        -- intros ([->|Hin]%elem_of_cons & Hr); [lia|]. by apply Hno.
        -- intros [Hin Hr]. apply Hno. split; [by right|done].
Qed.

Lemma forgetRounds_spec (rnd : Z) ps :
  wf ps -> labels_recorded kind hist ps ->
  let ps' := foldl (fun ps r => if r <=? rnd then forgetRound ps r else ps) ps
               (elements (hist ps)) in
  wf ps' /\ labels_recorded kind hist ps'
  /\ (forall r, r ∈ hist ps' <-> r ∈ hist ps /\ rnd < r)
  /\ (forall id lab,
        lab ∈ labels_of ps' id
        <-> lab ∈ labels_of ps id /\ ~ (set lab = kind /\ round lab <= rnd)).
Proof.
  intros Hwf Hrec ps'.
  destruct (forgetRounds_foldl rnd (elements (hist ps)) ps Hwf)
    as (Hwf' & Hl' & Hh').
  fold ps' in Hwf', Hl', Hh'.
  assert (Hlabels : forall id lab,
    lab ∈ labels_of ps' id
    <-> lab ∈ labels_of ps id /\ ~ (set lab = kind /\ round lab <= rnd)).
  { intros id lab. rewrite Hl'. split; intros [H Hno]; (split; [done|]).
    - intros [Hkind Hr]. apply Hno. split; [done|]. split; [|done].
      apply elem_of_elements. by eapply Hrec.
    - intros (Hkind & _ & Hr). by apply Hno. }
  assert (Hhist : forall r, r ∈ hist ps' <-> r ∈ hist ps /\ rnd < r).
  { intros r. rewrite Hh'. rewrite elem_of_elements. split.
    - intros [H Hno]. split; [done|].
      destruct (Z.lt_ge_cases rnd r); [done|]. exfalso. apply Hno. split; [done|lia].
    - intros [H Hlt]. split; [done|]. lia. }
  split; [done|]. split; [|by split].
  intros id lab Hin Hkind. apply Hhist. apply Hlabels in Hin as [Hin Hno].
  split; [by eapply Hrec|].
  destruct (Z.lt_ge_cases rnd (round lab)); [done|].
  exfalso. apply Hno. split; [done|lia].
Qed.

End ForgetRounds.

(** *** The DKG side *)

Lemma dkg_wf_shrink ps ps' :
  (forall id lab, lab ∈ labels_of ps' id -> lab ∈ labels_of ps id) ->
  (dkgLabels_wf selfPK gov nodeID) ps -> (dkgLabels_wf selfPK gov nodeID) ps'.
Proof. intros Hl Hwf id lab Hin. apply Hwf. by apply Hl. Qed.

Lemma notary_wf_shrink ps ps' :
  (forall id lab, lab ∈ labels_of ps' id -> lab ∈ labels_of ps id) ->
  (notaryLabels_wf selfPK gov nodeID) ps -> (notaryLabels_wf selfPK gov nodeID) ps'.
Proof. intros Hl Hwf id lab Hin. apply Hwf. by apply Hl. Qed.

Lemma forgetDKGConn_labels ps r id lab :
  (dkgLabels_wf selfPK gov nodeID) ps ->
  lab ∈ labels_of (forgetDKGConn selfPK gov nodeID ps r) id
  <-> lab ∈ labels_of ps id /\ ~ (set lab = dkgset /\ round lab = r).
Proof.
  intros Hwf. unfold forgetDKGConn.
  destruct (DKGSet gov r) as [s|] eqn:Hs.
  2:{ split; [|by intros [? _]]. intros H. split; [done|].
      intros [Hset <-]. destruct (Hwf id lab H Hset) as (_ & s & pk & Hs' & _).
      congruence. }
  case_bool_decide as Hself.
  2:{ split; [|by intros [? _]]. intros H. split; [done|].
      intros [Hset <-]. destruct (Hwf id lab H Hset) as (_ & s' & pk & Hs' & ? & _).
      congruence. }
  unfold rangePKs. rewrite labels_of_foldl_remove.
  split; intros [H Hno]; (split; [done|]).
  - intros [Hset <-]. apply Hno.
    destruct (Hwf id lab H Hset) as (Hc & s' & pk & Hs' & _ & Hpk & Hne & ->).
    split; [destruct lab; simpl in *; congruence|].
    exists pk. split; [|done]. rewrite Hs in Hs'. injection Hs' as <-.
    apply elem_of_elements. set_solver.
  - intros (-> & _). apply Hno. done.
Qed.

Lemma dkgHistory_forgetDKGConn ps r :
  dkgHistory (forgetDKGConn selfPK gov nodeID ps r) = dkgHistory ps.
Proof.
  unfold forgetDKGConn. destruct (DKGSet gov r); [|done].
  case_bool_decide; [|done].
  unfold rangePKs. apply (hist_foldl dkgHistory). intros.
  by apply (hist_removeDirectPeer dkgHistory).
Qed.

Lemma ForgetDKGConn_spec ps rnd :
  (dkgLabels_wf selfPK gov nodeID) ps -> labels_recorded dkgset dkgHistory ps ->
  let ps' := ForgetDKGConn selfPK gov nodeID ps rnd in
  (dkgLabels_wf selfPK gov nodeID) ps' /\ labels_recorded dkgset dkgHistory ps'
  /\ (forall r, r ∈ dkgHistory ps' <-> r ∈ dkgHistory ps /\ rnd < r)
  /\ (forall id lab,
        lab ∈ labels_of ps' id
        <-> lab ∈ labels_of ps id /\ ~ (set lab = dkgset /\ round lab <= rnd)).
Proof.
  intros Hwf Hrec.
  apply (forgetRounds_spec dkgset dkgHistory (dkgLabels_wf selfPK gov nodeID)
           (fun ps r => set_dkgHistory (forgetDKGConn selfPK gov nodeID ps r)
              (dkgHistory (forgetDKGConn selfPK gov nodeID ps r) ∖ {[r]})));
    try done.
  - apply dkg_wf_shrink.
  - intros ps0 r id lab Hwf0.
    change (labels_of (set_dkgHistory ?p ?h) id) with (labels_of p id).
    by apply forgetDKGConn_labels.
  - intros ps0 r r'. simpl. rewrite dkgHistory_forgetDKGConn. set_solver.
Qed.

Lemma BuildDKGConn_wf ps r :
  (dkgLabels_wf selfPK gov nodeID) ps -> labels_recorded dkgset dkgHistory ps ->
  (dkgLabels_wf selfPK gov nodeID) (BuildDKGConn selfPK gov nodeID ps r)
  /\ labels_recorded dkgset dkgHistory (BuildDKGConn selfPK gov nodeID ps r).
Proof.
  intros Hwf Hrec. unfold BuildDKGConn.
  destruct (DKGSet gov r) as [s|] eqn:Hs; [|done].
  case_bool_decide as Hself; [|done].
  unfold rangePKs. split.
  - intros id lab. rewrite labels_of_foldl_add.
    intros [H|(-> & pk & Hpk & ->)] Hset.
    + by apply Hwf.
    + simpl. split; [done|]. exists s, pk.
      apply elem_of_elements in Hpk. set_solver.
  - intros id lab. rewrite labels_of_foldl_add.
    rewrite (hist_foldl dkgHistory)
      by (intros; by apply (hist_addDirectPeer dkgHistory)).
    simpl. intros [H|(-> & _)] Hset.
    + apply elem_of_union_r. by eapply Hrec.
    + simpl. set_solver.
Qed.

Lemma dkg_frame_BuildNotaryConn ps r :
  frame dkgset dkgHistory ps (BuildNotaryConn selfPK gov nodeID ps r).
Proof.
  unfold BuildNotaryConn. case_bool_decide; [apply frame_refl|].
  apply (frame_trans _ _ _ (set_notaryHistory ps ({[r]} ∪ notaryHistory ps)));
    [by apply frame_same|].
  unfold rangeChains. apply frame_foldl. intros ps0 c.
  destruct (NotarySet gov r c); [|apply frame_refl].
  case_bool_decide.
  - unfold rangePKs. apply frame_foldl. intros ps1 pk.
    by apply frame_addDirectPeer.
  - by apply frame_same.
Qed.

Lemma dkg_frame_ForgetNotaryConn ps r :
  frame dkgset dkgHistory ps (ForgetNotaryConn selfPK gov nodeID ps r).
Proof.
  unfold ForgetNotaryConn. apply frame_foldl. intros ps0 r0.
  destruct (r0 <=? r); [|apply frame_refl].
  apply (frame_trans _ _ _ (forgetNotaryConn selfPK gov nodeID ps0 r0));
    [|by apply frame_same].
  unfold forgetNotaryConn, rangeChains. apply frame_foldl. intros ps1 c.
  destruct (NotarySet gov r0 c); [|apply frame_refl].
  case_bool_decide.
  - unfold rangePKs. apply frame_foldl. intros ps2 pk.
    by apply frame_removeDirectPeer.
  - by apply frame_same.
Qed.

(** *** The notary side *)

Lemma forgetNotaryConn_chains (r : Z) (cs : list Z) :
  forall ps,
  (notaryLabels_wf selfPK gov nodeID) ps ->
  forall id lab,
  lab ∈ labels_of
          (foldl (fun ps chainID =>
             match NotarySet gov r chainID with
             | None => ps
             | Some s =>
                 if bool_decide (selfPK ∈ s) then
                   rangePKs (fun ps pk =>
                     removeDirectPeer nodeID ps pk (mkLabel notaryset chainID r))
                     (s ∖ {[selfPK]}) ps
                 else set_srvr ps (RemoveGroup (srvr ps) (notarySetName chainID r))
             end) ps cs) id
  <-> lab ∈ labels_of ps id
      /\ ~ (set lab = notaryset /\ round lab = r /\ chainID lab ∈ cs).
Proof.
  induction cs as [|c cs IH]; intros ps Hwf id lab; cbn [foldl].
  - split; [|by intros [? _]]. intros H. split; [done|].
    intros (_ & _ & Hin). by apply elem_of_nil in Hin.
  - set (ps1 := match NotarySet gov r c with
                | None => ps
                | Some s =>
                    if bool_decide (selfPK ∈ s) then
                      rangePKs (fun ps pk =>
                        removeDirectPeer nodeID ps pk (mkLabel notaryset c r))
                        (s ∖ {[selfPK]}) ps
                    else set_srvr ps (RemoveGroup (srvr ps) (notarySetName c r))
                end).
    assert (Hl1 : forall id lab,
      lab ∈ labels_of ps1 id
      <-> lab ∈ labels_of ps id
          /\ ~ (set lab = notaryset /\ round lab = r /\ chainID lab = c)).
    { clear id lab. intros id lab. unfold ps1.
      destruct (NotarySet gov r c) as [s|] eqn:Hs.
      2:{ split; [|by intros [? _]]. intros H. split; [done|].
          intros (Hset & <- & <-).
          destruct (Hwf id lab H Hset) as (_ & s & pk & Hs' & _). congruence. }
      case_bool_decide as Hself.
      2:{ change (labels_of (set_srvr ?p ?s) id) with (labels_of p id).
          split; [|by intros [? _]]. intros H. split; [done|].
          intros (Hset & <- & <-).
          destruct (Hwf id lab H Hset) as (_ & s' & pk & Hs' & ? & _).
          congruence. }
      unfold rangePKs. rewrite labels_of_foldl_remove.
      split; intros [H Hno]; (split; [done|]).
      - intros (Hset & <- & <-). apply Hno.
        destruct (Hwf id lab H Hset) as (_ & s' & pk & Hs' & _ & Hpk & Hne & ->).
        split; [by destruct lab; simpl in *; subst|].
        exists pk. split; [|done]. rewrite Hs in Hs'. injection Hs' as <-.
        apply elem_of_elements. set_solver.
      - intros (-> & _). apply Hno. done. }
    assert (Hwf1 : (notaryLabels_wf selfPK gov nodeID) ps1).
    { apply (notary_wf_shrink ps); [|done]. intros id' lab' Hin.
      by apply Hl1 in Hin as [? _]. }
    rewrite (IH ps1 Hwf1), Hl1. split.
    + intros [[H Hno1] Hno2]. split; [done|].
      intros (Hset & Hr & [Heq|Hin]%elem_of_cons); [by apply Hno1|].
      by apply Hno2.
    + intros [H Hno]. split; [split; [done|]|].
      * intros (Hset & Hr & <-). apply Hno. do 2 (split; [done|]). by left.
      * intros (Hset & Hr & Hin). apply Hno. do 2 (split; [done|]). by right.
Qed.

Lemma forgetNotaryConn_labels ps r id lab :
  (notaryLabels_wf selfPK gov nodeID) ps ->
  lab ∈ labels_of (forgetNotaryConn selfPK gov nodeID ps r) id
  <-> lab ∈ labels_of ps id /\ ~ (set lab = notaryset /\ round lab = r).
Proof.
  intros Hwf. unfold forgetNotaryConn, rangeChains.
  rewrite forgetNotaryConn_chains by done.
  split; intros [H Hno]; (split; [done|]).
  - intros [Hset Hr]. apply Hno. do 2 (split; [done|]).
    destruct (Hwf id lab H Hset) as (Hc & _). rewrite Hr in Hc.
    apply elem_of_seqZ. lia.
  - intros (Hset & Hr & _). by apply Hno.
Qed.

Lemma notaryHistory_forgetNotaryConn ps r :
  notaryHistory (forgetNotaryConn selfPK gov nodeID ps r) = notaryHistory ps.
Proof.
  unfold forgetNotaryConn, rangeChains. apply (hist_foldl notaryHistory).
  intros ps0 c. destruct (NotarySet gov r c); [|done].
  case_bool_decide; [|done].
  unfold rangePKs. apply (hist_foldl notaryHistory). intros.
  by apply (hist_removeDirectPeer notaryHistory).
Qed.

Lemma ForgetNotaryConn_spec ps rnd :
  (notaryLabels_wf selfPK gov nodeID) ps -> labels_recorded notaryset notaryHistory ps ->
  let ps' := ForgetNotaryConn selfPK gov nodeID ps rnd in
  (notaryLabels_wf selfPK gov nodeID) ps' /\ labels_recorded notaryset notaryHistory ps'
  /\ (forall r, r ∈ notaryHistory ps' <-> r ∈ notaryHistory ps /\ rnd < r)
  /\ (forall id lab,
        lab ∈ labels_of ps' id
        <-> lab ∈ labels_of ps id /\ ~ (set lab = notaryset /\ round lab <= rnd)).
Proof.
  intros Hwf Hrec.
  apply (forgetRounds_spec notaryset notaryHistory (notaryLabels_wf selfPK gov nodeID)
           (fun ps r => set_notaryHistory (forgetNotaryConn selfPK gov nodeID ps r)
              (notaryHistory (forgetNotaryConn selfPK gov nodeID ps r) ∖ {[r]})));
    try done.
  - apply notary_wf_shrink.
  - intros ps0 r id lab Hwf0.
    change (labels_of (set_notaryHistory ?p ?h) id) with (labels_of p id).
    by apply forgetNotaryConn_labels.
  - intros ps0 r r'. simpl. rewrite notaryHistory_forgetNotaryConn. set_solver.
Qed.

Lemma notaryHistory_BuildNotaryConn ps r :
  notaryHistory (BuildNotaryConn selfPK gov nodeID ps r)
  = {[r]} ∪ notaryHistory ps.
Proof.
  unfold BuildNotaryConn. case_bool_decide as Hin; [set_solver|].
  unfold rangeChains. rewrite (hist_foldl notaryHistory); [done|].
  intros ps0 c. destruct (NotarySet gov r c); [|done].
  case_bool_decide; [|done].
  unfold rangePKs. apply (hist_foldl notaryHistory). intros.
  by apply (hist_addDirectPeer notaryHistory).
Qed.

Lemma BuildNotaryConn_wf ps r :
  (notaryLabels_wf selfPK gov nodeID) ps -> labels_recorded notaryset notaryHistory ps ->
  (notaryLabels_wf selfPK gov nodeID) (BuildNotaryConn selfPK gov nodeID ps r)
  /\ labels_recorded notaryset notaryHistory (BuildNotaryConn selfPK gov nodeID ps r).
Proof.
  intros Hwf Hrec.
  assert (Hlabels : forall id lab,
    lab ∈ labels_of (BuildNotaryConn selfPK gov nodeID ps r) id ->
    lab ∈ labels_of ps id
    \/ (set lab = notaryset /\ round lab = r
        /\ 0 <= chainID lab < GetNumChains gov r
        /\ exists s pk, NotarySet gov r (chainID lab) = Some s
             /\ selfPK ∈ s /\ pk ∈ s /\ pk <> selfPK /\ id = nodeID pk)).
  { unfold BuildNotaryConn. case_bool_decide; [intros; by left|].
    unfold rangeChains.
    apply (foldl_invariant_in (fun ps' => forall id lab,
             lab ∈ labels_of ps' id ->
             lab ∈ labels_of ps id
             \/ (set lab = notaryset /\ round lab = r
                 /\ 0 <= chainID lab < GetNumChains gov r
                 /\ exists s pk, NotarySet gov r (chainID lab) = Some s
                      /\ selfPK ∈ s /\ pk ∈ s /\ pk <> selfPK /\ id = nodeID pk)));
      [|intros; by left].
    intros ps0 c Hc Hps0 id lab.
    destruct (NotarySet gov r c) as [s|] eqn:Hs; [|apply Hps0].
    case_bool_decide as Hself; [|apply Hps0].
    unfold rangePKs. rewrite labels_of_foldl_add.
    intros [Hold|(-> & pk & Hpk & ->)]; [by apply Hps0|].
    right. simpl. do 2 (split; [done|]).
    apply elem_of_seqZ in Hc. split; [lia|].
    exists s, pk. apply elem_of_elements in Hpk. set_solver. }
  split.
  - intros id lab Hin Hset.
    destruct (Hlabels id lab Hin) as [Hold|(_ & -> & Hc & Hs)];
      [by apply Hwf|].
    done.
  - intros id lab Hin Hset. rewrite notaryHistory_BuildNotaryConn.
    destruct (Hlabels id lab Hin) as [Hold|(_ & -> & _)]; [|set_solver].
    apply elem_of_union_r. by eapply Hrec.
Qed.

Lemma notary_frame_BuildDKGConn ps r :
  frame notaryset notaryHistory ps (BuildDKGConn selfPK gov nodeID ps r).
Proof.
  unfold BuildDKGConn. destruct (DKGSet gov r); [|apply frame_refl].
  case_bool_decide; [|apply frame_refl].
  apply (frame_trans _ _ _ (set_dkgHistory ps ({[r]} ∪ dkgHistory ps)));
    [by apply frame_same|].
  unfold rangePKs. apply frame_foldl. intros ps1 pk.
  by apply frame_addDirectPeer.
Qed.

Lemma notary_frame_ForgetDKGConn ps r :
  frame notaryset notaryHistory ps (ForgetDKGConn selfPK gov nodeID ps r).
Proof.
  unfold ForgetDKGConn. apply frame_foldl. intros ps0 r0.
  destruct (r0 <=? r); [|apply frame_refl].
  apply (frame_trans _ _ _ (forgetDKGConn selfPK gov nodeID ps0 r0));
    [|by apply frame_same].
  unfold forgetDKGConn. destruct (DKGSet gov r0); [|apply frame_refl].
  case_bool_decide; [|apply frame_refl].
  unfold rangePKs. apply frame_foldl. intros ps2 pk.
  by apply frame_removeDirectPeer.
Qed.

(** *** Along a run of notary and DKG operations *)

Lemma frame_dkg_wf ps ps' :
  frame dkgset dkgHistory ps ps' ->
  (dkgLabels_wf selfPK gov nodeID) ps /\ labels_recorded dkgset dkgHistory ps ->
  (dkgLabels_wf selfPK gov nodeID) ps' /\ labels_recorded dkgset dkgHistory ps'.
Proof.
  intros Hf [Hwf Hrec]. split; [|by eapply frame_recorded].
  intros id lab Hin Hset. apply Hwf; [|done]. by apply Hf.
Qed.

Lemma frame_notary_wf ps ps' :
  frame notaryset notaryHistory ps ps' ->
  (notaryLabels_wf selfPK gov nodeID) ps /\ labels_recorded notaryset notaryHistory ps ->
  (notaryLabels_wf selfPK gov nodeID) ps' /\ labels_recorded notaryset notaryHistory ps'.
Proof.
  intros Hf [Hwf Hrec]. split; [|by eapply frame_recorded].
  intros id lab Hin Hset. apply Hwf; [|done]. by apply Hf.
Qed.

Lemma labels_wf_step ps o :
  is_connOp o = true ->
  (labels_wf selfPK gov nodeID) ps -> (labels_wf selfPK gov nodeID) (step selfPK gov nodeID ps o).
Proof.
  intros Ho [[Hd Hdr] [Hn Hnr]].
  destruct o as [r|r|r|r|r|r|id l|id l]; try discriminate Ho; simpl; split.
  - apply (frame_dkg_wf ps); [apply dkg_frame_BuildNotaryConn|done].
  - by apply BuildNotaryConn_wf.
  - apply (frame_dkg_wf ps); [apply dkg_frame_ForgetNotaryConn|done].
  - destruct (ForgetNotaryConn_spec ps r Hn Hnr) as (? & ? & _). done.
  - by apply BuildDKGConn_wf.
  - apply (frame_notary_wf ps); [apply notary_frame_BuildDKGConn|done].
  - destruct (ForgetDKGConn_spec ps r Hd Hdr) as (? & ? & _). done.
  - apply (frame_notary_wf ps); [apply notary_frame_ForgetDKGConn|done].
Qed.

Lemma labels_wf_run ops :
  Forall (fun o => is_connOp o = true) ops ->
  (labels_wf selfPK gov nodeID) (run selfPK gov nodeID ops).
Proof.
  intros Hops. unfold run.
  assert (Hnew : (labels_wf selfPK gov nodeID) newPeerSet).
  { split; split; intros id0 lab Hin; unfold labels_of in Hin; simpl in Hin;
      rewrite lookup_empty in Hin; simpl in Hin; set_solver. }
  revert Hnew. generalize newPeerSet.
  induction Hops as [|o ops Ho Hops IH]; intros ps Hps; simpl; [done|].
  by apply IH, labels_wf_step.
Qed.

End TopologyFacts.

(** X19: what [ForgetDKGConn] forgets.  On a peer set that a sequence of
    [BuildNotaryConn], [ForgetNotaryConn], [BuildDKGConn] and
    [ForgetDKGConn] operations has made from a new one,
    [ForgetDKGConn(round)] leaves in the DKG history exactly the rounds
    above [round], and leaves on every peer exactly the labels it had, less
    the DKG labels of the rounds up to [round]: each recorded round is
    forgotten with its own DKG set. *)
Theorem ForgetDKGConn_forgets_rounds (selfPK : string) (gov : PeerSet.governance)
    (nodeID : string -> string) (ops : list PeerSet.op) (rnd : Z) :
  Forall (fun o => PeerSet.is_connOp o = true) ops ->
  let ps := PeerSet.run selfPK gov nodeID ops in
  let ps' := PeerSet.ForgetDKGConn selfPK gov nodeID ps rnd in
  (forall r, r ∈ PeerSet.dkgHistory ps' <-> r ∈ PeerSet.dkgHistory ps /\ rnd < r)
  /\ (forall id lab,
        lab ∈ PeerSet.labels_of ps' id
        <-> lab ∈ PeerSet.labels_of ps id
            /\ ~ (PeerSet.set lab = PeerSet.dkgset /\ PeerSet.round lab <= rnd)).
Proof.
  intros Hops. cbv zeta.
  destruct (labels_wf_run selfPK gov nodeID ops Hops) as [[Hwf Hrec] _].
  destruct (ForgetDKGConn_spec selfPK gov nodeID _ rnd Hwf Hrec)
    as (_ & _ & Hh & Hl).
  by split.
Qed.

(** X20: what [ForgetNotaryConn] forgets.  On a peer set that a sequence of
    [BuildNotaryConn], [ForgetNotaryConn], [BuildDKGConn] and
    [ForgetDKGConn] operations has made from a new one,
    [ForgetNotaryConn(round)] leaves in the notary history exactly the
    rounds above [round], and leaves on every peer exactly the labels it
    had, less the notary labels, of every chain, of the rounds up to
    [round]. *)
Theorem ForgetNotaryConn_forgets_rounds (selfPK : string)
    (gov : PeerSet.governance) (nodeID : string -> string)
    (ops : list PeerSet.op) (rnd : Z) :
  Forall (fun o => PeerSet.is_connOp o = true) ops ->
  let ps := PeerSet.run selfPK gov nodeID ops in
  let ps' := PeerSet.ForgetNotaryConn selfPK gov nodeID ps rnd in
  (forall r, r ∈ PeerSet.notaryHistory ps'
             <-> r ∈ PeerSet.notaryHistory ps /\ rnd < r)
  /\ (forall id lab,
        lab ∈ PeerSet.labels_of ps' id
        <-> lab ∈ PeerSet.labels_of ps id
            /\ ~ (PeerSet.set lab = PeerSet.notaryset /\ PeerSet.round lab <= rnd)).
Proof.
  intros Hops. cbv zeta.
  destruct (labels_wf_run selfPK gov nodeID ops Hops) as [_ [Hwf Hrec]].
  destruct (ForgetNotaryConn_spec selfPK gov nodeID _ rnd Hwf Hrec)
    as (_ & _ & Hh & Hl).
  by split.
Qed.

Lemma ForgetDKGConn_forgets_rounds_witness :
  let ps := PeerSet.run "self" PeerSet.demoGov id
              [PeerSet.OpBuildDKGConn 1; PeerSet.OpBuildDKGConn 2] in
  let ps' := PeerSet.ForgetDKGConn "self" PeerSet.demoGov id ps 1 in
  (forall r, r ∈ PeerSet.dkgHistory ps' <-> r ∈ PeerSet.dkgHistory ps /\ 1 < r)
  /\ (forall id lab,
        lab ∈ PeerSet.labels_of ps' id
        <-> lab ∈ PeerSet.labels_of ps id
            /\ ~ (PeerSet.set lab = PeerSet.dkgset /\ PeerSet.round lab <= 1)).
Proof.
  refine (ForgetDKGConn_forgets_rounds "self" PeerSet.demoGov id
            [PeerSet.OpBuildDKGConn 1; PeerSet.OpBuildDKGConn 2] 1 _).
  repeat constructor.
Defined.

Section TopologyFacts2.

Import PeerSet.

Variable selfPK : string.
Variable gov : governance.
Variable nodeID : string -> string.

(** *** The node itself *)

Hypothesis nodeID_self : forall pk, nodeID pk = nodeID selfPK -> pk = selfPK.

Lemma self_not_direct_same ps ps' :
  directPeers (srvr ps') = directPeers (srvr ps) ->
  (self_not_direct selfPK nodeID) ps -> (self_not_direct selfPK nodeID) ps'.
Proof. unfold self_not_direct. by intros ->. Qed.

Lemma self_not_direct_removeDirectPeer ps pk label :
  (self_not_direct selfPK nodeID) ps -> (self_not_direct selfPK nodeID) (removeDirectPeer nodeID ps pk label).
Proof.
  unfold self_not_direct, removeDirectPeer. intros H.
  case_decide; simpl; set_solver.
Qed.

Lemma self_not_direct_addDirectPeer ps pk label :
  pk <> selfPK ->
  (self_not_direct selfPK nodeID) ps -> (self_not_direct selfPK nodeID) (addDirectPeer nodeID ps pk label).
Proof.
  unfold self_not_direct, addDirectPeer. intros Hne H. simpl.
  intros [Heq%elem_of_singleton|Hin]%elem_of_union; [|done].
  apply Hne, nodeID_self. done.
Qed.

Lemma self_not_direct_rangePKs_add (s : gset string) label ps :
  (self_not_direct selfPK nodeID) ps ->
  (self_not_direct selfPK nodeID)
    (rangePKs (fun ps pk => addDirectPeer nodeID ps pk label) (s ∖ {[selfPK]}) ps).
Proof.
  unfold rangePKs. apply (foldl_invariant_in (self_not_direct selfPK nodeID)).
  intros ps0 pk Hpk. apply self_not_direct_addDirectPeer.
  apply elem_of_elements in Hpk. set_solver.
Qed.

Lemma self_not_direct_foldl {B} (f : peerSet -> B -> peerSet) (l : list B) ps :
  (forall ps b, (self_not_direct selfPK nodeID) ps -> (self_not_direct selfPK nodeID) (f ps b)) ->
  (self_not_direct selfPK nodeID) ps -> (self_not_direct selfPK nodeID) (foldl f ps l).
Proof. intros Hf. by apply foldl_invariant. Qed.

Lemma self_not_direct_BuildConnection ps r :
  (self_not_direct selfPK nodeID) ps -> (self_not_direct selfPK nodeID) (BuildConnection selfPK gov nodeID ps r).
Proof.
  intros H. unfold BuildConnection.
  match goal with
  | |- context [foldl ?f (?ps0, false) ?l] =>
      assert (Hfold : (self_not_direct selfPK nodeID) (foldl f (ps0, false) l).1);
      [|destruct (foldl f (ps0, false) l) as [ps1 inOne]]
  end.
  - apply (foldl_invariant (fun st => (self_not_direct selfPK nodeID) st.1)).
    + intros [ps0 b0] cid Hps0. simpl in *.
      destruct (NotarySet gov r cid); [|done].
      case_bool_decide; simpl.
      * by apply self_not_direct_rangePKs_add.
      * match goal with
        | |- (self_not_direct selfPK nodeID) (set_srvr ?p _) =>
            apply (self_not_direct_same p); [done|]
        end.
        unfold rangePKs. by apply self_not_direct_foldl.
    + simpl. case_bool_decide.
      * by apply self_not_direct_rangePKs_add.
      * done.
  - simpl in Hfold. destruct (negb _ && inOne); [|done].
    match goal with
    | |- (self_not_direct selfPK nodeID) (set_srvr ?p _) => apply (self_not_direct_same p); [done|]
    end.
    unfold rangePKs. by apply self_not_direct_foldl.
Qed.

Lemma self_not_direct_forgetConnection ps r :
  (self_not_direct selfPK nodeID) ps -> (self_not_direct selfPK nodeID) (forgetConnection selfPK gov nodeID ps r).
Proof.
  intros H. unfold forgetConnection.
  match goal with
  | |- context [foldl ?f (?ps0, false) ?l] =>
      assert (Hfold : (self_not_direct selfPK nodeID) (foldl f (ps0, false) l).1);
      [|destruct (foldl f (ps0, false) l) as [ps1 inOne]]
  end.
  - apply (foldl_invariant (fun st => (self_not_direct selfPK nodeID) st.1)).
    + intros [ps0 b0] cid Hps0. simpl in *.
      destruct (NotarySet gov r cid); [|done].
      case_bool_decide; simpl.
      * unfold rangePKs. apply self_not_direct_foldl; [|done].
        intros. by apply self_not_direct_removeDirectPeer.
      * match goal with
        | |- (self_not_direct selfPK nodeID) (set_srvr ?p _) =>
            apply (self_not_direct_same p); [done|]
        end.
        unfold rangePKs. by apply self_not_direct_foldl.
    + simpl. case_bool_decide; [|done].
      unfold rangePKs. apply self_not_direct_foldl; [|done].
      intros. by apply self_not_direct_removeDirectPeer.
  - simpl in Hfold. destruct (negb _ && inOne); [|done].
    match goal with
    | |- (self_not_direct selfPK nodeID) (set_srvr ?p _) => apply (self_not_direct_same p); [done|]
    end.
    unfold rangePKs. by apply self_not_direct_foldl.
Qed.

Lemma self_not_direct_step ps o :
  (self_not_direct selfPK nodeID) ps -> (self_not_direct selfPK nodeID) (step selfPK gov nodeID ps o).
Proof.
  intros H. destruct o as [r|r|r|r|r|r|id l|id l]; simpl.
  - by apply self_not_direct_BuildConnection.
  - unfold ForgetConnection. apply self_not_direct_foldl; [|done].
    intros ps0 r0 Hps0. destruct (r0 <=? r); [|done].
    apply (self_not_direct_same (forgetConnection selfPK gov nodeID ps0 r));
      [done|].
    by apply self_not_direct_forgetConnection.
  - unfold BuildNotaryConn. case_bool_decide; [done|].
    unfold rangeChains. apply self_not_direct_foldl; [|done].
    intros ps0 c Hps0. destruct (NotarySet gov r c); [|done].
    case_bool_decide; [by apply self_not_direct_rangePKs_add|done].
  - unfold ForgetNotaryConn. apply self_not_direct_foldl; [|done].
    intros ps0 r0 Hps0. destruct (r0 <=? r); [|done].
    apply (self_not_direct_same (forgetNotaryConn selfPK gov nodeID ps0 r0));
      [done|].
    unfold forgetNotaryConn, rangeChains. apply self_not_direct_foldl; [|done].
    intros ps1 c Hps1. destruct (NotarySet gov r0 c); [|done].
    case_bool_decide; [|done].
    unfold rangePKs. apply self_not_direct_foldl; [|done].
    intros. by apply self_not_direct_removeDirectPeer.
  - unfold BuildDKGConn. destruct (DKGSet gov r); [|done].
    case_bool_decide; [|done].
    by apply self_not_direct_rangePKs_add.
  - unfold ForgetDKGConn. apply self_not_direct_foldl; [|done].
    intros ps0 r0 Hps0. destruct (r0 <=? r); [|done].
    apply (self_not_direct_same (forgetDKGConn selfPK gov nodeID ps0 r0));
      [done|].
    unfold forgetDKGConn. destruct (DKGSet gov r0); [|done].
    case_bool_decide; [|done].
    unfold rangePKs. apply self_not_direct_foldl; [|done].
    intros. by apply self_not_direct_removeDirectPeer.
  - done.
  - done.
Qed.

End TopologyFacts2.

(** X21: [BuildNotaryConn] works once per round.  It records the round in
    the notary history, and a second [BuildNotaryConn] for the round changes
    nothing. *)
Theorem BuildNotaryConn_once (selfPK : string) (gov : PeerSet.governance)
    (nodeID : string -> string) (ps : PeerSet.peerSet) (rnd : Z) :
  PeerSet.notaryHistory (PeerSet.BuildNotaryConn selfPK gov nodeID ps rnd)
  = {[rnd]} ∪ PeerSet.notaryHistory ps
  /\ PeerSet.BuildNotaryConn selfPK gov nodeID
       (PeerSet.BuildNotaryConn selfPK gov nodeID ps rnd) rnd
     = PeerSet.BuildNotaryConn selfPK gov nodeID ps rnd.
Proof.
  split; [apply notaryHistory_BuildNotaryConn|].
  unfold PeerSet.BuildNotaryConn at 1.
  rewrite bool_decide_eq_true_2; [done|].
  rewrite notaryHistory_BuildNotaryConn. set_solver.
Qed.

(** X22: the node does not connect to itself.  When no other public key
    has the node id of the node's own key, then after any sequence of
    topology operations and label steps on a new peer set the node is not
    among its own direct peers. *)
Theorem node_never_its_own_direct_peer (selfPK : string)
    (gov : PeerSet.governance) (nodeID : string -> string)
    (ops : list PeerSet.op) :
  (forall pk, nodeID pk = nodeID selfPK -> pk = selfPK) ->
  nodeID selfPK
  ∉ PeerSet.directPeers (PeerSet.srvr (PeerSet.run selfPK gov nodeID ops)).
Proof.
  intros Hself. unfold PeerSet.run.
  apply (foldl_invariant (PeerSet.self_not_direct selfPK nodeID)).
  - intros ps o. by apply self_not_direct_step.
  - unfold PeerSet.self_not_direct. simpl. set_solver.
Qed.

Lemma node_never_its_own_direct_peer_witness :
  bool_decide
    ("self" ∈ PeerSet.directPeers
                (PeerSet.srvr (PeerSet.run "self" PeerSet.demoGov2 id
                   [PeerSet.OpBuildConnection 1; PeerSet.OpBuildNotaryConn 2])))
  = false.
Proof.
  apply bool_decide_eq_false_2.
  refine (node_never_its_own_direct_peer "self" PeerSet.demoGov2 id
            [PeerSet.OpBuildConnection 1; PeerSet.OpBuildNotaryConn 2] _).
  intros pk Hpk. exact Hpk.
Defined.

Lemma ForgetNotaryConn_forgets_rounds_witness :
  let ps := PeerSet.run "self" PeerSet.demoGov2 id
              [PeerSet.OpBuildNotaryConn 1; PeerSet.OpBuildNotaryConn 2] in
  let ps' := PeerSet.ForgetNotaryConn "self" PeerSet.demoGov2 id ps 1 in
  (forall r, r ∈ PeerSet.notaryHistory ps'
             <-> r ∈ PeerSet.notaryHistory ps /\ 1 < r)
  /\ (forall id lab,
        lab ∈ PeerSet.labels_of ps' id
        <-> lab ∈ PeerSet.labels_of ps id
            /\ ~ (PeerSet.set lab = PeerSet.notaryset /\ PeerSet.round lab <= 1)).
Proof.
  refine (ForgetNotaryConn_forgets_rounds "self" PeerSet.demoGov2 id
            [PeerSet.OpBuildNotaryConn 1; PeerSet.OpBuildNotaryConn 2] 1 _).
  repeat constructor.
Defined.

(** ** Peers *)

Section PeersFacts.

Import Peers.

Section KnownFacts.

Variable Pop : gset bytes -> gset bytes.
Hypothesis Pop_spec : forall known,
  known <> ∅ -> exists x, x ∈ known /\ Pop known = known ∖ {[x]}.

Lemma drop_loop_spec (max : Z) (fuel : nat) :
  0 < max ->
  forall known,
  (size known <= fuel)%nat ->
  drop_loop Pop fuel max known ⊆ known
  /\ Z.of_nat (size (drop_loop Pop fuel max known)) < max
  /\ (Z.of_nat (size known) < max -> drop_loop Pop fuel max known = known).
Proof.
  intros Hmax. induction fuel as [|fuel IH]; intros known Hfuel;
    cbn [drop_loop].
  - split; [done|]. split; [lia|done].
  - rewrite Z.geb_leb. destruct (Z.leb_spec max (Z.of_nat (size known))) as [Hge|Hlt].
    + assert (Hne : known <> ∅).
      { intros ->. rewrite size_empty in Hge. lia. }
      destruct (Pop_spec known Hne) as (x & Hx & ->).
      assert (Hsize : size (known ∖ {[x]}) = (size known - 1)%nat).
      { rewrite size_difference by set_solver. by rewrite size_singleton. }
      destruct (IH (known ∖ {[x]})) as (Hsub & Hlt & _); [lia|].
      split; [set_solver|]. split; [done|lia].
    + split; [done|]. split; [lia|done].
Qed.

Lemma mark_spec (max : Z) (known : gset bytes) (hash : bytes) :
  0 < max ->
  hash ∈ mark Pop max known hash
  /\ Z.of_nat (size (mark Pop max known hash)) <= max
  /\ mark Pop max known hash ⊆ {[hash]} ∪ known
  /\ (Z.of_nat (size known) < max -> mark Pop max known hash = {[hash]} ∪ known).
Proof.
  intros Hmax. unfold mark.
  destruct (drop_loop_spec max (size known) Hmax known) as (Hsub & Hlt & Heq);
    [done|].
  split; [set_solver|]. split; [|split; [set_solver|]].
  - rewrite size_union_alt, size_singleton.
    pose proof (subseteq_size (drop_loop Pop (size known) max known ∖ {[hash]})
                  (drop_loop Pop (size known) max known) ltac:(set_solver)).
    lia.
  - intros Hsmall. by rewrite Heq.
Qed.

End KnownFacts.

Lemma demoPop_spec (known : gset bytes) :
  known <> ∅ -> exists x, x ∈ known /\ demoPop known = known ∖ {[x]}.
Proof.
  intros Hne. unfold demoPop.
  destruct (elements known) as [|x l] eqn:Hel.
  - apply elements_empty_inv in Hel. by apply leibniz_equiv in Hel.
  - exists x. split; [|done]. apply elem_of_elements. rewrite Hel. by left.
Qed.

(** The best peer so far and its number, along the loop of [BestPeer]. *)
Lemma BestPeer_foldl (order : list peer) :
  forall (best : option peer) (n : Z),
  (forall b, best = Some b -> number b = n) ->
  let st := foldl BestPeer_step (best, n) order in
  (st.1 = None <-> best = None /\ order = [])
  /\ forall p, st.1 = Some p ->
       (p ∈ order \/ best = Some p)
       /\ number p = st.2
       /\ (forall q, q ∈ order -> number q <= number p)
       /\ (forall b, best = Some b -> number b <= number p).
Proof.
  induction order as [|p0 order IH]; intros best n Hbest; cbn [foldl].
  - simpl. split; [tauto|]. intros p ->. split; [by right|].
    split; [by apply Hbest|]. split.
    + intros q Hq. by apply elem_of_nil in Hq.
    + intros b [= ->]. lia.
  - destruct best as [b|].
    + specialize (Hbest b eq_refl).
      assert (Hstep : BestPeer_step (Some b, n) p0
                      = if number p0 >? n then (Some p0, number p0)
                        else (Some b, n)) by reflexivity.
      rewrite Hstep. clear Hstep.
      destruct (Z.gtb_spec (number p0) n) as [Hgt|Hle].
      * destruct (IH (Some p0) (number p0)) as [Hnone Hsome];
          [by intros ? [= ->]|].
        split.
        -- rewrite Hnone. split; intros [? ?]; done.
        -- intros p Hp. destruct (Hsome p Hp) as (Hin & Hn & Hmax & Hb).
           split; [|split; [done|split]].
           ++ left. destruct Hin as [Hin|[= ->]]; [by right|by left].
           ++ intros q [->|Hq]%elem_of_cons; [by apply Hb|by apply Hmax].
           ++ intros b' [= <-]. specialize (Hb p0 eq_refl). lia.
      * destruct (IH (Some b) n) as [Hnone Hsome]; [by intros ? [= ->]|].
        split.
        -- rewrite Hnone. split; intros [? ?]; done.
        -- intros p Hp. destruct (Hsome p Hp) as (Hin & Hn & Hmax & Hb).
           split; [|split; [done|split; [|done]]].
           ++ destruct Hin as [Hin|Hin]; [left; by right|by right].
           ++ intros q [->|Hq]%elem_of_cons; [|by apply Hmax].
              specialize (Hb b eq_refl). lia.
    + change (BestPeer_step (None, n) p0) with (Some p0, number p0).
      destruct (IH (Some p0) (number p0)) as [Hnone Hsome];
        [by intros ? [= ->]|].
      split.
      * rewrite Hnone. split; intros [? ?]; done.
      * intros p Hp. destruct (Hsome p Hp) as (Hin & Hn & Hmax & Hb).
        split; [|split; [done|split; [|done]]].
        -- left. destruct Hin as [Hin|[= ->]]; [by right|by left].
        -- intros q [->|Hq]%elem_of_cons; [by apply Hb|by apply Hmax].
Qed.

End PeersFacts.

(** X23: the known hashes stay within their allowance.  Whatever item
    [Pop] takes from a set that is not empty, after [MarkBlock(hash)]
    ([MarkTransaction], [MarkNodeRecord]) the hash is known, at most
    [maxKnownBlocks] ([maxKnownTxs], [maxKnownRecords]) hashes are known,
    whatever their number was before, no hash is known that was not known
    before, other than [hash], and nothing is dropped when the set was below
    the allowance. *)
Theorem Mark_bounded (Pop : gset bytes -> gset bytes)
    (known : gset bytes) (hash : bytes) :
  (forall known, known <> ∅ -> exists x, x ∈ known /\ Pop known = known ∖ {[x]}) ->
  (hash ∈ Peers.MarkBlock Pop known hash
   /\ Z.of_nat (size (Peers.MarkBlock Pop known hash)) <= Peers.maxKnownBlocks
   /\ Peers.MarkBlock Pop known hash ⊆ {[hash]} ∪ known
   /\ (Z.of_nat (size known) < Peers.maxKnownBlocks ->
       Peers.MarkBlock Pop known hash = {[hash]} ∪ known))
  /\ (hash ∈ Peers.MarkTransaction Pop known hash
      /\ Z.of_nat (size (Peers.MarkTransaction Pop known hash)) <= Peers.maxKnownTxs
      /\ Peers.MarkTransaction Pop known hash ⊆ {[hash]} ∪ known
      /\ (Z.of_nat (size known) < Peers.maxKnownTxs ->
          Peers.MarkTransaction Pop known hash = {[hash]} ∪ known))
  /\ (hash ∈ Peers.MarkNodeRecord Pop known hash
      /\ Z.of_nat (size (Peers.MarkNodeRecord Pop known hash))
         <= Peers.maxKnownRecords
      /\ Peers.MarkNodeRecord Pop known hash ⊆ {[hash]} ∪ known
      /\ (Z.of_nat (size known) < Peers.maxKnownRecords ->
          Peers.MarkNodeRecord Pop known hash = {[hash]} ∪ known)).
Proof.
  intros HPop. split; [|split]; by apply mark_spec.
Qed.

Lemma Mark_bounded_witness :
  Peers.MarkBlock Peers.demoPop {[ [x01] ]} [x02] = {[ [x02] ]} ∪ {[ [x01] ]}.
Proof.
  refine (proj2 (proj2 (proj2 (proj1
    (Mark_bounded Peers.demoPop {[ [x01] ]} [x02] demoPop_spec)))) _).
  rewrite size_singleton. unfold Peers.maxKnownBlocks. lia.
Defined.

(** X24: the registry of peers.  [Register] succeeds exactly when the set
    is not closed and the id of the peer is not registered; the peer is then
    found under its id, the number of peers is one more, the other ids are
    as before, a second [Register] of it fails with
    [errAlreadyRegistered], and [Unregister] of its id gives back the
    registry as it was.  [Unregister] of an id that is not registered fails
    with [errNotRegistered], and after [Close] every [Register] fails with
    [errClosed]. *)
Theorem Register_Unregister (ps : Peers.registry) (p : Peers.peer) :
  (snd (Peers.Register ps p) = None
   <-> Peers.closed ps = false /\ Peers.Peer ps (Peers.id p) = None)
  /\ (snd (Peers.Register ps p) = None ->
      Peers.Peer (fst (Peers.Register ps p)) (Peers.id p) = Some p
      /\ Peers.Len (fst (Peers.Register ps p)) = S (Peers.Len ps)
      /\ (forall i, i <> Peers.id p ->
            Peers.Peer (fst (Peers.Register ps p)) i = Peers.Peer ps i)
      /\ Peers.Register (fst (Peers.Register ps p)) p
         = (fst (Peers.Register ps p), Some Peers.errAlreadyRegistered)
      /\ Peers.Unregister (fst (Peers.Register ps p)) (Peers.id p) = (ps, None))
  /\ (forall i, Peers.Peer ps i = None ->
        Peers.Unregister ps i = (ps, Some Peers.errNotRegistered))
  /\ (forall q, Peers.Register (Peers.Close ps) q
                = (Peers.Close ps, Some Peers.errClosed)).
Proof.
  destruct ps as [peers closed]. unfold Peers.Register, Peers.Peer. simpl.
  split; [|split; [|split]].
  - destruct closed; [by split; [|intros [? _]]|].
    destruct (peers !! Peers.id p); simpl; split; try done. by intros [_ ?].
  - destruct closed; [done|].
    destruct (peers !! Peers.id p) eqn:Hp; [done|]. intros _. simpl.
    rewrite lookup_insert_eq. split; [done|]. split; [|split; [|split]].
    + unfold Peers.Len. simpl. by rewrite map_size_insert_None.
    + intros i Hi. by rewrite lookup_insert_ne.
    + done.
    + unfold Peers.Unregister. simpl. rewrite lookup_insert_eq.
      by rewrite delete_insert_id.
  - intros i Hi. unfold Peers.Unregister. simpl. by rewrite Hi.
  - done.
Qed.

(** X25: [BestPeer] returns a peer with the highest head number.  In
    whatever order the peers are ranged over, [BestPeer] returns nil exactly
    when no peer is registered, and a peer it returns is registered and no
    registered peer has a higher head number. *)
Theorem BestPeer_highest (ps : Peers.registry) (order : list Peers.peer) :
  Peers.range_order ps order ->
  (Peers.BestPeer order = None <-> Peers.Len ps = 0%nat)
  /\ forall p, Peers.BestPeer order = Some p ->
       (exists i, Peers.Peer ps i = Some p)
       /\ forall i q, Peers.Peer ps i = Some q ->
            Peers.number q <= Peers.number p.
Proof.
  intros Horder. unfold Peers.range_order in Horder.
  destruct (BestPeer_foldl order None 0) as [Hnone Hsome]; [done|].
  assert (Hin : forall q, q ∈ order <-> exists i, Peers.peers ps !! i = Some q).
  { intros q. rewrite Horder, list_elem_of_fmap. split.
    - intros ([i q'] & -> & Hq). exists i. by apply elem_of_map_to_list.
    - intros [i Hi]. exists (i, q). split; [done|]. by apply elem_of_map_to_list. }
  split.
  - unfold Peers.BestPeer, Peers.Len. rewrite Hnone, map_size_empty_iff. split.
    + intros [_ ->]. symmetry in Horder.
      apply Permutation_nil_r, fmap_nil_inv in Horder.
      by apply map_to_list_empty_iff.
    + intros Hempty. split; [done|]. rewrite Hempty, map_to_list_empty in Horder.
      by apply Permutation_nil_r in Horder.
  - intros p Hp. destruct (Hsome p Hp) as ([Hp'|Hp'] & _ & Hmax & _); [|done].
    split; [by apply Hin|]. intros i q Hq. apply Hmax, Hin. by exists i.
Qed.

Lemma BestPeer_highest_witness :
  exists i, Peers.Peer (Peers.mkRegistry {["a" := Peers.mkPeer "a" 7]} false) i
            = Some (Peers.mkPeer "a" 7).
Proof.
  refine (proj1 (proj2 (BestPeer_highest
    (Peers.mkRegistry {["a" := Peers.mkPeer "a" 7]} false)
    [Peers.mkPeer "a" 7] _) (Peers.mkPeer "a" 7) _)).
  - unfold Peers.range_order. simpl. by rewrite map_to_list_singleton.
  - reflexivity.
Defined.

(** ** The tip along a sequence of calls *)

(** X26: the tip counts the successful calls.  With a codec that reads back
    the records of the calls, after any sequence of
    [PutCompactionChainTipInfo] calls on an empty store the stored tip
    decodes, and its height is the number of the calls that returned no
    error (modulo 2^64): the accepted heights are 1, 2, 3, ... in this
    order. *)
Theorem putTips_height
    (rlpEncode : DB.compactionChainTipInfo -> bytes)
    (rlpDecode : bytes -> option DB.compactionChainTipInfo)
    (calls : list (DB.Hash * Z)) :
  (forall blockHash height, (blockHash, height) ∈ calls ->
     rlpDecode (rlpEncode (DB.mkTip height blockHash))
     = Some (DB.mkTip height blockHash)) ->
  DB.tip_wf rlpDecode (DB.putTips rlpEncode rlpDecode ∅ calls).1
  /\ DB.tipHeight rlpDecode (DB.putTips rlpEncode rlpDecode ∅ calls).1
     = wrap64 (Z.of_nat (DB.putTips rlpEncode rlpDecode ∅ calls).2).
Proof.
  intros Hrt. unfold DB.putTips.
  apply (foldl_invariant_in (fun st : DB.leveldb * nat =>
           DB.tip_wf rlpDecode st.1
           /\ DB.tipHeight rlpDecode st.1 = wrap64 (Z.of_nat st.2))).
  - intros [db n] [blockHash height] Hin [Hwf Hh]. simpl in Hwf, Hh.
    destruct (internalGet_wf rlpDecode db Hwf) as (info & Hget & Hrange).
    unfold DB.tipHeight in Hh. rewrite Hget in Hh. simpl in Hh.
    unfold DB.PutCompactionChainTipInfo. rewrite Hget.
    case_decide as Hnext; simpl.
    + split.
      * intros queried. rewrite lookup_insert_eq. intros [= <-].
        eexists. split; [by apply Hrt|]. simpl. rewrite <- Hnext.
        apply wrap64_range.
      * unfold DB.tipHeight, DB.internalGetCompactionChainTipInfo.
        rewrite lookup_insert_eq, Hrt by done. simpl.
        rewrite <- Hnext, Hh. unfold wrap64.
        rewrite Zplus_mod_idemp_l. f_equal. lia.
    + split; [done|]. unfold DB.tipHeight. by rewrite Hget.
  - simpl. split.
    + intros queried Hq. by rewrite lookup_empty in Hq.
    + unfold DB.tipHeight, DB.internalGetCompactionChainTipInfo.
      by rewrite lookup_empty.
Qed.

Lemma putTips_height_witness :
  DB.tipHeight DB.demoDecode
    (DB.putTips DB.demoEncode DB.demoDecode ∅
       [(DB.zeroHash, 1); (DB.zeroHash, 3); (DB.zeroHash, 2)]).1
  = wrap64 (Z.of_nat
      (DB.putTips DB.demoEncode DB.demoDecode ∅
         [(DB.zeroHash, 1); (DB.zeroHash, 3); (DB.zeroHash, 2)]).2).
Proof.
  refine (proj2 (putTips_height DB.demoEncode DB.demoDecode
            [(DB.zeroHash, 1); (DB.zeroHash, 3); (DB.zeroHash, 2)] _)).
  intros blockHash height Hin.
  repeat (apply elem_of_cons in Hin as [Hin|Hin];
          [injection Hin as -> ->; vm_compute; reflexivity|]).
  by apply elem_of_nil in Hin.
Defined.

(** ** DexconApp: a prepared payload is accepted *)

Section PreparedFacts.

Import Types App.

Variable d : DexconApp.

Lemma txsOf_app (a : Address) (l1 l2 : list Transaction) :
  txsOf a (l1 ++ l2) = txsOf a l1 ++ txsOf a l2.
Proof. unfold txsOf. apply filter_app. Qed.

Lemma txsOf_all (a : Address) (l : list Transaction) :
  Forall (fun tx => txFrom tx = Some a) l -> txsOf a l = l.
Proof.
  induction 1 as [|tx l Htx Hl IH]; [done|].
  rewrite txsOf_cons_eq by done. by rewrite IH.
Qed.

Lemma txsOf_none (a a' : Address) (l : list Transaction) :
  a <> a' -> Forall (fun tx => txFrom tx = Some a') l -> txsOf a l = [].
Proof.
  intros Hne. induction 1 as [|tx l Htx Hl IH]; [done|].
  rewrite txsOf_cons_ne by congruence. done.
Qed.

(** The transactions of an address in a concatenation of runs, one run per
    address. *)
Lemma txsOf_concat (segs : list (Address * list Transaction)) :
  NoDup segs.*1 ->
  Forall (fun seg => Forall (fun tx => txFrom tx = Some seg.1) seg.2) segs ->
  forall a,
    (a ∉ segs.*1 -> txsOf a (concat segs.*2) = [])
    /\ (forall run, (a, run) ∈ segs -> txsOf a (concat segs.*2) = run).
Proof.
  induction segs as [|[a0 run0] segs IH]; intros Hnd Hall a.
  - split; [done|]. intros run Hin. by apply elem_of_nil in Hin.
  - rewrite fmap_cons in Hnd. apply NoDup_cons in Hnd as [Hnotin Hnd].
    apply Forall_cons in Hall as [Hrun0 Hall].
    rewrite !fmap_cons. cbn [concat fst snd] in *.
    destruct (IH Hnd Hall a) as [IHnone IHsome].
    rewrite txsOf_app. split.
    + intros Ha. apply not_elem_of_cons in Ha as [Hne Ha].
      rewrite (txsOf_none a a0) by done. by rewrite IHnone.
    + intros run [[= -> ->]|Hin]%elem_of_cons.
      * rewrite txsOf_all by done.
        destruct (IH Hnd Hall a0) as [IHnone0 _].
        rewrite IHnone0 by done. apply app_nil_r.
      * assert (a <> a0).
        { intros ->. apply Hnotin. apply list_elem_of_fmap.
          by exists (a0, run). }
        rewrite (txsOf_none a a0) by done. simpl. by apply IHsome.
Qed.

Lemma chained_Some_lookup (txs : list Transaction) :
  forall p (i : nat) tx,
  chained (Some p) txs -> txs !! i = Some tx ->
  txNonce tx = wrap64 (p + 1 + Z.of_nat i).
Proof.
  induction txs as [|tx0 rest IH]; intros p i tx Hch Hi;
    [by rewrite lookup_nil in Hi|].
  destruct Hch as [Hn Hch]. destruct i as [|i]; simpl in Hi.
  - injection Hi as <-. rewrite Hn. f_equal. lia.
  - rewrite (IH _ _ _ Hch Hi), Hn. unfold wrap64.
    rewrite <- Z.add_assoc, Zplus_mod_idemp_l. f_equal. lia.
Qed.

Lemma chained_None_lookup (txs : list Transaction) (tx0 tx : Transaction) (i : nat) :
  chained None txs -> head txs = Some tx0 -> txs !! i = Some tx ->
  txNonce tx = wrap64 (txNonce tx0 + Z.of_nat i) \/ (i = 0%nat /\ tx = tx0).
Proof.
  destruct txs as [|tx1 rest]; [done|]. intros [_ Hch] [= ->] Hi.
  destruct i as [|i]; simpl in Hi.
  - right. split; [done|]. congruence.
  - left. rewrite (chained_Some_lookup _ _ _ _ Hch Hi). f_equal. lia.
Qed.

Lemma chained_drop (txs : list Transaction) (k : nat) :
  chained None txs -> chained None (drop k txs).
Proof.
  revert txs. induction k as [|k IH]; intros txs Hch; [by rewrite drop_0|].
  destruct txs as [|tx rest]; [done|]. simpl. apply IH.
  destruct Hch as [_ Hch]. by eapply chained_weaken.
Qed.

Lemma chained_prefix (txs run : list Transaction) :
  forall p, chained p txs -> run `prefix_of` txs -> chained p run.
Proof.
  revert txs. induction run as [|tx run IH]; intros txs p Hch Hpre; [done|].
  destruct txs as [|tx' rest]; [by apply prefix_nil_not in Hpre|].
  apply prefix_cons_inv_1 in Hpre as Heq. subst tx'.
  destruct Hch as [Hn Hch]. split; [done|].
  eapply IH; [exact Hch|]. by eapply prefix_cons_inv_2.
Qed.

(** The nonce at the index where [preparePayload] starts is the expected
    one. *)
Lemma start_nonce (expectNonce firstNonce : Z) :
  is_uint64 expectNonce ->
  0 <= to_int64 (wrap64 (expectNonce - firstNonce)) ->
  wrap64 (firstNonce
          + Z.of_nat (Z.to_nat (to_int64 (wrap64 (expectNonce - firstNonce)))))
  = expectNonce.
Proof.
  intros He Hk. rewrite Z2Nat.id by done.
  rewrite to_int64_wrap64 in *.
  rewrite <- (wrap64_small expectNonce) at 2 by done.
  unfold to_int64, wrap64 in *.
  set (x := expectNonce - firstNonce) in *.
  rewrite <- Zplus_mod_idemp_r.
  rewrite <- (Zminus_mod_idemp_l ((x + 2 ^ 63) mod 2 ^ 64)).
  rewrite Z.mod_mod by lia.
  rewrite Zminus_mod_idemp_l, Zplus_mod_idemp_r.
  f_equal. unfold x. lia.
Qed.

Lemma VerifyBlock_checkSenders_complete position currentState chainNums chainID
    (l : list (Address * Z)) :
  (forall a f, (a, f) ∈ l ->
     addrBelongsToChain a chainNums chainID = Ret true
     /\ expectedNonce d currentState (ChainID position) a = f) ->
  VerifyBlock_checkSenders d position currentState chainNums chainID l
  = Ret true.
Proof.
  induction l as [|[a f] l IH]; intros Hl; [done|].
  cbn [VerifyBlock_checkSenders].
  destruct (Hl a f) as [-> He]; [by left|].
  fold (expectedNonce d currentState (ChainID position) a).
  rewrite He, Z.eqb_refl. cbn [negb]. apply IH.
  intros a' f' Hin. apply Hl. by right.
Qed.

Lemma totalCost_nonneg (l : list Transaction) :
  Forall (fun tx => 0 <= Cost tx) l -> 0 <= totalCost l.
Proof. induction 1; simpl; [lia|]. fold (totalCost l). lia. Qed.

Lemma totalGas_nonneg (l : list Transaction) :
  Forall (fun tx => 0 <= txGas tx) l -> 0 <= totalGas l.
Proof. induction 1; simpl; [lia|]. fold (totalGas l). lia. Qed.

Lemma totalGasInt64_small (l : list Transaction) :
  Forall (fun tx => 0 <= txGas tx < 2 ^ 63) l -> totalGasInt64 l = totalGas l.
Proof.
  induction 1 as [|tx l Htx Hl IH]; [done|].
  cbn [totalGasInt64 totalGas foldr]. fold (totalGasInt64 l) (totalGas l).
  rewrite IH, to_int64_small; [done|]. unfold is_int64. lia.
Qed.

Lemma VerifyBlock_txLoop_complete (txs : list Transaction) :
  forall balances used limit,
  Forall (fun tx => is_Some (txFrom tx) /\ gasOK d tx
                    /\ 0 <= txGas tx /\ 0 <= Cost tx) txs ->
  (forall s, txsOf s txs <> [] ->
     exists balance, balances !! s = Some balance
                     /\ totalCost (txsOf s txs) <= balance) ->
  (txs <> [] -> used + totalGas txs <= limit) ->
  VerifyBlock_txLoop d txs balances used limit = Ret VerifyOK.
Proof.
  induction txs as [|tx rest IH]; intros balances used limit Hall Hfunds Hgas;
    [done|].
  apply Forall_cons in Hall as [([from Hfrom] & (intrGas & Hintr & Hle) & Hg & Hc) Hall].
  specialize (Hgas ltac:(done)).
  cbn [totalGas foldr] in Hgas. fold (totalGas rest) in Hgas.
  assert (Hrestgas : 0 <= totalGas rest).
  { apply totalGas_nonneg. eapply Forall_impl; [exact Hall|]. simpl. tauto. }
  assert (Hrestcost : forall s, 0 <= totalCost (txsOf s rest)).
  { intros s. apply totalCost_nonneg. unfold txsOf.
    apply Forall_forall. intros x [_ Hx]%list_elem_of_filter.
    rewrite Forall_forall in Hall. apply Hall in Hx. tauto. }
  cbn [VerifyBlock_txLoop]. rewrite Hfrom, Hintr.
  destruct (Z.ltb_spec (txGas tx) intrGas); [lia|].
  destruct (Hfunds from) as (balance & Hbal & Hcost).
  { by rewrite txsOf_cons_eq. }
  rewrite txsOf_cons_eq in Hcost by done.
  cbn [totalCost foldr] in Hcost. fold (totalCost (txsOf from rest)) in Hcost.
  pose proof (Hrestcost from).
  rewrite Hbal. destruct (Z.ltb_spec (balance - Cost tx) 0); [lia|].
  destruct (Z.gtb_spec (used + txGas tx) limit); [lia|].
  apply IH; [done| |intros _; lia].
  intros s Hs. destruct (decide (s = from)) as [->|Hne].
  - rewrite lookup_insert_eq. eexists. split; [done|]. lia.
  - rewrite lookup_insert_ne by done.
    destruct (Hfunds s) as (b & Hb & Hle'); [by rewrite txsOf_cons_ne by congruence|].
    rewrite txsOf_cons_ne in Hle' by congruence. eauto.
Qed.

End PreparedFacts.

Section PreparedFacts2.

Import Types App.

Variable d : DexconApp.

(** The runs of a well-formed pending map, put one after the other, pass the
    checks of [VerifyBlock] on the transactions. *)
Lemma selected_runs_verify (position : Position) (currentState : StateDB)
    (txsMap segs : list (Address * list Transaction)) :
  pending_wf txsMap ->
  (forall a, is_uint64 (expectedNonce d currentState (ChainID position) a)) ->
  Forall (selectedRun d position currentState txsMap) segs ->
  segs.*1 `sublist_of` txsMap.*1 ->
  (concat segs.*2 <> [] ->
   totalGasInt64 (concat segs.*2) <= GasLimit (CurrentBlock d)) ->
  forallb (fun tx => bool_decide (is_Some (txFrom tx))) (concat segs.*2) = true
  /\ exists addressNonce,
       validateNonce (concat segs.*2) = Some addressNonce
       /\ VerifyBlock_checkSenders d position currentState
            (NumChains d (Round position)) (ChainID position)
            (map_to_list addressNonce) = Ret true
       /\ VerifyBlock_txLoop d (concat segs.*2)
            (VerifyBlock_balances d position currentState addressNonce)
            0 (GasLimit (CurrentBlock d)) = Ret VerifyOK.
Proof.
  intros [Hkeys Hwf] Hnonce Hsegs Hsub Hgas.
  set (txs := concat segs.*2) in *.
  assert (Hnd : NoDup segs.*1) by (by eapply sublist_NoDup).
  (* every transaction of a run is one of the pending list of its address *)
  assert (Hrun : forall seg, seg ∈ segs ->
    exists pend tx0,
      (seg.1, pend) ∈ txsMap /\ head pend = Some tx0
      /\ addrBelongsToChain seg.1 (NumChains d (Round position)) (ChainID position)
         = Ret true
      /\ 0 <= to_int64 (wrap64 (expectedNonce d currentState (ChainID position) seg.1
                                - txNonce tx0))
      /\ seg.2 `prefix_of`
           drop (Z.to_nat (to_int64 (wrap64
                   (expectedNonce d currentState (ChainID position) seg.1
                    - txNonce tx0)))) pend
      /\ Forall (gasOK d) seg.2
      /\ (seg.2 <> [] ->
          totalCost seg.2
          <= GetBalance currentState seg.1
             - default 0 (GetCostInConfirmedBlocks d (ChainID position) seg.1))
      /\ Forall (fun tx => txFrom tx = Some seg.1
                           /\ is_uint64 (txNonce tx)
                           /\ 0 <= txGas tx < 2 ^ 63 /\ 0 <= Cost tx) seg.2).
  { intros seg Hseg. rewrite Forall_forall in Hsegs.
    destruct (Hsegs seg Hseg) as (pend & tx0 & Hin & Hhd & Hb & Hk & Hpre & Hok & Hc).
    exists pend, tx0. do 7 (split; [done|]).
    destruct (Hwf _ _ Hin) as [_ Hall].
    apply Forall_forall. intros tx Htx.
    rewrite Forall_forall in Hall. apply Hall.
    destruct Hpre as [rest Hrest].
    eapply subseteq_drop. rewrite Hrest. apply elem_of_app. by left. }
  assert (Hall : Forall (fun tx => exists a, txFrom tx = Some a
                           /\ gasOK d tx
                           /\ 0 <= txGas tx < 2 ^ 63 /\ 0 <= Cost tx) txs).
  { apply Forall_forall. intros tx Htx. unfold txs in Htx.
    apply list_elem_of_In, in_concat in Htx as (run & Hin & Htx).
    apply list_elem_of_In in Hin, Htx.
    apply list_elem_of_fmap in Hin as (seg & -> & Hseg).
    destruct (Hrun seg Hseg) as (_ & _ & _ & _ & _ & _ & _ & Hok & _ & Hs).
    rewrite Forall_forall in Hok, Hs.
    exists seg.1. destruct (Hs tx Htx) as (? & ? & ? & ?). split; [done|].
    split; [by apply Hok|done]. }
  assert (Hmine : forall a,
    (a ∉ segs.*1 -> txsOf a txs = [])
    /\ (forall run, (a, run) ∈ segs -> txsOf a txs = run)).
  { apply txsOf_concat; [done|]. apply Forall_forall. intros seg Hseg.
    destruct (Hrun seg Hseg) as (_ & _ & _ & _ & _ & _ & _ & _ & _ & Hs).
    eapply Forall_impl; [exact Hs|]. simpl. tauto. }
  assert (Hseg_of : forall a, txsOf a txs <> [] ->
    exists run, (a, run) ∈ segs /\ txsOf a txs = run).
  { intros a Ha. destruct (decide (a ∈ segs.*1)) as [Hin|Hnotin].
    - apply list_elem_of_fmap in Hin as ([a' run] & -> & Hin).
      exists run. split; [done|]. by apply (proj2 (Hmine a')).
    - exfalso. apply Ha. by apply (proj1 (Hmine a)). }
  split.
  { apply forallb_forall. intros tx Htx%list_elem_of_In.
    rewrite Forall_forall in Hall. destruct (Hall tx Htx) as (a & -> & _).
    by apply bool_decide_eq_true_2. }
  destruct (validateNonce_loop_complete txs ∅ ∅) as [addressNonce Hvalid].
  { eapply Forall_impl; [exact Hall|]. simpl. intros tx (a & -> & _). by eexists. }
  { intros a. unfold lastSeen. rewrite lookup_empty.
    destruct (txsOf a txs) as [|tx1 mine] eqn:Hmine_a; [done|].
    destruct (Hseg_of a) as (run & Hin & Heq); [by rewrite Hmine_a|].
    rewrite Hmine_a in Heq. rewrite Heq.
    destruct (Hrun _ Hin) as (pend & tx0 & Hpend & _ & _ & _ & Hpre & _).
    destruct (Hwf _ _ Hpend) as [Hch _].
    eapply chained_prefix; [|exact Hpre]. by apply chained_drop. }
  exists addressNonce. split; [done|].
  assert (Hfirst : forall a, addressNonce !! a = txNonce <$> head (txsOf a txs)).
  { intros a. destruct (validateNonce_loop_chained txs ∅ ∅ _ Hvalid a) as [_ Hm].
    by rewrite lookup_empty in Hm. }
  split.
  - apply VerifyBlock_checkSenders_complete. intros a f Hin.
    apply elem_of_map_to_list in Hin. rewrite Hfirst in Hin.
    destruct (txsOf a txs) as [|tx1 mine] eqn:Hmine_a; [done|].
    simpl in Hin. injection Hin as <-.
    destruct (Hseg_of a) as (run & Hrun_in & Heq); [by rewrite Hmine_a|].
    rewrite Hmine_a in Heq. subst run.
    destruct (Hrun _ Hrun_in)
      as (pend & tx0 & Hpend & Hhd & Hb & Hk & Hpre & _ & _ & Hs1).
    simpl in *. split; [done|].
    apply Forall_cons in Hs1 as [(_ & Hu1 & _) _].
    destruct (Hwf _ _ Hpend) as [Hch _].
    set (k := Z.to_nat (to_int64 (wrap64
                (expectedNonce d currentState (ChainID position) a
                 - txNonce tx0)))) in *.
    assert (Hk' : pend !! k = Some tx1).
    { destruct Hpre as [rest Hrest].
      rewrite <- (Nat.add_0_r k), <- lookup_drop, Hrest. done. }
    destruct (chained_None_lookup pend tx0 tx1 k Hch Hhd Hk') as [Hn|[Hk0 ->]].
    + rewrite Hn. unfold k. symmetry. by apply start_nonce.
    + pose proof (start_nonce _ (txNonce tx0) (Hnonce a) Hk) as Hs.
      fold k in Hs. rewrite Hk0, Z.add_0_r in Hs. rewrite <- Hs.
      by apply wrap64_small.
  - apply VerifyBlock_txLoop_complete.
    + eapply Forall_impl; [exact Hall|]. simpl.
      intros tx (a & -> & ? & ? & ?). split; [by eexists|]. split; [done|lia].
    + intros s Hs.
      destruct (Hseg_of s Hs) as (run & Hrun_in & Heq).
      destruct (Hrun _ Hrun_in) as (_ & _ & _ & _ & _ & _ & _ & _ & Hcost & _).
      simpl in Hcost. rewrite Heq in *.
      unfold VerifyBlock_balances. rewrite map_lookup_imap, Hfirst, Heq.
      destruct run as [|tx1 run]; [done|]. simpl.
      specialize (Hcost ltac:(done)).
      destruct (GetCostInConfirmedBlocks d (ChainID position) s); simpl in *;
        eexists; (split; [done|]); lia.
    + intros Hne. rewrite <- totalGasInt64_small; [by apply Hgas|].
      eapply Forall_impl; [exact Hall|]. simpl. intros tx (a & _ & _ & ? & _). done.
Qed.

End PreparedFacts2.

(** X27: a prepared payload is accepted.  When [preparePayload] returns a
    payload for the position of a block, the block carries that payload and
    a witness that passes the witness checks, the payload decodes to the
    transactions it was encoded from, the pending transactions are what a
    transaction pool hands out (every address once, with its own
    transactions at consecutive [uint64] nonces, gas below 2^63 and costs
    that are not negative) and the expected nonces are [uint64] values, then
    [VerifyBlock] on the same chain state returns OK. *)
Theorem prepared_payload_is_accepted (d : App.DexconApp) (live : nat)
    (block : Types.Block) :
  App.preparePayload d live (Types.Position_ block)
  = App.Ret (Some (Types.Payload block), None) ->
  (exists b st,
     App.decodeHash d (Types.wData (Types.Witness_ block)) = Some (App.EthHash b)
     /\ Types.wHeight (Types.Witness_ block) <= App.NumberU64 (App.CurrentBlock d)
     /\ App.GetBlockByNumber d (Types.wHeight (Types.Witness_ block)) = Some b
     /\ App.StateAt d (App.Root b) = Some st) ->
  (forall txs, App.encodeTransactions d txs = Some (Types.Payload block) ->
     App.decodeTransactions d (Types.Payload block) = Some txs) ->
  (forall txsMap, App.Pending d = Some txsMap -> App.pending_wf txsMap) ->
  (forall root currentState a,
     App.chainRoot d !! Types.ChainID (Types.Position_ block) = Some root ->
     App.StateAt d root = Some currentState ->
     is_uint64 (App.expectedNonce d currentState
                  (Types.ChainID (Types.Position_ block)) a)) ->
  App.VerifyBlock d block = App.Ret App.VerifyOK.
Proof.
  intros Hprep (b & st0 & Hdec & Hheight & Hget & Hstate0) Hcodec Hpending Hnonce.
  unfold App.preparePayload in Hprep. destruct live as [|live]; [done|].
  unfold App.VerifyBlock. cbv zeta. rewrite Hdec.
  replace (App.NumberU64 (App.CurrentBlock d) <? Types.wHeight (Types.Witness_ block))
    with false by (symmetry; apply Z.ltb_ge; lia).
  rewrite Hget, bool_decide_eq_true_2 by done. cbn [negb]. rewrite Hstate0.
  match type of Hprep with
  | match ?g with App.Ret _ => _ | App.Panic => _ end = _ =>
      destruct g as [[|]|]; [done| |done]
  end.
  destruct (_ && _); [done|].
  destruct (App.chainRoot d !! _) as [root|] eqn:Hroot; [|done].
  destruct (App.StateAt d root) as [currentState|] eqn:Hstate; [|done].
  destruct (App.Pending d) as [txsMap|] eqn:Hpend; [|done].
  destruct (length (Types.Payload block) =? 0)%nat; [done|].
  destruct (preparePayload_addressMap_spec d (Types.Position_ block) currentState
              txsMap txsMap [] live 0 [] (Types.Payload block))
    as (segs & Henc & Hsegs & Hsub & Hgas); try done.
  rewrite (Hcodec _ Henc).
  destruct (selected_runs_verify d (Types.Position_ block) currentState txsMap segs)
    as (Hsenders & addressNonce & Hvalid & Hcheck & Hloop); try done.
  - by apply Hpending.
  - intros a. by eapply Hnonce.
  - rewrite Hsenders. cbn [negb]. rewrite Hvalid, Hcheck. exact Hloop.
Qed.

Lemma prepared_payload_is_accepted_witness :
  App.VerifyBlock
    (App.demoApp (fun _ => 1) 50000 50000 0 [App.demoTx 0 21000; App.demoTx 1 21000])
    (Types.demoBlock 0 0 [x01])
  = App.Ret App.VerifyOK.
Proof.
  refine (prepared_payload_is_accepted
    (App.demoApp (fun _ => 1) 50000 50000 0 [App.demoTx 0 21000; App.demoTx 1 21000])
    5 (Types.demoBlock 0 0 [x01]) _ _ _ _ _).
  - vm_compute. reflexivity.
  - exists (App.demoHead 50000), (App.demoState 0). simpl.
    split; [reflexivity|]. split; [lia|]. split; reflexivity.
  - intros txs. simpl. case_decide as Heq; [by intros _; rewrite Heq|discriminate].
  - intros txsMap [= <-]. split.
    + simpl. apply NoDup_singleton.
    + intros address txs [[= -> ->]|Hin]%elem_of_cons;
        [|by apply elem_of_nil in Hin].
      split; [simpl; auto|].
      repeat (apply Forall_cons; split;
              [unfold is_uint64, App.Cost; simpl;
               split; [reflexivity|]; lia|]).
      apply Forall_nil_2.
  - intros root currentState a _ [= <-].
    unfold is_uint64, App.expectedNonce. simpl. lia.
Defined.

(** ** The worker and the caller of [PreparePayload] *)

Section WorkerFacts.

Import Types App.

Variable d : DexconApp.

(** A payload of [preparePayload] comes without an error. *)
Lemma preparePayload_addressMap_payload position currentState
    (txsMap : list (Address * list Transaction)) :
  forall live used allTxs payload err,
  preparePayload_addressMap d position currentState live txsMap used allTxs
  = Ret (Some payload, err) ->
  err = None.
Proof.
  assert (Hfinish : forall allTxs payload err,
    match encodeTransactions d allTxs with
    | Some payload0 => Ret (Some payload0, None)
    | None => Ret (None, Some ErrEncode)
    end = Ret (Some payload, err) -> err = None).
  { intros allTxs payload err. destruct (encodeTransactions d allTxs); congruence. }
  induction txsMap as [|[address txs] pending IH];
    intros live used allTxs payload err Hres.
  { destruct live; cbn [preparePayload_addressMap] in Hres; eauto. }
  destruct live as [|live]; cbn [preparePayload_addressMap] in Hres; [eauto|].
  destruct (addrBelongsToChain address _ _) as [[|]|]; [|eauto|done].
  destruct txs as [|tx0 txs']; [eauto|].
  destruct (_ <? 0); [eauto|].
  destruct (preparePayload_txLoop d _ _ _ _ _); [done|eauto..].
Qed.

Lemma preparePayload_payload live position payload err :
  preparePayload d live position = Ret (Some payload, err) -> err = None.
Proof.
  unfold preparePayload. destruct live as [|live]; [done|].
  intros Hres.
  match type of Hres with
  | match ?g with Ret _ => _ | Panic => _ end = _ =>
      destruct g as [[|]|]; [done| |done]
  end.
  destruct (_ && _); [done|].
  destruct (chainRoot d !! _); [|done].
  destruct (StateAt d _); [|done].
  destruct (Pending d); [|done].
  by eapply preparePayload_addressMap_payload.
Qed.

End WorkerFacts.

(** X28: a payload of [PreparePayload] is the worker's.  Under every
    interleaving, when [PreparePayload] returns a payload that is not nil,
    it returns no error with it, and [preparePayload] has returned this
    payload without an error. *)
Theorem PreparePayload_payload_is_the_workers (d : App.DexconApp)
    (s : App.schedule) (position : Types.Position)
    (payload : bytes) (err : option App.error) :
  App.PreparePayload d s position = App.Ret (Some payload, err) ->
  err = None
  /\ App.preparePayload d (App.softLive s) position
     = App.Ret (Some payload, None).
Proof.
  unfold App.PreparePayload. intros Hres.
  destruct (App.preparePayload d (App.softLive s) position)
    as [[p e]|] eqn:Hworker.
  2:{ destruct (App.atErrPoll s), (App.atPayloadPoll s); done. }
  assert (Hp : p = Some payload /\ err = None).
  { destruct (App.atErrPoll s), (App.atPayloadPoll s), e as [e|];
      try done; by injection Hres as -> <-. }
  destruct Hp as [-> ->]. split; [done|].
  by rewrite (preparePayload_payload d _ _ _ _ Hworker).
Qed.

Lemma PreparePayload_payload_is_the_workers_witness :
  App.preparePayload
    (App.demoApp (fun _ => 1) 50000 50000 0 [App.demoTx 0 21000]) 5
    (Types.mkPosition 0 0 0)
  = App.Ret (Some [x01], None).
Proof.
  refine (proj2 (PreparePayload_payload_is_the_workers
    (App.demoApp (fun _ => 1) 50000 50000 0 [App.demoTx 0 21000])
    (App.mkSchedule App.DoneSent App.DoneSent 5) (Types.mkPosition 0 0 0)
    [x01] None _)).
  vm_compute. reflexivity.
Defined.

(** ** [ForgetConnection] on every peer set *)

Section ConnectionFacts.

Import PeerSet.

Variable selfPK : string.
Variable gov : governance.
Variable nodeID : string -> string.

Lemma keeps_removeLabel ps id0 label id lab :
  lab ∈ labels_of ps id -> round lab <> round label ->
  lab ∈ labels_of (removeLabel ps id0 label) id.
Proof.
  intros Hin Hne. rewrite labels_of_removeLabel.
  case_decide; [|done]. subst. apply elem_of_difference. split; [done|].
  intros ->%elem_of_singleton. done.
Qed.

Lemma keeps_removeDirectPeer ps pk label id lab :
  lab ∈ labels_of ps id -> round lab <> round label ->
  lab ∈ labels_of (removeDirectPeer nodeID ps pk label) id.
Proof.
  intros Hin Hne. rewrite labels_of_removeDirectPeer.
  case_decide; [|done]. subst. apply elem_of_difference. split; [done|].
  intros ->%elem_of_singleton. done.
Qed.

Lemma forgetConnection_keeps ps r id lab :
  lab ∈ labels_of ps id -> round lab <> r ->
  lab ∈ labels_of (forgetConnection selfPK gov nodeID ps r) id.
Proof.
  intros Hin Hne. unfold forgetConnection.
  set (K := fun ps' : peerSet => lab ∈ labels_of ps' id).
  assert (Hdirect : forall (pks : gset string) label ps0,
            round label = r -> K ps0 ->
            K (rangePKs (fun ps pk => removeDirectPeer nodeID ps pk label) pks ps0)).
  { intros pks label ps0 Hr. unfold rangePKs. apply foldl_invariant.
    intros ps1 pk H1. apply keeps_removeDirectPeer; [done|]. by rewrite Hr. }
  assert (Hlabel : forall (pks : gset string) label ps0,
            round label = r -> K ps0 ->
            K (rangePKs (fun ps pk => removeLabel ps (nodeID pk) label) pks ps0)).
  { intros pks label ps0 Hr. unfold rangePKs. apply foldl_invariant.
    intros ps1 pk H1. apply keeps_removeLabel; [done|]. by rewrite Hr. }
  match goal with
  | |- context [foldl ?f (?ps0, false) ?l] =>
      assert (Hfold : K (foldl f (ps0, false) l).1);
      [|destruct (foldl f (ps0, false) l) as [ps1 inOne]]
  end.
  - apply (foldl_invariant (fun st => K st.1)).
    + intros [ps0 b0] cid Hps0. simpl in *.
      destruct (NotarySet gov r cid); [|done].
      case_bool_decide; simpl.
      * by apply Hdirect.
      * change (K (set_srvr ?p ?s)) with (K p). by apply Hlabel.
    + simpl. case_bool_decide; [|done]. by apply Hdirect.
  - simpl in Hfold. destruct (negb _ && inOne); [|done].
    change (K (set_srvr ?p ?s)) with (K p). by apply Hlabel.
Qed.

Lemma history_forgetConnection ps r :
  history (forgetConnection selfPK gov nodeID ps r) = history ps.
Proof.
  unfold forgetConnection.
  assert (Hdirect : forall (pks : gset string) label ps0,
            history (rangePKs (fun ps pk => removeDirectPeer nodeID ps pk label)
                       pks ps0) = history ps0).
  { intros. unfold rangePKs. apply (hist_foldl history). intros.
    by apply (hist_removeDirectPeer nodeID history). }
  assert (Hlabel : forall (pks : gset string) label ps0,
            history (rangePKs (fun ps pk => removeLabel ps (nodeID pk) label)
                       pks ps0) = history ps0).
  { intros. unfold rangePKs. by apply (hist_foldl history). }
  match goal with
  | |- context [foldl ?f (?ps0, false) ?l] =>
      assert (Hfold : history (foldl f (ps0, false) l).1 = history ps);
      [|destruct (foldl f (ps0, false) l) as [ps1 inOne]]
  end.
  - apply (foldl_invariant (fun st => history st.1 = history ps)).
    + intros [ps0 b0] cid Hps0. simpl in *.
      destruct (NotarySet gov r cid); [|done].
      case_bool_decide; simpl.
      * by rewrite Hdirect.
      * by rewrite Hlabel.
    + simpl. case_bool_decide; [|done]. by rewrite Hdirect.
  - simpl in Hfold. destruct (negb _ && inOne); [|done].
    simpl. by rewrite Hlabel.
Qed.

Lemma ForgetConnection_foldl (rnd : Z) (l : list Z) :
  forall ps,
  let ps' := foldl (fun ps r =>
               if r <=? rnd then
                 let ps := forgetConnection selfPK gov nodeID ps rnd in
                 set_history ps (history ps ∖ {[r]})
               else ps) ps l in
  (forall r, r ∈ history ps' <-> r ∈ history ps /\ ~ (r ∈ l /\ r <= rnd))
  /\ (forall id lab, lab ∈ labels_of ps id -> round lab <> rnd ->
        lab ∈ labels_of ps' id).
Proof.
  induction l as [|r0 l IH]; intros ps; cbn [foldl].
  - split; [|done]. intros r. split; [|by intros [? _]]. intros H.
    split; [done|]. intros [Hin _]. by apply elem_of_nil in Hin.
  - destruct (Z.leb_spec r0 rnd) as [Hle|Hgt].
    + destruct (IH (set_history (forgetConnection selfPK gov nodeID ps rnd)
                      (history (forgetConnection selfPK gov nodeID ps rnd) ∖ {[r0]})))
        as [Hh' Hl'].
      split.
      * intros r. rewrite Hh'. simpl.
        rewrite history_forgetConnection, elem_of_difference, elem_of_singleton.
        split.
        -- intros [[H Hne] Hno]. split; [done|].
           intros ([->|Hin]%elem_of_cons & Hr); [done|]. by apply Hno.
        -- intros [H Hno]. split; [split; [done|]|].
           ++ intros ->. apply Hno. split; [by left|done].
           ++ intros [Hin Hr]. apply Hno. split; [by right|done].
      * intros id lab Hin Hne. apply Hl'; [|done].
        change (labels_of (set_history ?p ?h) id) with (labels_of p id).
        by apply forgetConnection_keeps.
    + destruct (IH ps) as [Hh' Hl']. split; [|done].
      intros r. rewrite Hh'. split; intros [H Hno]; (split; [done|]).
      * intros ([->|Hin]%elem_of_cons & Hr); [lia|]. by apply Hno.
      * intros [Hin Hr]. apply Hno. split; [by right|done].
Qed.

End ConnectionFacts.

(** X29: what [ForgetConnection] keeps.  On every peer set,
    [ForgetConnection(round)] leaves in the history exactly the rounds above
    [round], and it leaves every label whose round is not [round] itself
    where it is: the labels of the earlier rounds that it deletes from the
    history stay on their peers. *)
Theorem ForgetConnection_keeps_other_rounds (selfPK : string)
    (gov : PeerSet.governance) (nodeID : string -> string)
    (ps : PeerSet.peerSet) (rnd : Z) :
  let ps' := PeerSet.ForgetConnection selfPK gov nodeID ps rnd in
  (forall r, r ∈ PeerSet.history ps' <-> r ∈ PeerSet.history ps /\ rnd < r)
  /\ (forall id lab,
        lab ∈ PeerSet.labels_of ps id -> PeerSet.round lab <> rnd ->
        lab ∈ PeerSet.labels_of ps' id).
Proof.
  cbv zeta. unfold PeerSet.ForgetConnection.
  destruct (ForgetConnection_foldl selfPK gov nodeID rnd
              (elements (PeerSet.history ps)) ps) as [Hh Hl].
  cbv zeta in Hh, Hl. split; [|exact Hl].
  intros r. rewrite Hh, elem_of_elements. split.
  - intros [H Hno]. split; [done|].
    destruct (Z.lt_ge_cases rnd r); [done|]. exfalso. apply Hno. split; [done|lia].
  - intros [H Hlt]. split; [done|]. lia.
Qed.
